(** * romba: a shallow embedding of the index (db/kv.go) and of the depot
      (archive/depot.go), with the properties of the specification.

    Go values are modelled as follows.
    - [[]byte] is [list byte]; a slice that may be [nil] (a hash of a rom, the
      result of [Get]) is [option (list byte)], [None] being [nil].
    - [int64] is [Z] with the wrap-around of Go's addition written out
      ([add64]); [int] used as an index is [Z] as well.
    - [(T, error)] is [Res T]; a run-time panic (slice or index out of range)
      is the error [Panic].
    - A slice expression [s[lo:hi]] panics when [hi] exceeds the capacity of
      [s]; the model takes the capacity of a slice equal to its length. *)

From Stdlib Require Import ZArith Lia String Ascii.
From Stdlib Require Strings.Byte.
From stdpp Require Import base option list gmap strings sorting.

Set Warnings "-clear-no-such-hyp".
Local Open Scope nat_scope.

(** ** Bytes *)

Abbreviation byte := Byte.byte.
Abbreviation bytes := (list Byte.byte).

#[global] Instance byte_eq_dec : EqDecision byte := Byte.byte_eq_dec.

#[global] Instance byte_countable : Countable byte :=
  inj_countable Byte.to_N Byte.of_N Byte.of_to_N.

(** ** Results of fallible calls *)

Inductive error : Type :=
  | ErrIO (msg : string)        (* an error of a collaborator *)
  | ErrKeySize                  (* a store refused a key of the wrong size *)
  | ErrDecode                   (* gob could not decode a Dat *)
  | ErrEncode                   (* gob could not encode a Dat *)
  | ErrNilSha1                  (* "sha1 is nil for ..." *)
  | ErrMissingSha1              (* "cannot open rom ... because SHA1 is missing" *)
  | ErrOutOfSpace               (* "depot ran out of disk space" *)
  | Panic.                      (* run-time panic *)

Inductive Res (A : Type) : Type :=
  | Ok (a : A)
  | Err (e : error).
Arguments Ok {A} a.
Arguments Err {A} e.

Definition res_bind {A B} (r : Res A) (k : A → Res B) : Res B :=
  match r with
  | Ok a => k a
  | Err e => Err e
  end.

Notation "x <-? r ; k" := (res_bind r (fun x => k))
  (at level 100, r at next level, right associativity).

(** [int64]: the value of an arithmetic result after wrap-around. *)
Definition wrap64 (z : Z) : Z :=
  ((z + 2 ^ 63) `mod` 2 ^ 64 - 2 ^ 63)%Z.

Definition add64 (a b : Z) : Z := wrap64 (a + b).
Definition sub64 (a b : Z) : Z := wrap64 (a - b).

Definition int64_range (z : Z) : Prop := (- 2 ^ 63 ≤ z < 2 ^ 63)%Z.

(** ** package types

    The declarations of [types.Rom], [types.Game] and [types.Dat] are outside
    these files; the fields are those the code reads and writes. *)

Module types.

Record Rom : Type := mkRom {
  Rom_Name : string;
  Rom_Size : Z;
  Rom_Crc : option bytes;
  Rom_Md5 : option bytes;
  Rom_Sha1 : option bytes;
  Rom_Path : string
}.

Record Game : Type := mkGame {
  Game_Name : string;
  Game_Description : string;
  Game_Roms : list Rom
}.

Record Dat : Type := mkDat {
  Dat_Name : string;
  Dat_Description : string;
  Dat_Path : string;
  Dat_Generation : Z;
  Dat_Artificial : bool;
  Dat_Games : list Game
}.

Definition set_Generation (d : Dat) (g : Z) : Dat :=
  mkDat (Dat_Name d) (Dat_Description d) (Dat_Path d) g (Dat_Artificial d)
    (Dat_Games d).

End types.
Export types.

(** ** encoding/gob and crypto/sha1

    The serializer of a Dat and the digest of a byte string are library code;
    the index only relies on the digest being [sha1.Size] bytes long. *)

Class Codec : Type := {
  gobEncode : Dat → Res bytes;
  gobDecode : bytes → Res Dat;
  sha1Sum : bytes → bytes;
  sha1Sum_length : ∀ b, length (sha1Sum b) = 20
}.

(** ** db/kv.go *)

Module db.

Definition keySizeCrc : nat := 4.
Definition keySizeMd5 : nat := 16.
Definition keySizeSha1 : nat := 20.

(** [sha1.Size] of crypto/sha1. *)
Definition sha1_Size : nat := 20.

(** [s[lo:hi]] on a slice whose capacity is its length. *)
Definition slice (s : bytes) (lo hi : nat) : option bytes :=
  if decide (lo ≤ hi ∧ hi ≤ length s)
  then Some (take (hi - lo) (drop lo s))
  else None.

(** Number of iterations of [for i := 0; i < len; i += sha1.Size] when the
    body neither breaks nor returns. *)
Definition trips (len : nat) : nat := (len + (sha1_Size - 1)) / sha1_Size.

(** The inner loop of [appendUniqueSha1]:
    [for j := 0; j < len(dst); j += sha1.Size], with [n] iterations left and
    the loop variable at [j]; the result is the final value of [found]. *)
Fixpoint findSha1 (n j : nat) (dst srcBytes : bytes) : option bool :=
  match n with
  | 0 => Some false
  | S n' =>
      match slice dst j (j + sha1_Size) with
      | None => None
      | Some dstBytes =>
          if decide (srcBytes = dstBytes) then Some true
          else findSha1 n' (j + sha1_Size) dst srcBytes
      end
  end.

(** The outer loop: [for i := 0; i < len(src); i += sha1.Size], with [n]
    iterations left and the loop variable at [i]. *)
Fixpoint appendLoop (n i : nat) (dst src : bytes) : option bytes :=
  match n with
  | 0 => Some dst
  | S n' =>
      match slice src i (i + sha1_Size) with
      | None => None
      | Some srcBytes =>
          match findSha1 (trips (length dst)) 0 dst srcBytes with
          | None => None
          | Some found =>
              appendLoop n' (i + sha1_Size)
                (if found then dst else dst ++ srcBytes) src
          end
      end
  end.

(** [appendUniqueSha1(dst, src)]; [None] is a panic of a slice expression. *)
Definition appendUniqueSha1 (dst src : bytes) : option bytes :=
  appendLoop (trips (length src)) 0 dst src.

(** *** The 20-byte digests of a value *)

(** A value is a concatenation of 20-byte digests. *)
Definition digest_aligned (s : bytes) : Prop := length s `mod` sha1_Size = 0.

#[global] Instance digest_aligned_dec s : Decision (digest_aligned s).
Proof. unfold digest_aligned. apply _. Defined.

Fixpoint chunks (n : nat) (s : bytes) : list bytes :=
  match n with
  | 0 => []
  | S n' => take sha1_Size s :: chunks n' (drop sha1_Size s)
  end.

(** The digests found on the 20-byte boundaries of [s], in order. *)
Definition digests (s : bytes) : list bytes := chunks (length s / sha1_Size) s.

(** *** The key/value store behind the [KVStore] and [KVBatch] interfaces *)

(** Modelled from the spec: the backends of [KVStore] (the value of
    [StoreOpener]) are missing. Section 4.4: a store is a map with keys of a
    size fixed per store and validated on every call; [get] yields the value
    or absent; [append] is the append-union of section 4.5 (read the current
    value, scan in 20-byte steps, append only the digests not yet present),
    done when the batch is written. *)
Record KVStore : Type := mkStore {
  keySize : nat;
  data : gmap bytes bytes
}.

Inductive BatchOp : Type :=
  | OpSet (key value : bytes)
  | OpAppend (key value : bytes)
  | OpDelete (key : bytes).

Record KVBatch : Type := mkBatch {
  batchKeySize : nat;
  ops : list BatchOp
}.

(** A [nil] slice handed to a store is a slice of length 0. *)
Definition arg (o : option bytes) : bytes := default [] o.

(** Modelled from the spec: [KVStore.Get] of the missing backend; the key
    size is validated, an absent key gives [nil]. *)
Definition Get (st : KVStore) (key : bytes) : Res (option bytes) :=
  if decide (length key = keySize st) then Ok (data st !! key)
  else Err ErrKeySize.

(** Modelled from the spec: [KVStore.Exists] of the missing backend. *)
Definition Exists (st : KVStore) (key : bytes) : Res bool :=
  if decide (length key = keySize st) then Ok (bool_decide (is_Some (data st !! key)))
  else Err ErrKeySize.

(** Modelled from the spec: [KVStore.StartBatch] of the missing backend; a
    batch records the operations in the order of the calls. *)
Definition StoreStartBatch (st : KVStore) : KVBatch := mkBatch (keySize st) [].

Definition push (b : KVBatch) (op : BatchOp) : KVBatch :=
  mkBatch (batchKeySize b) (ops b ++ [op]).

(** Modelled from the spec: [KVBatch.Set] and [KVBatch.Append] of the
    missing backend; the key size is validated on the call. *)
Definition BatchSet (b : KVBatch) (key value : bytes) : Res KVBatch :=
  if decide (length key = batchKeySize b) then Ok (push b (OpSet key value))
  else Err ErrKeySize.

Definition BatchAppend (b : KVBatch) (key value : bytes) : Res KVBatch :=
  if decide (length key = batchKeySize b) then Ok (push b (OpAppend key value))
  else Err ErrKeySize.

(** Modelled from the spec: [KVBatch.Clear] of the missing backend. *)
Definition BatchClear (b : KVBatch) : KVBatch := mkBatch (batchKeySize b) [].

(** Modelled from the spec: the effect of one operation of a batch of the
    missing backend on the map; [append] is the union-append read, merge and
    write back of sections 4.4 and 4.5. *)
Definition applyOp (m : gmap bytes bytes) (op : BatchOp) : Res (gmap bytes bytes) :=
  match op with
  | OpSet k v => Ok (<[k := v]> m)
  | OpAppend k v =>
      match appendUniqueSha1 (default [] (m !! k)) v with
      | Some v' => Ok (<[k := v']> m)
      | None => Err Panic
      end
  | OpDelete k => Ok (delete k m)
  end.

Fixpoint applyOps (m : gmap bytes bytes) (l : list BatchOp) : Res (gmap bytes bytes) :=
  match l with
  | [] => Ok m
  | op :: l' => m' <-? applyOp m op; applyOps m' l'
  end.

(** Modelled from the spec: [KVStore.WriteBatch] of the missing backend; the
    batch is written as a whole or not at all. *)
Definition WriteBatch (st : KVStore) (b : KVBatch) : Res KVStore :=
  m' <-? applyOps (data st) (ops b); Ok (mkStore (keySize st) m').

(** *** [kvStore] and [kvBatch] *)

Record kvStore : Type := mkKvStore {
  generation : Z;
  datsDB : KVStore;
  crcDB : KVStore;
  md5DB : KVStore;
  sha1DB : KVStore;
  crcsha1DB : KVStore;
  md5sha1DB : KVStore;
  path : string
}.

(** The field [db] of [kvBatch] points to the store; the functions on a
    batch take the store as an argument instead. *)
Record kvBatch : Type := mkKvBatch {
  datsBatch : KVBatch;
  crcBatch : KVBatch;
  md5Batch : KVBatch;
  sha1Batch : KVBatch;
  crcsha1Batch : KVBatch;
  md5sha1Batch : KVBatch;
  size : Z
}.

Definition with_datsDB (db : kvStore) (st : KVStore) : kvStore :=
  mkKvStore (generation db) st (crcDB db) (md5DB db) (sha1DB db)
    (crcsha1DB db) (md5sha1DB db) (path db).
Definition with_crcDB (db : kvStore) (st : KVStore) : kvStore :=
  mkKvStore (generation db) (datsDB db) st (md5DB db) (sha1DB db)
    (crcsha1DB db) (md5sha1DB db) (path db).
Definition with_md5DB (db : kvStore) (st : KVStore) : kvStore :=
  mkKvStore (generation db) (datsDB db) (crcDB db) st (sha1DB db)
    (crcsha1DB db) (md5sha1DB db) (path db).
Definition with_sha1DB (db : kvStore) (st : KVStore) : kvStore :=
  mkKvStore (generation db) (datsDB db) (crcDB db) (md5DB db) st
    (crcsha1DB db) (md5sha1DB db) (path db).
Definition with_crcsha1DB (db : kvStore) (st : KVStore) : kvStore :=
  mkKvStore (generation db) (datsDB db) (crcDB db) (md5DB db) (sha1DB db)
    st (md5sha1DB db) (path db).
Definition with_md5sha1DB (db : kvStore) (st : KVStore) : kvStore :=
  mkKvStore (generation db) (datsDB db) (crcDB db) (md5DB db) (sha1DB db)
    (crcsha1DB db) st (path db).

Definition with_datsBatch (kvb : kvBatch) (b : KVBatch) : kvBatch :=
  mkKvBatch b (crcBatch kvb) (md5Batch kvb) (sha1Batch kvb)
    (crcsha1Batch kvb) (md5sha1Batch kvb) (size kvb).
Definition with_crcBatch (kvb : kvBatch) (b : KVBatch) : kvBatch :=
  mkKvBatch (datsBatch kvb) b (md5Batch kvb) (sha1Batch kvb)
    (crcsha1Batch kvb) (md5sha1Batch kvb) (size kvb).
Definition with_md5Batch (kvb : kvBatch) (b : KVBatch) : kvBatch :=
  mkKvBatch (datsBatch kvb) (crcBatch kvb) b (sha1Batch kvb)
    (crcsha1Batch kvb) (md5sha1Batch kvb) (size kvb).
Definition with_sha1Batch (kvb : kvBatch) (b : KVBatch) : kvBatch :=
  mkKvBatch (datsBatch kvb) (crcBatch kvb) (md5Batch kvb) b
    (crcsha1Batch kvb) (md5sha1Batch kvb) (size kvb).
Definition with_crcsha1Batch (kvb : kvBatch) (b : KVBatch) : kvBatch :=
  mkKvBatch (datsBatch kvb) (crcBatch kvb) (md5Batch kvb) (sha1Batch kvb)
    b (md5sha1Batch kvb) (size kvb).
Definition with_md5sha1Batch (kvb : kvBatch) (b : KVBatch) : kvBatch :=
  mkKvBatch (datsBatch kvb) (crcBatch kvb) (md5Batch kvb) (sha1Batch kvb)
    (crcsha1Batch kvb) b (size kvb).
Definition with_size (kvb : kvBatch) (n : Z) : kvBatch :=
  mkKvBatch (datsBatch kvb) (crcBatch kvb) (md5Batch kvb) (sha1Batch kvb)
    (crcsha1Batch kvb) (md5sha1Batch kvb) n.

(** [kvb.size += int64(n)] *)
Definition grow (kvb : kvBatch) (n : nat) : kvBatch :=
  with_size kvb (add64 (size kvb) (Z.of_nat n)).

Section index.
Context {codec : Codec}.

(** [kvStore.GetDat] *)
Definition GetDat (db : kvStore) (sha1Bytes : bytes) : Res (option Dat) :=
  dBytes <-? Get (datsDB db) sha1Bytes;
  match dBytes with
  | None => Ok None
  | Some b =>
      match gobDecode b with
      | Err e => Err e
      | Ok dat => Ok (Some dat)
      end
  end.

(** The loop of [DatsForRom] over the 20-byte digests of [dBytes], with [n]
    iterations left, the loop variable at [i] and [dats] collected so far. *)
Fixpoint datsLoop (db : kvStore) (dBytes : bytes) (n i : nat) (dats : list Dat)
  : Res (list Dat) :=
  match n with
  | 0 => Ok dats
  | S n' =>
      match slice dBytes i (i + sha1_Size) with
      | None => Err Panic
      | Some sha1Bytes =>
          dat <-? GetDat db sha1Bytes;
          datsLoop db dBytes n' (i + sha1_Size)
            (match dat with Some d => dats ++ [d] | None => dats end)
      end
  end.

(** The three lookups at the head of [DatsForRom]: the value of [dBytes]
    before the test [dBytes == nil]. *)
Definition resolveDatSha1s (db : kvStore) (rom : Rom) : Res (option bytes) :=
  dBytes <-? match Rom_Sha1 rom with
             | Some s => Get (sha1DB db) s
             | None => Ok None
             end;
  dBytes <-? match Rom_Md5 rom, dBytes with
             | Some m, None => Get (md5DB db) m
             | _, _ => Ok dBytes
             end;
  match Rom_Crc rom, dBytes with
  | Some c, None => Get (crcDB db) c
  | _, _ => Ok dBytes
  end.

(** [kvStore.DatsForRom]; a [nil] result and an empty one are the same
    list. *)
Definition DatsForRom (db : kvStore) (rom : Rom) : Res (list Dat) :=
  dBytes <-? resolveDatSha1s db rom;
  match dBytes with
  | None => Ok []
  | Some b => datsLoop db b (trips (length b)) 0 []
  end.

(** [kvStore.StartBatch] *)
Definition StartBatch (db : kvStore) : kvBatch :=
  mkKvBatch (StoreStartBatch (datsDB db)) (StoreStartBatch (crcDB db))
    (StoreStartBatch (md5DB db)) (StoreStartBatch (sha1DB db))
    (StoreStartBatch (crcsha1DB db)) (StoreStartBatch (md5sha1DB db)) 0.

(** [kvBatch.Flush]: the six batches are written in order; a failure leaves
    the stores written so far as they are. *)
Definition Flush (db : kvStore) (kvb : kvBatch) : kvStore * kvBatch * option error :=
  if decide (size kvb = 0%Z) then (db, kvb, None) else
  match WriteBatch (datsDB db) (datsBatch kvb) with
  | Err e => (db, kvb, Some e)
  | Ok st =>
  let db := with_datsDB db st in
  let kvb := with_datsBatch kvb (BatchClear (datsBatch kvb)) in
  match WriteBatch (crcDB db) (crcBatch kvb) with
  | Err e => (db, kvb, Some e)
  | Ok st =>
  let db := with_crcDB db st in
  let kvb := with_crcBatch kvb (BatchClear (crcBatch kvb)) in
  match WriteBatch (md5DB db) (md5Batch kvb) with
  | Err e => (db, kvb, Some e)
  | Ok st =>
  let db := with_md5DB db st in
  let kvb := with_md5Batch kvb (BatchClear (md5Batch kvb)) in
  match WriteBatch (sha1DB db) (sha1Batch kvb) with
  | Err e => (db, kvb, Some e)
  | Ok st =>
  let db := with_sha1DB db st in
  let kvb := with_sha1Batch kvb (BatchClear (sha1Batch kvb)) in
  match WriteBatch (crcsha1DB db) (crcsha1Batch kvb) with
  | Err e => (db, kvb, Some e)
  | Ok st =>
  let db := with_crcsha1DB db st in
  let kvb := with_crcsha1Batch kvb (BatchClear (crcsha1Batch kvb)) in
  match WriteBatch (md5sha1DB db) (md5sha1Batch kvb) with
  | Err e => (db, kvb, Some e)
  | Ok st =>
  let db := with_md5sha1DB db st in
  let kvb := with_md5sha1Batch kvb (BatchClear (md5sha1Batch kvb)) in
  (db, with_size kvb 0, None)
  end end end end end end.

(** [kvBatch.Close]; the batch is not used afterwards. *)
Definition Close (db : kvStore) (kvb : kvBatch) : kvStore * option error :=
  let '(db', _, err) := Flush db kvb in (db', err).

(** The body of the loop over [g.Roms] in [kvBatch.IndexDat]. *)
Definition indexDatRom (sha1Bytes : bytes) (kvb : kvBatch) (r : Rom) : Res kvBatch :=
  kvb <-? match Rom_Sha1 r with
          | Some rs =>
              b <-? BatchAppend (sha1Batch kvb) rs sha1Bytes;
              Ok (grow (with_sha1Batch kvb b) sha1_Size)
          | None => Ok kvb
          end;
  kvb <-? match Rom_Md5 r with
          | Some rm =>
              b <-? BatchAppend (md5Batch kvb) rm sha1Bytes;
              let kvb := grow (with_md5Batch kvb b) sha1_Size in
              match Rom_Sha1 r with
              | Some rs =>
                  b <-? BatchAppend (md5sha1Batch kvb) rm rs;
                  Ok (grow (with_md5sha1Batch kvb b) sha1_Size)
              | None => Ok kvb
              end
          | None => Ok kvb
          end;
  match Rom_Crc r with
  | Some rc =>
      b <-? BatchAppend (crcBatch kvb) rc sha1Bytes;
      let kvb := grow (with_crcBatch kvb b) sha1_Size in
      match Rom_Sha1 r with
      | Some rs =>
          b <-? BatchAppend (crcsha1Batch kvb) rc rs;
          Ok (grow (with_crcsha1Batch kvb b) sha1_Size)
      | None => Ok kvb
      end
  | None => Ok kvb
  end.

(** [for _, r := range roms], left to right, stopping at the first error. *)
Fixpoint indexDatRoms (sha1Bytes : bytes) (kvb : kvBatch) (roms : list Rom) : Res kvBatch :=
  match roms with
  | [] => Ok kvb
  | r :: roms' => kvb <-? indexDatRom sha1Bytes kvb r; indexDatRoms sha1Bytes kvb roms'
  end.

(** [for _, g := range dat.Games] *)
Fixpoint indexDatGames (sha1Bytes : bytes) (kvb : kvBatch) (games : list Game) : Res kvBatch :=
  match games with
  | [] => Ok kvb
  | g :: games' =>
      kvb <-? indexDatRoms sha1Bytes kvb (Game_Roms g);
      indexDatGames sha1Bytes kvb games'
  end.

(** [kvBatch.IndexDat]. The error of [kvb.datsBatch.Set] is dropped by the
    code; a refused [Set] leaves the batch as it was. *)
Definition kvBatch_IndexDat (db : kvStore) (kvb : kvBatch) (dat : Dat)
    (sha1Bytes : option bytes) : Res kvBatch :=
  match sha1Bytes with
  | None => Err ErrNilSha1
  | Some sb =>
      let dat := set_Generation dat (generation db) in
      buf <-? gobEncode dat;
      exists_ <-? (if Dat_Artificial dat then Ok false
                   else match Exists (datsDB db) sb with
                        | Ok e => Ok e
                        | Err _ => Err (ErrIO "failed to lookup sha1 indexing dats")
                        end);
      let kvb := match BatchSet (datsBatch kvb) sb buf with
                 | Ok b => with_datsBatch kvb b
                 | Err _ => kvb
                 end in
      let kvb := grow kvb (sha1_Size + length buf) in
      if exists_ : bool then Ok kvb
      else indexDatGames sb kvb (Dat_Games dat)
  end.

(** The branch [len(dats) > 0] of [kvBatch.IndexRom]. The error of
    [kvb.sha1Batch.Set] is dropped by the code. *)
Definition indexRomKnown (db : kvStore) (kvb : kvBatch) (rom : Rom) : Res kvBatch :=
  ssd <-? Get (sha1DB db) (arg (Rom_Sha1 rom));
  if decide (length (arg ssd) = 0) then
    let sha1s : bytes := [] in
    sha1s <-? match Rom_Md5 rom with
              | Some m =>
                  ss <-? Get (md5DB db) m;
                  if decide (0 < length (arg ss))
                  then match appendUniqueSha1 sha1s (arg ss) with
                       | Some r => Ok r
                       | None => Err Panic
                       end
                  else Ok sha1s
              | None => Ok sha1s
              end;
    sha1s <-? match Rom_Crc rom with
              | Some c =>
                  ss <-? Get (crcDB db) c;
                  if decide (0 < length (arg ss))
                  then match appendUniqueSha1 sha1s (arg ss) with
                       | Some r => Ok r
                       | None => Err Panic
                       end
                  else Ok sha1s
              | None => Ok sha1s
              end;
    if decide (0 < length sha1s) then
      match BatchSet (sha1Batch kvb) (arg (Rom_Sha1 rom)) sha1s with
      | Ok b => Ok (with_sha1Batch kvb b)
      | Err _ => Ok kvb
      end
    else Ok kvb
  else Ok kvb.

(** The artificial Dat that [kvBatch.IndexRom] builds around a rom. *)
Definition artificialDat (db : kvStore) (rom : Rom) : Dat :=
  mkDat ("Artificial Dat for " ++ Rom_Name rom)%string "" (Rom_Path rom)
    (generation db) true [mkGame "" "" [rom]].

(** [kvBatch.IndexRom] *)
Definition kvBatch_IndexRom (db : kvStore) (kvb : kvBatch) (rom : Rom) : Res kvBatch :=
  kvb <-? match Rom_Sha1 rom with
          | Some rs =>
              kvb <-? match Rom_Crc rom with
                      | Some rc =>
                          b <-? BatchAppend (crcsha1Batch kvb) rc rs;
                          Ok (grow (with_crcsha1Batch kvb b) sha1_Size)
                      | None => Ok kvb
                      end;
              match Rom_Md5 rom with
              | Some rm =>
                  b <-? BatchAppend (md5sha1Batch kvb) rm rs;
                  Ok (grow (with_md5sha1Batch kvb b) sha1_Size)
              | None => Ok kvb
              end
          | None => Ok kvb
          end;
  dats <-? DatsForRom db rom;
  if decide (0 < length dats) then indexRomKnown db kvb rom
  else
    let dat := artificialDat db rom in
    buf <-? gobEncode dat;
    kvBatch_IndexDat db kvb dat (Some (sha1Sum buf)).

(** [kvStore.IndexRom]: the new state of the store and the error returned. *)
Definition kvStore_IndexRom (db : kvStore) (rom : Rom) : kvStore * option error :=
  match kvBatch_IndexRom db (StartBatch db) rom with
  | Err e => (db, Some e)
  | Ok batch => Close db batch
  end.

(** [kvStore.IndexDat] *)
Definition kvStore_IndexDat (db : kvStore) (dat : Dat) (sha1Bytes : option bytes)
  : kvStore * option error :=
  match kvBatch_IndexDat db (StartBatch db) dat sha1Bytes with
  | Err e => (db, Some e)
  | Ok batch => Close db batch
  end.

(** [rom.Sha1 = sha1] *)
Definition with_Sha1 (rom : Rom) (sha1 : bytes) : Rom :=
  mkRom (Rom_Name rom) (Rom_Size rom) (Rom_Crc rom) (Rom_Md5 rom) (Some sha1)
    (Rom_Path rom).

(** [kvStore.CompleteRom]: the rom as the call leaves it. *)
Definition CompleteRom (db : kvStore) (rom : Rom) : Res Rom :=
  match Rom_Sha1 rom with
  | Some _ => Ok rom
  | None =>
      match Rom_Md5 rom with
      | Some m =>
          dBytes <-? Get (md5sha1DB db) m;
          if decide (sha1_Size ≤ length (arg dBytes))
          then Ok (with_Sha1 rom (take sha1_Size (arg dBytes)))
          else Ok rom
      | None =>
          match Rom_Crc rom with
          | Some c =>
              dBytes <-? Get (crcsha1DB db) c;
              if decide (sha1_Size ≤ length (arg dBytes))
              then Ok (with_Sha1 rom (take sha1_Size (arg dBytes)))
              else Ok rom
          | None => Ok rom
          end
      end
  end.

(** [dbSha1Append]: the batch as the call leaves it. The loop over [vBytes]
    is the inner loop of [appendUniqueSha1]; the error of [batch.Set] is
    dropped by the code. *)
Definition dbSha1Append (st : KVStore) (batch : KVBatch) (key : option bytes)
    (sha1Bytes : bytes) : Res KVBatch :=
  match key with
  | None => Ok batch
  | Some k =>
      match Get st k with
      | Err _ => Err (ErrIO "failed to lookup in dbSha1Append")
      | Ok vBytes =>
          match findSha1 (trips (length (arg vBytes))) 0 (arg vBytes) sha1Bytes with
          | None => Err Panic
          | Some true => Ok batch
          | Some false =>
              match BatchSet batch k (arg vBytes ++ sha1Bytes) with
              | Ok b => Ok b
              | Err _ => Ok batch
              end
          end
      end
  end.

(** [kvStore.OrphanDats]: the store afterwards and the error returned.
    [WriteGenerationFile] is a helper of the package that writes the
    generation next to the stores. *)
Definition OrphanDats (WriteGenerationFile : string → Z → option error) (db : kvStore)
  : kvStore * option error :=
  let db := mkKvStore (add64 (generation db) 1) (datsDB db) (crcDB db) (md5DB db)
              (sha1DB db) (crcsha1DB db) (md5sha1DB db) (path db) in
  (db, WriteGenerationFile (path db) (generation db)).

(** [kvStore.Generation] *)
Definition Generation (db : kvStore) : Z := generation db.

End index.

End db.

(** ** archive/depot.go *)

Module archive.
Import db.

(** [encoding/hex.EncodeToString]: two lower-case digits per byte. *)
Definition hexDigit (n : N) : ascii :=
  match String.get (N.to_nat n) "0123456789abcdef" with
  | Some c => c
  | None => "0"%char
  end.

Fixpoint EncodeToString (b : bytes) : string :=
  match b with
  | [] => EmptyString
  | x :: b' =>
      let n := Byte.to_N x in
      String (hexDigit (n / 16)) (String (hexDigit (n `mod` 16)) (EncodeToString b'))
  end.

(** Modelled from the spec: the constant [gzipSuffix] is declared in another
    file of the package; section 6 names the blobs [<sha1>.gz]. *)
Definition gzipSuffix : string := ".gz".

(** Modelled from the spec: [pathFromSha1HexEncoding] is missing. Section 4.2:
    [path_for(root, sha1_hex, suffix)] is [root/AB/CD/EF/GH/<full_hex><suffix>],
    the four directories being the first four pairs of hex digits. *)
Definition pathFromSha1HexEncoding (root sha1Hex suffix : string) : string :=
  root ++ "/" ++ substring 0 2 sha1Hex ++ "/" ++ substring 2 2 sha1Hex
       ++ "/" ++ substring 4 2 sha1Hex ++ "/" ++ substring 6 2 sha1Hex
       ++ "/" ++ sha1Hex ++ suffix.

(** [archive.Hashes]: the three digests of a payload. *)
Record Hashes : Type := mkHashes {
  Hashes_Crc : bytes;
  Hashes_Md5 : bytes;
  Hashes_Sha1 : bytes
}.

(** The file system and the helpers of the package that touch it
    ([PathExists], [HashesForGZFile], the hash computer [Hashes.forReader],
    the blob writer [archive] and [writeSizeFile]) are collaborators: the
    depot is stated for any behaviour of theirs. [File] stands for an open
    [io.ReadCloser]. *)
Class OS : Type := {
  FS : Type;
  File : Type;
  PathExists : FS → string → Res bool;
  osOpen : FS → string → Res File;
  HashesForGZFile : FS → string → Res Hashes;
  forReader : File → Res Hashes;
  closeFile : File → option error;
  archiveGZ : FS → string → File → bytes → FS * Res Z;
  writeSizeFile : FS → string → Z → FS * option error
}.

(** [Depot]; the mutex is left out, every function below runs as one step. *)
Record Depot : Type := mkDepot {
  roots : list string;
  sizes : list Z;
  maxSizes : list Z;
  romDB : kvStore;
  start : Z
}.

Definition with_sizes (d : Depot) (s : list Z) : Depot :=
  mkDepot (roots d) s (maxSizes d) (romDB d) (start d).
Definition with_start (d : Depot) (i : Z) : Depot :=
  mkDepot (roots d) (sizes d) (maxSizes d) (romDB d) i.
Definition with_romDB (d : Depot) (db : kvStore) : Depot :=
  mkDepot (roots d) (sizes d) (maxSizes d) db (start d).

(** [l[i]] for an [int] index; [None] is the index-out-of-range panic. *)
Definition index {A} (l : list A) (i : Z) : option A :=
  if decide (0 ≤ i)%Z then l !! Z.to_nat i else None.

(** The loop of [reserveRoot]: [for i := depot.start; i < len(depot.roots); i++]
    with [n] iterations left and the loop variable at [i]. *)
Fixpoint reserveLoop (n : nat) (i : Z) (depot : Depot) (size : Z) : Depot * Res Z :=
  match n with
  | 0 =>
      (* the log lines after the loop read maxSizes[k] and sizes[k] for every root *)
      if decide (length (roots depot) ≤ length (sizes depot)
                 ∧ length (roots depot) ≤ length (maxSizes depot))
      then (depot, Err ErrOutOfSpace)
      else (depot, Err Panic)
  | S n' =>
      match index (sizes depot) i, index (maxSizes depot) i with
      | Some s, Some m =>
          if decide (add64 s size < m)%Z then
            (with_sizes depot (<[Z.to_nat i := add64 s size]> (sizes depot)), Ok i)
          else if decide (s >= m)%Z then
            reserveLoop n' (i + 1) (with_start depot i) size
          else
            reserveLoop n' (i + 1) depot size
      | _, _ => (depot, Err Panic)
      end
  end.

(** [Depot.reserveRoot] *)
Definition reserveRoot (depot : Depot) (size : Z) : Depot * Res Z :=
  reserveLoop (Z.to_nat (Z.of_nat (length (roots depot)) - start depot))
    (start depot) depot size.

(** [Depot.adjustSize] *)
Definition adjustSize (depot : Depot) (idx : Z) (delta : Z) : Res Depot :=
  match index (sizes depot) idx with
  | Some s => Ok (with_sizes depot (<[Z.to_nat idx := add64 s delta]> (sizes depot)))
  | None => Err Panic
  end.

Section depot.
Context {codec : Codec} {os : OS}.

(** [Depot.SHA1InDepot]: the loop over [depot.roots]. *)
Fixpoint sha1InRoots (fs : FS) (rs : list string) (sha1Hex : string) : Res bool :=
  match rs with
  | [] => Ok false
  | root :: rs' =>
      let rompath := pathFromSha1HexEncoding root sha1Hex gzipSuffix in
      exists_ <-? PathExists fs rompath;
      if exists_ : bool then Ok true else sha1InRoots fs rs' sha1Hex
  end.

Definition SHA1InDepot (depot : Depot) (fs : FS) (sha1Hex : string) : Res bool :=
  sha1InRoots fs (roots depot) sha1Hex.

(** [os.Open(rompath)] returned as the result of [OpenRomGZ]. *)
Definition openResult (fs : FS) (rompath : string) : Res (option File) :=
  match osOpen fs rompath with
  | Ok f => Ok (Some f)
  | Err e => Err e
  end.

(** [OpenRomGZ], a single digest: the loop over the roots. *)
Fixpoint openFirst (fs : FS) (rs : list string) (sha1Hex : string) : Res (option File) :=
  match rs with
  | [] => Ok None
  | root :: rs' =>
      let rompath := pathFromSha1HexEncoding root sha1Hex gzipSuffix in
      exists_ <-? PathExists fs rompath;
      if exists_ : bool then openResult fs rompath else openFirst fs rs' sha1Hex
  end.

(** [OpenRomGZ], a collision set: the loop over the roots for one candidate.
    [Ok None] means that the loop ended without a [return]. *)
Fixpoint openMatching (fs : FS) (rom : Rom) (rs : list string) (sha1Hex : string)
  : Res (option File) :=
  match rs with
  | [] => Ok None
  | root :: rs' =>
      let rompath := pathFromSha1HexEncoding root sha1Hex gzipSuffix in
      exists_ <-? PathExists fs rompath;
      if exists_ : bool then
        if bool_decide (Rom_Crc rom ≠ None ∨ Rom_Md5 rom ≠ None) then
          hh <-? HashesForGZFile fs rompath;
          if bool_decide (Rom_Md5 rom ≠ None ∧ arg (Rom_Md5 rom) = Hashes_Md5 hh)
          then openResult fs rompath
          else if bool_decide (Rom_Crc rom ≠ None ∧ arg (Rom_Crc rom) = Hashes_Crc hh)
          then openResult fs rompath
          else openMatching fs rom rs' sha1Hex
        else openResult fs rompath
      else openMatching fs rom rs' sha1Hex
  end.

(** [OpenRomGZ], a collision set: [for i := 0; i < len(rom.Sha1); i += sha1.Size]
    with [n] iterations left and the loop variable at [i]. *)
Fixpoint openCandidates (fs : FS) (depot : Depot) (rom : Rom) (sha1 : bytes) (n i : nat)
  : Res (option File) :=
  match n with
  | 0 => Ok None
  | S n' =>
      match slice sha1 i (i + sha1_Size) with
      | None => Err Panic
      | Some c =>
          r <-? openMatching fs rom (roots depot) (EncodeToString c);
          match r with
          | Some f => Ok (Some f)
          | None => openCandidates fs depot rom sha1 n' (i + sha1_Size)
          end
      end
  end.

(** [Depot.OpenRomGZ]; [Ok None] is the result [nil, nil]. *)
Definition OpenRomGZ (depot : Depot) (fs : FS) (rom : Rom) : Res (option File) :=
  match Rom_Sha1 rom with
  | None => Err ErrMissingSha1
  | Some sha1 =>
      if decide (length sha1 = sha1_Size)
      then openFirst fs (roots depot) (EncodeToString sha1)
      else openCandidates fs depot rom sha1 (trips (length sha1)) 0
  end.

(** [Depot.writeSizes]: one size file per root; a failed write is logged and
    the loop goes on. *)
Fixpoint writeSizesFrom (fs : FS) (rs : list string) (szs : list Z) (k : nat) : Res FS :=
  match rs with
  | [] => Ok fs
  | root :: rs' =>
      match szs !! k with
      | None => Err Panic
      | Some s => writeSizesFrom (fst (writeSizeFile fs root s)) rs' szs (S k)
      end
  end.

Definition writeSizes (depot : Depot) (fs : FS) : Res FS :=
  writeSizesFrom fs (roots depot) (sizes depot) 0.

(** *** The archive worker *)

(** The calls a worker makes on the index and on the depot, in order. *)
Inductive Call : Type :=
  | CallDatsForRom (rom : Rom)
  | CallIndexRom (rom : Rom)
  | CallSHA1InDepot (sha1Hex : string)
  | CallReserveRoot (size : Z)
  | CallArchiveGZ (outpath : string)
  | CallAdjustSize (root : Z) (delta : Z).

(** What a worker acts on: the depot with its index, the file system, and the
    record of the calls made so far. *)
Record World : Type := mkWorld {
  depot : Depot;
  fs : FS;
  calls : list Call
}.

Definition called (w : World) (c : Call) : World :=
  mkWorld (depot w) (fs w) (calls w ++ [c]).
Definition with_depot (w : World) (d : Depot) : World :=
  mkWorld d (fs w) (calls w).
Definition with_fs (w : World) (f : FS) : World :=
  mkWorld (depot w) f (calls w).

(** The fields of [archiveWorker] that [archive] writes. *)
Record archiveWorker : Type := mkWorker {
  hh : Hashes;
  md5crcBuffer : bytes
}.

(** [copy(dst, src)]: the new content of [dst]. *)
Definition copy (dst src : bytes) : bytes :=
  take (length dst) src ++ drop (length src) dst.

(** [make([]byte, n)] *)
Definition make (n : nat) : bytes := replicate n Byte.x00.

Definition md5_Size : nat := 16.
Definition crc32_Size : nat := 4.

(** The rom that [archive] builds from the digests of the payload. *)
Definition hashedRom (hh : Hashes) (name path : string) (size : Z) : Rom :=
  mkRom name size
    (Some (copy (make crc32_Size) (Hashes_Crc hh)))
    (Some (copy (make md5_Size) (Hashes_Md5 hh)))
    (Some (copy (make sha1_Size) (Hashes_Sha1 hh)))
    path.

(** [func() (io.ReadCloser, error)] *)
Definition readerOpener : Type := FS → Res File.

(** [archiveWorker.archive] with [w.pm.onlyneeded] as an argument: the world
    and the worker afterwards, and the result. *)
Definition archive (onlyneeded : bool) (w : archiveWorker) (wd : World)
    (ro : readerOpener) (name path : string) (size : Z)
  : World * archiveWorker * Res Z :=
  match ro (fs wd) with
  | Err e => (wd, w, Err e)
  | Ok r =>
  match forReader r with
  | Err e => (wd, w, Err e)       (* r.Close() first; its error is dropped *)
  | Ok hashes =>
  let w := mkWorker hashes (md5crcBuffer w) in
  match closeFile r with
  | Some e => (wd, w, Err e)
  | None =>
  if decide (length (md5crcBuffer w) < md5_Size) then (wd, w, Err Panic) else
  let w := mkWorker (hh w)
             (copy (take md5_Size (md5crcBuffer w)) (Hashes_Md5 (hh w))
              ++ copy (drop md5_Size (md5crcBuffer w)) (Hashes_Crc (hh w))) in
  let rom := hashedRom (hh w) name path size in
  let continue (wd : World) : World * archiveWorker * Res Z :=
    let wd := called wd (CallIndexRom rom) in
    let '(db', err) := kvStore_IndexRom (romDB (depot wd)) rom in
    let wd := with_depot wd (with_romDB (depot wd) db') in
    match err with
    | Some e => (wd, w, Err e)
    | None =>
    let sha1Hex := EncodeToString (Hashes_Sha1 (hh w)) in
    let wd := called wd (CallSHA1InDepot sha1Hex) in
    match SHA1InDepot (depot wd) (fs wd) sha1Hex with
    | Err e => (wd, w, Err e)
    | Ok true => (wd, w, Ok 0%Z)
    | Ok false =>
    let estimatedCompressedSize := (size ÷ 5)%Z in
    let wd := called wd (CallReserveRoot estimatedCompressedSize) in
    let '(depot', res) := reserveRoot (depot wd) estimatedCompressedSize in
    let wd := with_depot wd depot' in
    match res with
    | Err e => (wd, w, Err e)
    | Ok root =>
    match index (roots (depot wd)) root with
    | None => (wd, w, Err Panic)
    | Some rootPath =>
    let outpath := pathFromSha1HexEncoding rootPath sha1Hex gzipSuffix in
    match ro (fs wd) with
    | Err e => (wd, w, Err e)
    | Ok r =>
    let wd := called wd (CallArchiveGZ outpath) in
    let '(fs', res) := archiveGZ (fs wd) outpath r (md5crcBuffer w) in
    let wd := with_fs wd fs' in
    match res with
    | Err e => (wd, w, Err e)
    | Ok compressedSize =>
    let delta := sub64 compressedSize estimatedCompressedSize in
    let wd := called wd (CallAdjustSize root delta) in
    match adjustSize (depot wd) root delta with
    | Err e => (wd, w, Err e)
    | Ok depot' => (with_depot wd depot', w, Ok compressedSize)
    end end end end end end end in
  if onlyneeded then
    let wd := called wd (CallDatsForRom rom) in
    match DatsForRom (romDB (depot wd)) rom with
    | Err e => (wd, w, Err e)
    | Ok dats =>
        (* needed: some dat of [dats] is not artificial *)
        let needed := existsb (λ dat, negb (Dat_Artificial dat)) dats in
        if negb needed then (wd, w, Ok 0%Z) else continue wd
    end
  else continue wd
  end end end.

(** *** The resume observer *)

(** [sort.Strings]: ascending in the byte-wise order of Go strings. *)
Definition sortStrings (l : list string) : list string :=
  merge_sort String.le l.

(** [fmt.Fprint] on operands that are all strings: they are written one
    after the other (a space is added only between operands when neither is
    a string). *)
Definition Fprint (operands : list string) : string :=
  String.concat "" operands.

Definition newline : string := String "010" EmptyString.

(** The observer: the array [comps], what has been written to
    [pm.resumeLogWriter], and the file system that holds the size files. *)
Record Observer : Type := mkObserver {
  comps : list string;
  resumeLog : string;
  obs_fs : FS
}.

(** [archiveMaster.writeResumeLogEntry]; [sort.Strings] sorts [comps] in
    place. *)
Definition writeResumeLogEntry (depot : Depot) (o : Observer) : Res Observer :=
  match comps o !! 0 with
  | None => Err Panic
  | Some c0 =>
      if decide (c0 ≠ "") then
        let comps' := sortStrings (comps o) in
        match comps' !! 0 with
        | None => Err Panic
        | Some c0' =>
            let log' := (resumeLog o ++ Fprint [("%s" ++ newline)%string; c0'])%string in
            fs' <-? writeSizes depot (obs_fs o);
            Ok (mkObserver comps' log' fs')
        end
      else Ok o
  end.

(** What [loopObserver] waits for in its [select]. *)
Inductive ObserverEvent : Type :=
  | Completed (path : string) (workerIndex : Z)
  | Tick.

(** One iteration of the loop of [archiveMaster.loopObserver]. *)
Definition observerStep (depot : Depot) (o : Observer) (ev : ObserverEvent) : Res Observer :=
  match ev with
  | Completed path workerIndex =>
      if decide (workerIndex = -1)%Z then writeResumeLogEntry depot o
      else match index (comps o) workerIndex with
           | None => Err Panic
           | Some _ =>
               Ok (mkObserver (<[Z.to_nat workerIndex := path]> (comps o))
                     (resumeLog o) (obs_fs o))
           end
  | Tick => writeResumeLogEntry depot o
  end.

(** The start of [loopObserver]: [comps := make([]string, pm.numWorkers)]. *)
Definition newObserver (numWorkers : nat) (fs : FS) : Observer :=
  mkObserver (replicate numWorkers "") "" fs.

(** The loop of [loopObserver] over the events it receives, in order. The
    [break] after the sentinel record leaves the [select], not the loop. *)
Fixpoint runObserver (depot : Depot) (o : Observer) (evs : list ObserverEvent)
  : Res Observer :=
  match evs with
  | [] => Ok o
  | ev :: evs' => o' <-? observerStep depot o ev; runObserver depot o' evs'
  end.

(** *** Building the depot *)

(** [copy(dst, src)] for slices of any type: the new content of [dst]. *)
Definition copyInto {A} (dst src : list A) : list A :=
  take (length dst) src ++ drop (length src) dst.

(** The loop of [NewDepot] that asks [establishSize] for the size of every
    root; the first failure ends it. [establishSize] is a helper of the
    package that reads the disk. *)
Fixpoint establishSizes (establishSize : string → Res Z) (rs : list string)
  : Res (list Z) :=
  match rs with
  | [] => Ok []
  | root :: rs' =>
      size <-? establishSize root;
      rest <-? establishSizes establishSize rs';
      Ok (size :: rest)
  end.

(** [NewDepot]; [depot.sizes[k]] is set for every [k], so [depot.sizes] is
    the list of the sizes established. *)
Definition NewDepot (establishSize : string → Res Z) (rts : list string)
    (maxSize : list Z) (romDB : kvStore) : Res Depot :=
  let n := length rts in
  let depotRoots := copyInto (replicate n EmptyString) rts in
  let depotMax := copyInto (replicate n 0%Z) maxSize in
  szs <-? establishSizes establishSize depotRoots;
  Ok (mkDepot depotRoots szs depotMax romDB 0).

(** *** Resuming an archive run *)

(** [archiveMaster.Accept]: [path > pm.resumePath] compares byte-wise. *)
Definition Accept (resumePath path : string) : bool :=
  if decide (resumePath ≠ "") then String.ltb resumePath path else true.

(** The successive results of [reader.ReadString('\n')] that are not empty:
    the lines with their newline, and the rest after the last newline. [acc]
    is the line read so far. *)
Fixpoint readStrings (acc s : string) : list string :=
  match s with
  | EmptyString => if decide (acc = "") then [] else [acc]
  | String c s' =>
      if decide (c = "010"%char)
      then (acc ++ String c EmptyString)%string :: readStrings "" s'
      else readStrings (acc ++ String c EmptyString)%string s'
  end.

(** A [container/ring]: the elements from the current one on; [None] is an
    element whose [Value] is [nil]. [ring.New(n)] for [n <= 0] is the [nil]
    ring, the empty list here. *)
Definition ringNew (n : Z) : list (option string) := replicate (Z.to_nat n) None.

(** [rng.Value = line; rng = rng.Next()]; on the [nil] ring the assignment
    is a panic. *)
Definition ringPut (rng : list (option string)) (line : string)
  : option (list (option string)) :=
  match rng with
  | [] => None
  | _ :: rest => Some (rest ++ [Some line])
  end.

Fixpoint ringPutAll (rng : list (option string)) (ls : list string)
  : option (list (option string)) :=
  match ls with
  | [] => Some rng
  | line :: ls' =>
      match ringPut rng line with
      | None => None
      | Some rng' => ringPutAll rng' ls'
      end
  end.

(** [rng.Do] with the function of [extractResumePoint]: [v.(string)] panics
    on an element that was never set; a line that is not empty goes to
    [lines[lineCursor]]. *)
Fixpoint ringDo (rng : list (option string)) (lines : list string) (lineCursor : nat)
  : option (list string) :=
  match rng with
  | [] => Some lines
  | None :: _ => None
  | Some line :: rest =>
      if decide (0 < String.length line)
      then if decide (lineCursor < length lines)
           then ringDo rest (<[lineCursor := line]> lines) (S lineCursor)
           else None
      else ringDo rest lines lineCursor
  end.

(** The last [min(10240, size)] bytes of the file. *)
Definition lastBytes (content : string) : string :=
  let bufSize := Nat.min (Z.to_nat 10240) (String.length content) in
  substring (String.length content - bufSize) bufSize content.

(** [extractResumePoint]. [file] is the content of the file at [resumePath],
    or the error of opening, sizing or reading it. *)
Definition extractResumePoint (file : Res string) (numWorkers : Z) : Res string :=
  content <-? file;
  let ls := readStrings "" (lastBytes content) in
  let numLines := length ls in
  match ringPutAll (ringNew numWorkers) ls with
  | None => Err Panic
  | Some rng =>
      if decide (numLines = 0)
      then Err (ErrIO "could not extract a resume point, file seems empty")
      else
        match ringDo rng (replicate numLines EmptyString) 0 with
        | None => Err Panic
        | Some lines =>
            match sortStrings lines !! 0 with
            | Some line => Ok line
            | None => Err Panic
            end
        end
  end.

(** *** Paths *)

(** The loop of [path/filepath.Ext], from the last byte of the path
    backwards: [rest] are the bytes not yet looked at, last first, and
    [suffix] the bytes behind them. *)
Fixpoint extScan (rest suffix : list ascii) : list ascii :=
  match rest with
  | [] => []
  | c :: rest' =>
      if decide (c = "/"%char) then []
      else if decide (c = "."%char) then c :: suffix
      else extScan rest' (c :: suffix)
  end.

(** [path/filepath.Ext] *)
Definition Ext (path : string) : string :=
  string_of_list_ascii (extScan (rev (list_ascii_of_string path)) []).

(** [stripExt] *)
Definition stripExt (path : string) : string :=
  substring 0 (String.length path - String.length (Ext path)) path.

(** [purgeMaster.Accept] *)
Definition purgeAccept (path : string) : bool :=
  bool_decide (Ext path = gzipSuffix).

(** *** Purging *)

(** The loop of [purgeWorker.Process] over the Dats of a blob: the values of
    [used] and [realDat] after it. *)
Fixpoint purgeScan (generation : Z) (dats : list Dat) (realDat : option Dat)
  : bool * option Dat :=
  match dats with
  | [] => (false, realDat)
  | dat :: dats' =>
      if negb (Dat_Artificial dat) && bool_decide (Dat_Generation dat = generation)
      then (true, realDat)
      else purgeScan generation dats'
             (if negb (Dat_Artificial dat) then Some dat else realDat)
  end.

(** The loop of [purgeWorker.Process] over the roots: the index of the first
    root that is a prefix of [inpath], or [-1]. *)
Fixpoint findRoot (rs : list string) (inpath : string) (i : Z) : Z :=
  match rs with
  | [] => (-1)%Z
  | depotRoot :: rs' =>
      if String.prefix depotRoot inpath then i else findRoot rs' inpath (i + 1)
  end.

(** The end of [purgeWorker.Process] after the blob is moved away:
    [adjustSize(index, -size)] when a root was found. *)
Definition purgeAccount (depot : Depot) (inpath : string) (size : Z) : Res Depot :=
  let idx := findRoot (roots depot) inpath 0 in
  if decide (idx ≠ -1)%Z then adjustSize depot idx (sub64 0 size) else Ok depot.

End depot.

(** *** Rebuilding games *)

(** Modelled from the spec: the constants [zipSuffix], [fixPrefix] and
    [datSuffix] are declared in another file of the package; section 4.6
    names the outputs [<game.name>.zip] and [fix_<dat.name>.dat]. *)
Definition zipSuffix : string := ".zip".
Definition fixPrefix : string := "fix_".
Definition datSuffix : string := ".dat".

(** What [BuildDat] and [buildGame] write with: creating the archive of a
    game ([os.Create] and [torrentzip.NewWriter]), adding the content of an
    open blob under a name ([cgzip.NewReader], [Create] and [io.Copy]),
    making the directory of the Dat, removing the archive of a game, writing
    the fix Dat ([os.Create] and [types.ComposeCompliantDat]), and
    [filepath.Join]. The files they write are not blobs of the depot. *)
Class Rebuilder `{OS} : Type := {
  createGame : string → option error;
  addRom : File → string → option error;
  mkdirDat : string → option error;
  removeGame : string → option error;
  writeFixDat : string → Dat → option error;
  joinPath : string → string → string
}.

Section rebuild.
Context {os : OS} {rb : Rebuilder}.

(** [fixGame.Roms = append(fixGame.Roms, rom)], after [fixGame] is made from
    the game when it is [nil]. *)
Definition addMissing (game : Game) (fixGame : option Game) (rom : Rom) : Game :=
  match fixGame with
  | None => mkGame (Game_Name game) (Game_Description game) [rom]
  | Some g => mkGame (Game_Name g) (Game_Description g) (Game_Roms g ++ [rom])
  end.

(** The loop of [buildGame] over [game.Roms]: [fixGame] and [foundRom] after
    it. *)
Fixpoint buildRoms (depot : Depot) (fs : FS) (game : Game) (roms : list Rom)
    (fixGame : option Game) (foundRom : bool) : Res (option Game * bool) :=
  match roms with
  | [] => Ok (fixGame, foundRom)
  | rom :: roms' =>
      match Rom_Sha1 rom with
      | None => buildRoms depot fs game roms' (Some (addMissing game fixGame rom)) foundRom
      | Some _ =>
          romGZ <-? OpenRomGZ depot fs rom;
          match romGZ with
          | None =>
              buildRoms depot fs game roms' (Some (addMissing game fixGame rom)) foundRom
          | Some f =>
              match addRom f (Rom_Name rom) with
              | Some e => Err e
              | None => buildRoms depot fs game roms' fixGame true
              end
          end
      end
  end.

(** [Depot.buildGame] *)
Definition buildGame (depot : Depot) (fs : FS) (game : Game) (gamePath : string)
  : Res (option Game * bool) :=
  match createGame gamePath with
  | Some e => Err e
  | None => buildRoms depot fs game (Game_Roms game) None false
  end.

(** [fixDat.Games = append(fixDat.Games, fixGame)], after [fixDat] is made
    from the Dat when it is [nil]. *)
Definition addFixGame (dat : Dat) (fixDat : option Dat) (fixGame : Game) : Dat :=
  match fixDat with
  | None => mkDat (Dat_Name dat) (Dat_Description dat) (Dat_Path dat) 0 false [fixGame]
  | Some d =>
      mkDat (Dat_Name d) (Dat_Description d) (Dat_Path d) (Dat_Generation d)
        (Dat_Artificial d) (Dat_Games d ++ [fixGame])
  end.

(** The loop of [BuildDat] over [dat.Games]: [fixDat] after it. *)
Fixpoint buildGames (depot : Depot) (fs : FS) (dat : Dat) (datPath : string)
    (games : list Game) (fixDat : option Dat) : Res (option Dat) :=
  match games with
  | [] => Ok fixDat
  | game :: games' =>
      let gamePath := joinPath datPath (Game_Name game ++ zipSuffix)%string in
      r <-? buildGame depot fs game gamePath;
      let fixDat := match r.1 with
                    | Some fixGame => Some (addFixGame dat fixDat fixGame)
                    | None => fixDat
                    end in
      if r.2 then buildGames depot fs dat datPath games' fixDat
      else match removeGame gamePath with
           | Some e => Err e
           | None => buildGames depot fs dat datPath games' fixDat
           end
  end.

(** [Depot.BuildDat] *)
Definition BuildDat (depot : Depot) (fs : FS) (dat : Dat) (outpath : string) : Res bool :=
  let datPath := joinPath outpath (Dat_Name dat) in
  match mkdirDat datPath with
  | Some e => Err e
  | None =>
      fixDat <-? buildGames depot fs dat datPath (Dat_Games dat) None;
      match fixDat with
      | Some fd =>
          let fixDatPath := joinPath outpath (fixPrefix ++ Dat_Name dat ++ datSuffix)%string in
          match writeFixDat fixDatPath fd with
          | Some e => Err e
          | None => Ok false
          end
      | None => Ok true
      end
  end.

End rebuild.

End archive.

(** ** Stand-ins for the collaborators, to run the model on examples *)

Module fixtures.
Import db archive.

(** A serializer that keeps the name and the artificial flag of a Dat and
    refuses the empty byte string. *)
Definition toyEncode (d : Dat) : Res bytes :=
  Ok ((if Dat_Artificial d then Byte.x01 else Byte.x00)
      :: list_byte_of_string (Dat_Name d)).

Definition toyDecode (b : bytes) : Res Dat :=
  match b with
  | [] => Err ErrDecode
  | flag :: name =>
      Ok (mkDat (string_of_list_byte name) "" "" 0
            (bool_decide (flag = Byte.x01)) [])
  end.

(** A 20-byte digest: the first 20 bytes, padded with zeros. *)
Definition toySum (b : bytes) : bytes := take 20 (b ++ replicate 20 Byte.x00).

#[global] Instance toyCodec : Codec.
Proof.
  refine {| gobEncode := toyEncode; gobDecode := toyDecode; sha1Sum := toySum |}.
  intros b. unfold toySum.
  rewrite length_take, length_app, length_replicate. lia.
Defined.

(** A file system that never fails: a path holds the digests of its payload;
    an open file is its path with these digests; a blob written by the depot
    takes one byte. *)
#[global] Instance toyOS : OS :=
  {| FS := gmap string Hashes;
     File := string * Hashes;
     PathExists := λ fs p, Ok (bool_decide (is_Some (fs !! p)));
     osOpen := λ fs p,
       match fs !! p with
       | Some h => Ok (p, h)
       | None => Err (ErrIO "no such file")
       end;
     HashesForGZFile := λ fs p,
       match fs !! p with
       | Some h => Ok h
       | None => Err (ErrIO "no such file")
       end;
     forReader := λ f, Ok (snd f);
     closeFile := λ _, None;
     archiveGZ := λ fs outpath r _, (<[outpath := snd r]> fs, Ok 1%Z);
     writeSizeFile := λ fs _ _, (fs, None) |}.

(** Digests made of one repeated byte. *)
Definition d20 (b : byte) : bytes := replicate 20 b.
Definition d16 (b : byte) : bytes := replicate 16 b.
Definition d4 (b : byte) : bytes := replicate 4 b.

(** An empty index with the key sizes of [NewKVStoreDB]. *)
Definition emptyDB : kvStore :=
  mkKvStore 0 (mkStore keySizeSha1 ∅) (mkStore keySizeCrc ∅)
    (mkStore keySizeMd5 ∅) (mkStore keySizeSha1 ∅) (mkStore keySizeCrc ∅)
    (mkStore keySizeMd5 ∅) "db".

(** The same file system, except that writing a blob fails. *)
Definition fullDiskOS : OS :=
  {| FS := gmap string Hashes;
     File := string * Hashes;
     PathExists := λ fs p, Ok (bool_decide (is_Some (fs !! p)));
     osOpen := λ fs p,
       match fs !! p with
       | Some h => Ok (p, h)
       | None => Err (ErrIO "no such file")
       end;
     HashesForGZFile := λ fs p,
       match fs !! p with
       | Some h => Ok h
       | None => Err (ErrIO "no such file")
       end;
     forReader := λ f, Ok (snd f);
     closeFile := λ _, None;
     archiveGZ := λ fs outpath r _, (fs, Err (ErrIO "no space left on device"));
     writeSizeFile := λ fs _ _, (fs, None) |}.

(** A rebuilder that never fails; paths are joined with a slash. *)
#[global] Instance toyRebuilder : Rebuilder (H := toyOS) :=
  {| createGame := λ _, None;
     addRom := λ _ _, None;
     mkdirDat := λ _, None;
     removeGame := λ _, None;
     writeFixDat := λ _ _, None;
     joinPath := λ a b, (a ++ "/" ++ b)%string |}.

(** Every root is found empty. *)
Definition toyEstablishSize (root : string) : Res Z := Ok 0%Z.

End fixtures.

(** * Notions used in the statements *)

Import db archive.

(** One step of the outer loop of [appendUniqueSha1], on the value and on its
    list of digests. *)
Definition unionStep (dst c : bytes) : bytes :=
  if bool_decide (c ∈ digests dst) then dst else dst ++ c.

Definition addUnique (ds : list bytes) (c : bytes) : list bytes :=
  if bool_decide (c ∈ ds) then ds else ds ++ [c].

(** The digests of [cs] that the loop appends to a value holding [ds]. *)
Fixpoint fresh (ds cs : list bytes) : list bytes :=
  match cs with
  | [] => []
  | c :: cs' =>
      if bool_decide (c ∈ ds) then fresh ds cs' else c :: fresh (ds ++ [c]) cs'
  end.

(** How often the digest [d] occurs in a list of digests. *)
Definition occurrences (d : bytes) (ds : list bytes) : nat :=
  length (filter (λ x, x = d) ds).

(** A root of the depot is full when its size has reached its maximum. *)
Definition full (d : Depot) (j : Z) : Prop :=
  ∃ s m, index (sizes d) j = Some s ∧ index (maxSizes d) j = Some m ∧ (s >= m)%Z.

(** The cursor of [d'] is ahead of the cursor of [d] and every root between
    the two is full. *)
Definition advancedPastFullRoots (d d' : Depot) : Prop :=
  (start d ≤ start d')%Z ∧ ∀ j, (start d ≤ j < start d')%Z → full d j.

(** Two roots for the examples: sizes and maxima are given, the cursor is at
    the first root. *)
Definition twoRoots (s0 s1 m0 m1 : Z) : Depot :=
  mkDepot ["/depot0"; "/depot1"] [s0; s1] [m0; m1] fixtures.emptyDB 0.

(** The lookup of one tier of [DatsForRom]: the store is asked only when the
    rom has the hash; [Ok None] is a tier without a value. *)
Definition tier (st : KVStore) (h : option bytes) : Res (option bytes) :=
  match h with
  | Some k => Get st k
  | None => Ok None
  end.

(** The first tier with a value wins; a failing lookup ends the search; the
    tiers after the winner are not looked at. *)
Fixpoint firstPresent (tiers : list (Res (option bytes))) : Res (option bytes) :=
  match tiers with
  | [] => Ok None
  | Err e :: _ => Err e
  | Ok (Some b) :: _ => Ok (Some b)
  | Ok None :: rest => firstPresent rest
  end.

(** Each digest dereferenced through [GetDat], in order: absent Dats are left
    out, the first failure is the result. *)
Fixpoint derefAll `{Codec} (db : kvStore) (ds : list bytes) : Res (list Dat) :=
  match ds with
  | [] => Ok []
  | d :: ds' =>
      dat <-? GetDat db d;
      rest <-? derefAll db ds';
      Ok (match dat with Some x => x :: rest | None => rest end)
  end.

(** The Dat that the [dats] map holds under a digest, read off the map and
    the decoder and not through [GetDat]: [get] on the [dats] store, no Dat
    when the key is absent, the decoding of the bytes stored otherwise; a
    key that the store refuses and bytes that do not decode give the
    error. *)
Definition storedDat `{Codec} (db : kvStore) (d : bytes) : Res (option Dat) :=
  match Get (datsDB db) d with
  | Err e => Err e
  | Ok None => Ok None
  | Ok (Some bs) =>
      match gobDecode bs with
      | Ok dat => Ok (Some dat)
      | Err e => Err e
      end
  end.

(** The Dats stored under the digests [ds], in the order of [ds]: a digest
    without an entry in the [dats] map contributes nothing, the first error
    is the result. *)
Fixpoint storedDats `{Codec} (db : kvStore) (ds : list bytes) : Res (list Dat) :=
  match ds with
  | [] => Ok []
  | d :: ds' =>
      match storedDat db d with
      | Err e => Err e
      | Ok o =>
          match storedDats db ds' with
          | Err e => Err e
          | Ok rest => Ok (match o with Some dat => dat :: rest | None => rest end)
          end
      end
  end.

(** An index whose [dats] map holds undecodable bytes under the key
    [d20 x07], and whose [sha1] map sends the rom digest [d20 x03] to that
    key. *)
Definition corruptDB : kvStore :=
  with_sha1DB
    (with_datsDB fixtures.emptyDB
       (mkStore keySizeSha1 {[ fixtures.d20 Byte.x07 := [] ]}))
    (mkStore keySizeSha1 {[ fixtures.d20 Byte.x03 := fixtures.d20 Byte.x07 ]}).

Definition romWithSha1 (sha1 : bytes) : Rom :=
  mkRom "rom" 1 None None (Some sha1) "".

(** The path that [SHA1InDepot] and [OpenRomGZ] probe for a digest under a
    root. *)
Definition blobPath (root : string) (sha1 : bytes) : string :=
  pathFromSha1HexEncoding root (EncodeToString sha1) gzipSuffix.

(** The trailer [hh] of a blob agrees with the MD5 or with the CRC of the
    rom. *)
Definition md5Match (rom : Rom) (hh : Hashes) : Prop :=
  Rom_Md5 rom ≠ None ∧ arg (Rom_Md5 rom) = Hashes_Md5 hh.
Definition crcMatch (rom : Rom) (hh : Hashes) : Prop :=
  Rom_Crc rom ≠ None ∧ arg (Rom_Crc rom) = Hashes_Crc hh.

(** A probe that [OpenRomGZ] passes over: no file at the path, or, for a rom
    with an MD5 or a CRC, a blob whose trailer agrees with neither. *)
Definition noMatch `{OS} (fs : FS) (rom : Rom) (rompath : string) : Prop :=
  PathExists fs rompath = Ok false
  ∨ ∃ hh, PathExists fs rompath = Ok true
          ∧ (Rom_Crc rom ≠ None ∨ Rom_Md5 rom ≠ None)
          ∧ HashesForGZFile fs rompath = Ok hh
          ∧ ¬ md5Match rom hh ∧ ¬ crcMatch rom hh.

(** A depot of one root for the examples. *)
Definition oneRoot : Depot := mkDepot ["/depot0"] [0%Z] [1000%Z] fixtures.emptyDB 0.

(** Two blobs under [oneRoot], for the digests [d20 x01] and [d20 x02]; the
    trailers are given. *)
Definition twoBlobs (h1 h2 : Hashes) : @FS fixtures.toyOS :=
  {[ blobPath "/depot0" (fixtures.d20 Byte.x01) := h1;
     blobPath "/depot0" (fixtures.d20 Byte.x02) := h2 ]}.

(** The trailers of the two blobs of the examples: the first has the MD5
    [d16 xa1] and the CRC [d4 xc0], the second the MD5 [d16 xa0] and the CRC
    [d4 xc2]. *)
Definition trailer1 : Hashes :=
  mkHashes (fixtures.d4 Byte.xc0) (fixtures.d16 Byte.xa1) (fixtures.d20 Byte.x01).
Definition trailer2 : Hashes :=
  mkHashes (fixtures.d4 Byte.xc2) (fixtures.d16 Byte.xa0) (fixtures.d20 Byte.x02).

(** A rom whose SHA1 is the collision set of [d20 x01] and [d20 x02]. *)
Definition collisionRom (crc md5 : option bytes) : Rom :=
  mkRom "rom" 1 crc md5 (Some (fixtures.d20 Byte.x01 ++ fixtures.d20 Byte.x02)) "".

(** A source file for the examples: the payload at [/in/a] with its three
    digests, next to an empty depot. *)
Definition payload : Hashes :=
  mkHashes (fixtures.d4 Byte.x0c) (fixtures.d16 Byte.x0d) (fixtures.d20 Byte.x0e).

Definition sourceFS : @FS fixtures.toyOS := {[ "/in/a" := payload ]}.

Definition freshWorld : World := mkWorld oneRoot sourceFS [].

Definition freshWorker : archiveWorker :=
  mkWorker (mkHashes [] [] []) (make (md5_Size + crc32_Size)).

Definition openSource : readerOpener (os := fixtures.toyOS) :=
  λ fs, osOpen fs "/in/a".

(** What the observer of one worker receives when the worker has completed
    [/in/a] and the minute is over. *)
Definition oneCompletion : list ObserverEvent := [Completed "/in/a" 0; Tick].

(** *** The invariant of the index *)

(** The digest [d] is a key of the [dats] map. *)
Definition inDats (db : kvStore) (d : bytes) : Prop :=
  is_Some (data (datsDB db) !! d).

(** The [dats] map is authoritative: every digest on a 20-byte boundary of a
    value of the [crc], [md5] or [sha1] map is a key of the [dats] map. *)
Definition unionMapsInDats (db : kvStore) : Prop :=
  ∀ st k v d,
    st ∈ [crcDB db; md5DB db; sha1DB db] →
    data st !! k = Some v → d ∈ digests v → inDats db d.

(** A value of a union-map is good for a set [D] of Dat keys: it is a
    concatenation of 20-byte digests, all of them in [D]. *)
Definition good (D : bytes → Prop) (v : bytes) : Prop :=
  digest_aligned v ∧ ∀ d, d ∈ digests v → D d.

Definition storeGood (D : bytes → Prop) (st : KVStore) : Prop :=
  ∀ k v, data st !! k = Some v → good D v.

(** The key sizes that [NewKVStoreDB] opens the six stores with. *)
Definition openedAsNew (db : kvStore) : Prop :=
  keySize (datsDB db) = keySizeSha1 ∧ keySize (crcDB db) = keySizeCrc
  ∧ keySize (md5DB db) = keySizeMd5 ∧ keySize (sha1DB db) = keySizeSha1
  ∧ keySize (crcsha1DB db) = keySizeCrc ∧ keySize (md5sha1DB db) = keySizeMd5.

(** The invariant: the stores have their key sizes, and the values of the
    three maps from a hash to Dats are good for the keys of [dats]. *)
Definition indexInvariant (db : kvStore) : Prop :=
  openedAsNew db
  ∧ storeGood (inDats db) (crcDB db)
  ∧ storeGood (inDats db) (md5DB db)
  ∧ storeGood (inDats db) (sha1DB db).

(** The two index operations. The digest of a Dat is [sha1.Size] bytes
    long. *)
Inductive IndexOp : Type :=
  | DoIndexRom (rom : Rom)
  | DoIndexDat (dat : Dat) (sha1Bytes : bytes).

Definition wellFormedOp (op : IndexOp) : Prop :=
  match op with
  | DoIndexRom _ => True
  | DoIndexDat _ sha1Bytes => length sha1Bytes = sha1_Size
  end.

Definition runIndexOp `{Codec} (db : kvStore) (op : IndexOp) : kvStore * option error :=
  match op with
  | DoIndexRom rom => kvStore_IndexRom db rom
  | DoIndexDat dat sha1Bytes => kvStore_IndexDat db dat (Some sha1Bytes)
  end.

(** Index operations one after the other, each on the index that the one
    before has left, whatever it returned. *)
Definition runIndexOps `{Codec} (db : kvStore) (l : list IndexOp) : kvStore :=
  foldl (λ db op, (runIndexOp db op).1) db l.

(** What an operation of a batch may be, for a set [D] of Dat keys. *)
Definition opGood (D : bytes → Prop) (op : BatchOp) : Prop :=
  match op with
  | OpSet _ v => good D v
  | OpAppend _ v => good D v
  | OpDelete _ => True
  end.

Definition isSet (op : BatchOp) : Prop :=
  match op with
  | OpSet _ _ => True
  | _ => False
  end.

(** The keys of [dats] once the batch is written. *)
Definition covered (db : kvStore) (kvb : kvBatch) (d : bytes) : Prop :=
  inDats db d ∨ ∃ v, OpSet d v ∈ ops (datsBatch kvb).

(** A batch under construction: its [dats] part only sets values and goes
    to the [dats] store; its [crc], [md5] and [sha1] parts only carry values
    that are good for the keys of [dats] once the batch is written. *)
Definition batchGood (db : kvStore) (kvb : kvBatch) : Prop :=
  batchKeySize (datsBatch kvb) = keySize (datsDB db)
  ∧ Forall isSet (ops (datsBatch kvb))
  ∧ Forall (opGood (covered db kvb)) (ops (crcBatch kvb))
  ∧ Forall (opGood (covered db kvb)) (ops (md5Batch kvb))
  ∧ Forall (opGood (covered db kvb)) (ops (sha1Batch kvb)).

(** A batch that is good and whose [dats] part covers the digest [sb]. *)
Definition ready (db : kvStore) (sb : bytes) (kvb : kvBatch) : Prop :=
  batchGood db kvb ∧ covered db kvb sb.

(** A Dat of one game with one rom that has all three hashes, and its
    digest, for the examples. *)
Definition sampleDat : Dat :=
  mkDat "sample" "" "/dats/sample.dat" 0 false
    [mkGame "game" ""
       [mkRom "rom" 12 (Some (fixtures.d4 Byte.x0c)) (Some (fixtures.d16 Byte.x0d))
          (Some (fixtures.d20 Byte.x0e)) ""]].

Definition sampleOp : IndexOp := DoIndexDat sampleDat (fixtures.d20 Byte.x09).

(** *** The depot *)

(** The three arrays of a depot have one entry per root and the cursor is
    an index of a root or the number of roots. *)
Definition depotWf (d : Depot) : Prop :=
  length (sizes d) = length (roots d)
  ∧ length (maxSizes d) = length (roots d)
  ∧ (0 ≤ start d ≤ Z.of_nat (length (roots d)))%Z.

(** Root [j] has room for [size] more bytes, as [reserveRoot] tests it. *)
Definition fits (d : Depot) (size j : Z) : Prop :=
  ∃ s m, index (sizes d) j = Some s ∧ index (maxSizes d) j = Some m
         ∧ (add64 s size < m)%Z.

(** The content of [w.md5crcBuffer] after the two [copy] calls of
    [archive]. *)
Definition filledBuffer (buf : bytes) (hashes : Hashes) : bytes :=
  copy (take md5_Size buf) (Hashes_Md5 hashes)
  ++ copy (drop md5_Size buf) (Hashes_Crc hashes).

(** The source file of the examples next to a depot that holds the blob of
    its payload already. *)
Definition knownFS : @FS fixtures.toyOS :=
  {[ "/in/a" := payload; blobPath "/depot0" (Hashes_Sha1 payload) := payload ]}.

Definition knownWorld : World := mkWorld oneRoot knownFS [].

(** The rom that [archive] makes of the source file of the examples, and
    the index after [IndexRom] of it on the empty index. *)
Definition sourceRom : Rom := hashedRom payload "a" "/in/a" 12.

Definition sourceIndexed : kvStore := (kvStore_IndexRom fixtures.emptyDB sourceRom).1.

(** The world of the examples on a disk where writing a blob fails. *)
Definition fullDiskWorld : World (os := fixtures.fullDiskOS) :=
  mkWorld (os := fixtures.fullDiskOS) oneRoot sourceFS [].

Definition openSourceOnFullDisk : readerOpener (os := fixtures.fullDiskOS) :=
  λ fs, osOpen (OS := fixtures.fullDiskOS) fs "/in/a".

(** *** Rebuilding *)

(** A rom that [buildGame] cannot add to the archive of a game: it has no
    SHA1, or [OpenRomGZ] finds no blob for it. *)
Definition isMissing `{OS} (depot : Depot) (fs : FS) (rom : Rom) : bool :=
  match Rom_Sha1 rom with
  | None => true
  | Some _ =>
      match OpenRomGZ depot fs rom with
      | Ok None => true
      | _ => false
      end
  end.

(** The roms of a game that are missing, in the order of the game. *)
Definition missingRoms `{OS} (depot : Depot) (fs : FS) (game : Game) : list Rom :=
  filter (λ rom, isMissing depot fs rom = true) (Game_Roms game).

(** A game of two roms for the examples: the first is the payload of the
    examples, the second has no blob in the depot. *)
Definition absentRom : Rom := romWithSha1 (fixtures.d20 Byte.x02).

Definition halfGame : Game := mkGame "game" "" [sourceRom; absentRom].

(** *** Round trips through the index *)

(** An operation of a batch that appends the value [v] under some key. *)
Definition appendsOf (v : bytes) (op : BatchOp) : Prop :=
  ∃ k, op = OpAppend k v.

(** The inner loop of [appendUniqueSha1] finds the digest [v] in the value
    [r]. *)
Definition holds (r v : bytes) : Prop :=
  findSha1 (trips (length r)) 0 r v = Some true.

(** A batch on which nothing is queued yet for the [dats] and the [sha1]
    map. *)
Definition freshFor (db : kvStore) (kvb : kvBatch) : Prop :=
  datsBatch kvb = StoreStartBatch (datsDB db)
  ∧ sha1Batch kvb = StoreStartBatch (sha1DB db).

(** The rom as a lookup of it by its other hashes is made: [rom.Sha1] is
    [nil]. *)
Definition without_Sha1 (rom : Rom) : Rom :=
  mkRom (Rom_Name rom) (Rom_Size rom) (Rom_Crc rom) (Rom_Md5 rom) None (Rom_Path rom).

(** The digest and the encoding of the Dat of the examples, and the empty
    index after [IndexDat] of it. *)
Definition sampleDigest : bytes := fixtures.d20 Byte.x09.

Definition sampleBuf : bytes := Byte.x00 :: list_byte_of_string "sample".

Definition sampleIndexed : kvStore :=
  (kvStore_IndexDat fixtures.emptyDB sampleDat (Some sampleDigest)).1.

(** The rom of the Dat of the examples, and what the serializer of the
    examples gives back for the Dat. *)
Definition sampleRom : Rom :=
  mkRom "rom" 12 (Some (fixtures.d4 Byte.x0c)) (Some (fixtures.d16 Byte.x0d))
    (Some (fixtures.d20 Byte.x0e)) "".

Definition sampleDecoded : Dat := mkDat "sample" "" "" 0 false [].

(** *** The resume log *)

(** What every entry of the resume log begins with: the first operand of
    the [Fprint] call. *)
Definition formatLine : string := ("%s" ++ newline)%string.

(** A resume log is empty or begins with an entry. *)
Definition startsWithFormat (log : string) : Prop :=
  log = "" ∨ ∃ rest, log = (formatLine ++ rest)%string.

(** * Properties *)

(** ** The union-append of 20-byte digests *)

Section union_append.

Local Ltac slia := unfold sha1_Size in *; lia.

Implicit Types (dst src s pre rest c d : bytes) (ds cs : list bytes).

Lemma slice_at pre rest :
  sha1_Size ≤ length rest →
  slice (pre ++ rest) (length pre) (length pre + sha1_Size) = Some (take sha1_Size rest).
Proof.
  intros Hlen. unfold slice. rewrite decide_True.
  - f_equal. rewrite drop_app_length. f_equal. slia.
  - rewrite length_app. slia.
Qed.

Lemma slice_short pre rest :
  length rest < sha1_Size →
  slice (pre ++ rest) (length pre) (length pre + sha1_Size) = None.
Proof.
  intros Hlen. unfold slice. rewrite decide_False; [done|].
  rewrite length_app. slia.
Qed.

Lemma trips_aligned s : digest_aligned s → trips (length s) = length s / sha1_Size.
Proof.
  unfold digest_aligned, trips, sha1_Size. intros Hal.
  pose proof (Nat.div_mod_eq (length s) 20) as Hq.
  rewrite Hal, Nat.add_0_r in Hq.
  set (q := length s / 20) in *. rewrite Hq.
  replace (20 * q + (20 - 1)) with (q * 20 + 19) by slia.
  rewrite Nat.div_add_l by slia. rewrite (Nat.div_small 19 20) by slia. slia.
Qed.

Lemma aligned_length s : digest_aligned s → length s = sha1_Size * (length s / sha1_Size).
Proof.
  unfold digest_aligned. intros Hal.
  pose proof (Nat.div_mod_eq (length s) sha1_Size). slia.
Qed.

Lemma aligned_app s c : digest_aligned s → length c = sha1_Size → digest_aligned (s ++ c).
Proof.
  unfold digest_aligned, sha1_Size. intros Hs Hc. rewrite length_app, Hc.
  rewrite <- Nat.Div0.add_mod_idemp_l, Hs. done.
Qed.

Lemma chunks_length n s c : c ∈ chunks n s → sha1_Size * n ≤ length s → length c = sha1_Size.
Proof.
  revert s. induction n as [|n IH]; intros s Hin Hlen; simpl in *.
  - by apply elem_of_nil in Hin.
  - apply elem_of_cons in Hin as [->|Hin].
    + rewrite length_take. slia.
    + apply (IH _ Hin). rewrite length_drop. slia.
Qed.

Lemma digests_length s c : c ∈ digests s → length c = sha1_Size.
Proof.
  intros Hin. apply (chunks_length _ _ _ Hin).
  pose proof (Nat.div_mod_eq (length s) sha1_Size). slia.
Qed.

Lemma chunks_app n m s e :
  length s = sha1_Size * n → chunks (n + m) (s ++ e) = chunks n s ++ chunks m e.
Proof.
  revert s. induction n as [|n IH]; intros s Hlen; simpl.
  - destruct s; [done | simpl in Hlen; slia].
  - rewrite take_app_le, drop_app_le by slia. f_equal.
    apply IH. rewrite length_drop. slia.
Qed.

Lemma digests_app s c :
  digest_aligned s → length c = sha1_Size → digests (s ++ c) = digests s ++ [c].
Proof.
  intros Hal Hc. unfold digests. rewrite length_app, Hc.
  pose proof (aligned_length s Hal) as Hlen.
  set (q := length s / sha1_Size) in *.
  replace ((length s + sha1_Size) / sha1_Size) with (q + 1).
  - rewrite chunks_app by done. f_equal. simpl.
    rewrite take_ge by slia. done.
  - rewrite Hlen. replace (sha1_Size * q + sha1_Size) with ((q + 1) * sha1_Size) by slia.
    by rewrite Nat.div_mul.
Qed.

(** The inner loop finds [c] exactly when it is one of the digests ahead. *)
Lemma findSha1_chunks n pre rest c :
  length rest = sha1_Size * n →
  findSha1 n (length pre) (pre ++ rest) c = Some (bool_decide (c ∈ chunks n rest)).
Proof.
  revert pre rest. induction n as [|n IH]; intros pre rest Hlen; simpl.
  - done.
  - rewrite slice_at by slia.
    destruct (decide (c = take sha1_Size rest)) as [->|Hne].
    + rewrite bool_decide_true; [done | apply elem_of_cons; by left].
    + rewrite <- (take_drop sha1_Size rest) at 1.
      rewrite (assoc_L (++)).
      replace (length pre + sha1_Size) with (length (pre ++ take sha1_Size rest))
        by (rewrite length_app, length_take; slia).
      rewrite IH by (rewrite length_drop; slia).
      f_equal. apply bool_decide_ext. rewrite elem_of_cons. tauto.
Qed.

Lemma findSha1_digests dst c :
  digest_aligned dst →
  findSha1 (trips (length dst)) 0 dst c = Some (bool_decide (c ∈ digests dst)).
Proof.
  intros Hal. rewrite trips_aligned by done.
  apply (findSha1_chunks _ [] dst c). by apply aligned_length.
Qed.

Lemma unionStep_aligned dst c :
  digest_aligned dst → length c = sha1_Size → digest_aligned (unionStep dst c).
Proof.
  intros Hal Hc. unfold unionStep. case_bool_decide; [done | by apply aligned_app].
Qed.

Lemma unionStep_digests dst c :
  digest_aligned dst → length c = sha1_Size →
  digests (unionStep dst c) = addUnique (digests dst) c.
Proof.
  intros Hal Hc. unfold unionStep, addUnique.
  case_bool_decide; [done | by apply digests_app].
Qed.

(** The outer loop folds [unionStep] over the digests ahead. *)
Lemma appendLoop_chunks n pre rest dst :
  digest_aligned dst → length rest = sha1_Size * n →
  appendLoop n (length pre) dst (pre ++ rest) = Some (foldl unionStep dst (chunks n rest)).
Proof.
  revert pre rest dst. induction n as [|n IH]; intros pre rest dst Hal Hlen; simpl.
  - done.
  - rewrite slice_at by slia. rewrite findSha1_digests by done.
    assert (length (take sha1_Size rest) = sha1_Size) as Hc
      by (rewrite length_take; slia).
    replace (if bool_decide (take sha1_Size rest ∈ digests dst) then dst
             else dst ++ take sha1_Size rest)
      with (unionStep dst (take sha1_Size rest)) by done.
    replace (pre ++ rest) with ((pre ++ take sha1_Size rest) ++ drop sha1_Size rest)
      by (by rewrite <- (assoc_L (++)), take_drop).
    replace (length pre + sha1_Size) with (length (pre ++ take sha1_Size rest))
      by (rewrite length_app; slia).
    apply IH; [by apply unionStep_aligned | rewrite length_drop; slia].
Qed.

Lemma appendUniqueSha1_fold dst src :
  digest_aligned dst → digest_aligned src →
  appendUniqueSha1 dst src = Some (foldl unionStep dst (digests src)).
Proof.
  intros Hd Hs. unfold appendUniqueSha1, digests. rewrite trips_aligned by done.
  apply (appendLoop_chunks _ [] src dst Hd). by apply aligned_length.
Qed.

Lemma fold_unionStep dst cs :
  digest_aligned dst → Forall (λ c, length c = sha1_Size) cs →
  foldl unionStep dst cs = dst ++ mjoin (fresh (digests dst) cs)
  ∧ digest_aligned (foldl unionStep dst cs)
  ∧ digests (foldl unionStep dst cs) = digests dst ++ fresh (digests dst) cs.
Proof.
  intros Hal Hcs. revert dst Hal.
  induction Hcs as [|c cs Hc Hcs IH]; intros dst Hal; simpl.
  - by rewrite !app_nil_r.
  - destruct (decide (c ∈ digests dst)) as [Hin|Hin].
    + assert (unionStep dst c = dst) as ->
        by (unfold unionStep; by rewrite bool_decide_true).
      rewrite bool_decide_true by done. by apply IH.
    + assert (unionStep dst c = dst ++ c) as ->
        by (unfold unionStep; by rewrite bool_decide_false).
      rewrite bool_decide_false by done.
      destruct (IH (dst ++ c) (aligned_app _ _ Hal Hc)) as (E1 & E2 & E3).
      rewrite digests_app in E1, E3 by done.
      split_and!; [rewrite E1 | done | rewrite E3]; simpl;
        by rewrite <- (assoc_L (++)).
Qed.

Lemma fresh_elem ds cs d : d ∈ fresh ds cs ↔ d ∈ cs ∧ d ∉ ds.
Proof.
  revert ds. induction cs as [|c cs IH]; intros ds; simpl.
  - split; [by intros ?%elem_of_nil | by intros [?%elem_of_nil _]].
  - case_bool_decide as Hin.
    + rewrite IH, elem_of_cons. naive_solver.
    + rewrite !elem_of_cons, IH, elem_of_app, list_elem_of_singleton.
      split; [naive_solver|]. intros [[->|Hd] Hnd]; [by left|].
      destruct (decide (d = c)) as [->|Hne]; [by left | right]. naive_solver.
Qed.

Lemma fresh_NoDup ds cs : NoDup (fresh ds cs).
Proof.
  revert ds. induction cs as [|c cs IH]; intros ds; simpl; [constructor|].
  case_bool_decide; [done|]. constructor; [|done].
  rewrite fresh_elem, elem_of_app, list_elem_of_singleton. naive_solver.
Qed.

Lemma fresh_none ds cs : cs ⊆ ds → fresh ds cs = [].
Proof.
  intros Hsub. destruct (fresh ds cs) as [|d l] eqn:E; [done|].
  assert (d ∈ fresh ds cs) as Hd by (rewrite E; left).
  apply fresh_elem in Hd as [Hd Hnd]. by apply Hsub in Hd.
Qed.

(** The result of [appendUniqueSha1] on aligned values: [dst] followed by
    the fresh digests of [src]. *)
Lemma appendUniqueSha1_fresh dst src :
  digest_aligned dst → digest_aligned src →
  appendUniqueSha1 dst src = Some (dst ++ mjoin (fresh (digests dst) (digests src)))
  ∧ digest_aligned (dst ++ mjoin (fresh (digests dst) (digests src)))
  ∧ digests (dst ++ mjoin (fresh (digests dst) (digests src)))
    = digests dst ++ fresh (digests dst) (digests src).
Proof.
  intros Hd Hs.
  assert (Forall (λ c, length c = sha1_Size) (digests src)) as Hlen
    by (apply Forall_forall; intros c; apply digests_length).
  destruct (fold_unionStep dst (digests src) Hd Hlen) as (E1 & E2 & E3).
  rewrite appendUniqueSha1_fold by done. by rewrite <- E1.
Qed.

End union_append.

(** A result of the outer loop means that every chunk of [src] was there
    to read. *)
Lemma appendLoop_length (n i : nat) (dst src r : bytes) :
  appendLoop n i dst src = Some r → n = 0 ∨ i + sha1_Size * n ≤ length src.
Proof.
  revert i dst. induction n as [|n IH]; intros i dst; simpl; [by left|].
  unfold slice. case_decide as Hs; [|done].
  destruct (findSha1 _ 0 dst _) as [found|]; [|done].
  intros Hrun. right. destruct (IH _ _ Hrun) as [->|Hle]; unfold sha1_Size in *; lia.
Qed.

Lemma appendUniqueSha1_Some_aligned (dst src r : bytes) :
  appendUniqueSha1 dst src = Some r → digest_aligned src.
Proof.
  intros Hrun. apply appendLoop_length in Hrun.
  unfold digest_aligned, trips, sha1_Size in *.
  pose proof (Nat.div_mod_eq (length src + (20 - 1)) 20) as Hq.
  pose proof (Nat.mod_upper_bound (length src + (20 - 1)) 20) as Hr.
  set (q := (length src + (20 - 1)) / 20) in *.
  assert (length src = q * 20) as -> by (destruct Hrun; lia).
  apply Nat.Div0.mod_mul.
Qed.

Lemma occurrences_NoDup (ds : list bytes) (d : bytes) :
  NoDup ds → occurrences d ds ≤ 1.
Proof.
  unfold occurrences. induction 1 as [|x l Hx Hl IH]; [simpl; lia|].
  rewrite filter_cons. case_decide as Hxd; [|done]. subst x. simpl.
  destruct (filter (λ x, x = d) l) as [|y f] eqn:Hf; [simpl; lia|].
  assert (y ∈ filter (λ x, x = d) l) as Hy by (rewrite Hf; left).
  apply list_elem_of_filter in Hy as [-> Hy]. done.
Qed.

(** C1. For every current value [dst] that is a concatenation of 20-byte
    digests without a duplicate (a value of a union-map) and every appended
    value [src]: when [src] is a concatenation of 20-byte digests,
    [appendUniqueSha1(dst, src)] returns a result; and every result it
    returns is [dst] followed by digests of [src] that [dst] does not hold
    (a digest already present in [dst] is never appended), holds every
    digest of [src], and holds no digest more than once. Appending digests
    that [dst] holds already returns [dst] unchanged. *)
Theorem appendUniqueSha1_deduplicates (dst src : bytes) :
  digest_aligned dst → NoDup (digests dst) →
  (digest_aligned src → is_Some (appendUniqueSha1 dst src))
  ∧ ∀ r, appendUniqueSha1 dst src = Some r →
      ∃ added : list bytes,
        r = dst ++ mjoin added
        ∧ digests r = digests dst ++ added
        ∧ (∀ d, d ∈ added → d ∈ digests src ∧ d ∉ digests dst)
        ∧ (∀ d, d ∈ digests src → d ∈ digests r)
        ∧ (∀ d, occurrences d (digests r) ≤ 1)
        ∧ (digests src ⊆ digests dst → r = dst).
Proof.
  intros Hd Hnd. split.
  - intros Hs. destruct (appendUniqueSha1_fresh dst src Hd Hs) as (-> & _). by eexists.
  - intros r Hrun. pose proof (appendUniqueSha1_Some_aligned _ _ _ Hrun) as Hs.
    destruct (appendUniqueSha1_fresh dst src Hd Hs) as (E1 & E2 & E3).
    rewrite E1 in Hrun. injection Hrun as <-.
    exists (fresh (digests dst) (digests src)). split_and!.
    + done.
    + done.
    + intros d Hin. by apply fresh_elem in Hin.
    + intros d Hin. rewrite E3, elem_of_app, fresh_elem.
      destruct (decide (d ∈ digests dst)); tauto.
    + intros d. apply occurrences_NoDup. rewrite E3.
      apply NoDup_app. split_and!; [done| |apply fresh_NoDup].
      intros x Hin Hfr. apply fresh_elem in Hfr. tauto.
    + intros Hsub. rewrite fresh_none by done. simpl. by rewrite app_nil_r.
Qed.

Lemma appendUniqueSha1_deduplicates_witness :
  (digest_aligned (fixtures.d20 Byte.x01 ++ fixtures.d20 Byte.x02) →
   is_Some (appendUniqueSha1 (fixtures.d20 Byte.x01)
              (fixtures.d20 Byte.x01 ++ fixtures.d20 Byte.x02)))
  ∧ ∀ r, appendUniqueSha1 (fixtures.d20 Byte.x01)
           (fixtures.d20 Byte.x01 ++ fixtures.d20 Byte.x02) = Some r →
      ∃ added : list bytes,
        r = fixtures.d20 Byte.x01 ++ mjoin added
        ∧ digests r = digests (fixtures.d20 Byte.x01) ++ added
        ∧ (∀ d, d ∈ added →
                d ∈ digests (fixtures.d20 Byte.x01 ++ fixtures.d20 Byte.x02)
                ∧ d ∉ digests (fixtures.d20 Byte.x01))
        ∧ (∀ d, d ∈ digests (fixtures.d20 Byte.x01 ++ fixtures.d20 Byte.x02) →
                d ∈ digests r)
        ∧ (∀ d, occurrences d (digests r) ≤ 1)
        ∧ (digests (fixtures.d20 Byte.x01 ++ fixtures.d20 Byte.x02)
             ⊆ digests (fixtures.d20 Byte.x01) →
           r = fixtures.d20 Byte.x01).
Proof.
  apply (appendUniqueSha1_deduplicates (fixtures.d20 Byte.x01)
           (fixtures.d20 Byte.x01 ++ fixtures.d20 Byte.x02)).
  - reflexivity.
  - apply (NoDup_singleton (fixtures.d20 Byte.x01)).
Defined.

(** The hypothesis on [dst] is needed: the loop filters what it appends and
    leaves [dst] as it is, so a [dst] that held a digest twice (no value of
    a union-map does) would keep it twice. *)
Lemma appendUniqueSha1_keeps_dst :
  ∃ r, appendUniqueSha1 (fixtures.d20 Byte.x01 ++ fixtures.d20 Byte.x01)
         (fixtures.d20 Byte.x01) = Some r
       ∧ occurrences (fixtures.d20 Byte.x01) (digests r) = 2.
Proof.
  eexists. split; [vm_compute; reflexivity|]. vm_compute. reflexivity.
Qed.

(** ** Admission to a root of the depot *)

Section reserve.

Implicit Types (d : Depot) (i j size : Z).

Lemma wrap64_in_range z : int64_range z → wrap64 z = z.
Proof.
  unfold int64_range, wrap64. intros Hz. rewrite Z.mod_small; lia.
Qed.

Lemma index_insert_eq (l : list Z) i v :
  is_Some (index l i) → index (<[Z.to_nat i := v]> l) i = Some v.
Proof.
  unfold index. case_decide; [|by intros [? ?]].
  intros [x Hx]. apply list_lookup_insert_eq. by apply lookup_lt_Some in Hx.
Qed.

Lemma index_insert_ne (l : list Z) i j v :
  i ≠ j → (0 ≤ i)%Z → index (<[Z.to_nat i := v]> l) j = index l j.
Proof.
  unfold index. intros Hne Hi. case_decide; [|done].
  apply list_lookup_insert_ne. lia.
Qed.

Lemma index_bounds {A} (l : list A) i x :
  index l i = Some x → (0 ≤ i < Z.of_nat (length l))%Z.
Proof.
  unfold index. case_decide; [|done]. intros Hx%lookup_lt_Some. lia.
Qed.

(** What the loop does when it returns an index. *)
Lemma reserveLoop_ok n i d size d' j :
  reserveLoop n i d size = (d', Ok j) →
  (i ≤ j < i + Z.of_nat n)%Z
  ∧ roots d' = roots d ∧ maxSizes d' = maxSizes d ∧ romDB d' = romDB d
  ∧ ∃ s m, index (sizes d) j = Some s ∧ index (maxSizes d) j = Some m
           ∧ (add64 s size < m)%Z
           ∧ sizes d' = <[Z.to_nat j := add64 s size]> (sizes d).
Proof.
  revert i d. induction n as [|n IH]; intros i d Hrun; simpl in Hrun.
  - case_decide; by inversion Hrun.
  - destruct (index (sizes d) i) as [s|] eqn:Hs; [|by inversion Hrun].
    destruct (index (maxSizes d) i) as [m|] eqn:Hm; [|by inversion Hrun].
    case_decide as Hfit.
    + inversion Hrun; subst. split; [lia|]. split_and!; try done.
      exists s, m. by split_and!.
    + case_decide as Hfull; apply IH in Hrun as (Hj & ? & ? & ? & Hex);
        (split; [lia|]); by split_and!.
Qed.

(** What the loop does when it fails: the sizes are left alone, and the
    cursor ends on the last full root that the loop has met, if any. *)
Lemma reserveLoop_err n i d size d' e :
  reserveLoop n i d size = (d', Err e) →
  sizes d' = sizes d ∧ roots d' = roots d ∧ maxSizes d' = maxSizes d
  ∧ romDB d' = romDB d
  ∧ (start d' = start d ∨ ((i ≤ start d' < i + Z.of_nat n)%Z ∧ full d (start d')))
  ∧ (e = ErrOutOfSpace →
     ∀ j, (i ≤ j < i + Z.of_nat n)%Z → full d j → (j ≤ start d')%Z).
Proof.
  revert i d. induction n as [|n IH]; intros i d Hrun; simpl in Hrun.
  - case_decide; inversion Hrun; subst; split_and!; try done; auto; intros; lia.
  - destruct (index (sizes d) i) as [s|] eqn:Hs.
    2:{ inversion Hrun; subst. split_and!; auto. done. }
    destruct (index (maxSizes d) i) as [m|] eqn:Hm.
    2:{ inversion Hrun; subst. split_and!; auto. done. }
    case_decide as Hfit; [by inversion Hrun|].
    case_decide as Hfull; apply IH in Hrun as (? & ? & ? & ? & Hst & Hlast).
    + split_and!; try done.
      * right. destruct Hst as [->|[Hr Hf]]; simpl.
        -- split; [lia|]. by exists s, m.
        -- split; [lia|]. done.
      * intros -> j Hj Hf.
        assert (i + 1 ≤ start d' ∨ start d' = i)%Z as Hge.
        { destruct Hst as [->|[Hr _]]; simpl; lia. }
        destruct (decide (j = i)) as [->|Hne]; [lia|].
        apply (Hlast eq_refl j); [lia|done].
    + split_and!; try done.
      * destruct Hst as [->|[Hr Hf]]; [by left|right]. split; [lia|done].
      * intros -> j Hj Hf.
        destruct (decide (j = i)) as [->|Hne].
        -- destruct Hf as (s' & m' & Hs' & Hm' & Hge).
           rewrite Hs in Hs'. rewrite Hm in Hm'. simplify_eq. lia.
        -- apply (Hlast eq_refl j); [lia|done].
Qed.

End reserve.

(** C2. When [reserveRoot] returns the index [i], root [i] was chosen because
    [sizes[i] + size < maxSizes[i]] held (in the arithmetic of [int64]), the
    reservation has added [size] to [sizes[i]] and to no other size, and so
    [sizes[i] <= maxSizes[i]] holds right after it. The sum is the sum of the
    integers whenever that one is an [int64]. This holds for every [size],
    non-negative or not. *)
Theorem reserveRoot_admission (d d' : Depot) (size i : Z) :
  reserveRoot d size = (d', Ok i) →
  ∃ s m,
    index (sizes d) i = Some s ∧ index (maxSizes d) i = Some m
    ∧ (add64 s size < m)%Z
    ∧ index (sizes d') i = Some (add64 s size)
    ∧ index (maxSizes d') i = Some m
    ∧ (add64 s size ≤ m)%Z
    ∧ (int64_range (s + size) → index (sizes d') i = Some (s + size)%Z)
    ∧ (∀ j, j ≠ i → index (sizes d') j = index (sizes d) j)
    ∧ (start d ≤ i < Z.of_nat (length (roots d)))%Z.
Proof.
  unfold reserveRoot. intros Hrun.
  apply reserveLoop_ok in Hrun as (Hi & Hr & Hm & _ & s & m & Hs & Hmi & Hfit & Hsz).
  exists s, m. pose proof (index_bounds _ _ _ Hs) as Hb.
  assert (index (sizes d') i = Some (add64 s size)) as Hnew
    by (rewrite Hsz; apply index_insert_eq; eauto).
  split_and!; try done.
  - by rewrite Hm.
  - lia.
  - intros Hrange. rewrite Hnew. unfold add64. by rewrite wrap64_in_range.
  - intros j Hne. rewrite Hsz. apply index_insert_ne; [done|lia].
  - lia.
  - lia.
Qed.

Lemma reserveRoot_admission_witness :
  ∃ s m,
    index (sizes (twoRoots 9 0 10 10)) 1 = Some s
    ∧ index (maxSizes (twoRoots 9 0 10 10)) 1 = Some m
    ∧ (add64 s 3 < m)%Z
    ∧ index (sizes (twoRoots 9 3 10 10)) 1 = Some (add64 s 3)
    ∧ index (maxSizes (twoRoots 9 3 10 10)) 1 = Some m
    ∧ (add64 s 3 ≤ m)%Z
    ∧ (int64_range (s + 3) → index (sizes (twoRoots 9 3 10 10)) 1 = Some (s + 3)%Z)
    ∧ (∀ j, j ≠ 1%Z →
         index (sizes (twoRoots 9 3 10 10)) j = index (sizes (twoRoots 9 0 10 10)) j)
    ∧ (start (twoRoots 9 0 10 10) ≤ 1
       < Z.of_nat (length (roots (twoRoots 9 0 10 10))))%Z.
Proof.
  apply (reserveRoot_admission (twoRoots 9 0 10 10) (twoRoots 9 3 10 10) 3 1).
  reflexivity.
Defined.

(** C10, as amended. When [reserveRoot] fails with the out-of-space error,
    every size is what it was before the call, and so are the roots and the
    maxima. The cursor [start] is either unchanged or stands on a root, not
    before the old cursor, whose size has reached its maximum; no root after
    it is full. *)
Theorem reserveRoot_out_of_space (d d' : Depot) (size : Z) :
  reserveRoot d size = (d', Err ErrOutOfSpace) →
  sizes d' = sizes d ∧ roots d' = roots d ∧ maxSizes d' = maxSizes d
  ∧ (start d' = start d
     ∨ ((start d ≤ start d' < Z.of_nat (length (roots d)))%Z ∧ full d (start d')))
  ∧ (∀ j, (start d ≤ j < Z.of_nat (length (roots d)))%Z → full d j →
          (j ≤ start d')%Z).
Proof.
  unfold reserveRoot. intros Hrun.
  apply reserveLoop_err in Hrun as (Hs & Hr & Hm & _ & Hst & Hlast).
  split_and!; try done.
  - destruct Hst as [?|[Hb Hf]]; [by left|right]. split; [lia|done].
  - intros j Hj Hf. apply (Hlast eq_refl j); [lia|done].
Qed.

Lemma reserveRoot_out_of_space_witness :
  sizes (with_start (twoRoots 5 10 10 10) 1) = sizes (twoRoots 5 10 10 10)
  ∧ roots (with_start (twoRoots 5 10 10 10) 1) = roots (twoRoots 5 10 10 10)
  ∧ maxSizes (with_start (twoRoots 5 10 10 10) 1) = maxSizes (twoRoots 5 10 10 10)
  ∧ (start (with_start (twoRoots 5 10 10 10) 1) = start (twoRoots 5 10 10 10)
     ∨ ((start (twoRoots 5 10 10 10) ≤ start (with_start (twoRoots 5 10 10 10) 1)
         < Z.of_nat (length (roots (twoRoots 5 10 10 10))))%Z
        ∧ full (twoRoots 5 10 10 10) (start (with_start (twoRoots 5 10 10 10) 1))))
  ∧ (∀ j, (start (twoRoots 5 10 10 10) ≤ j
           < Z.of_nat (length (roots (twoRoots 5 10 10 10))))%Z →
          full (twoRoots 5 10 10 10) j →
          (j ≤ start (with_start (twoRoots 5 10 10 10) 1))%Z).
Proof.
  apply (reserveRoot_out_of_space (twoRoots 5 10 10 10)
           (with_start (twoRoots 5 10 10 10) 1) 6).
  reflexivity.
Defined.

(** C10 as stated fails: with sizes 5 and 10 under maxima 10 and 10, a
    request of 6 bytes fits nowhere; the call fails and leaves the cursor on
    root 1, past root 0, whose size 5 has not reached its maximum 10. *)
Lemma reserveRoot_skips_root_with_space :
  ∃ d', reserveRoot (twoRoots 5 10 10 10) 6 = (d', Err ErrOutOfSpace)
        ∧ start (twoRoots 5 10 10 10) = 0%Z ∧ start d' = 1%Z
        ∧ index (sizes (twoRoots 5 10 10 10)) 0 = Some 5%Z
        ∧ index (maxSizes (twoRoots 5 10 10 10)) 0 = Some 10%Z
        ∧ ¬ full (twoRoots 5 10 10 10) 0
        ∧ ¬ advancedPastFullRoots (twoRoots 5 10 10 10) d'.
Proof.
  eexists. split; [reflexivity|]. split_and!; try reflexivity.
  - intros (s & m & Hs & Hm & Hge). vm_compute in Hs, Hm. simplify_eq. lia.
  - intros [_ Hall]. destruct (Hall 0%Z) as (s & m & Hs & Hm & Hge); [simpl; lia|].
    vm_compute in Hs, Hm. simplify_eq. lia.
Qed.

(** ** Looking up the Dats of a rom *)

Section lookup.
Context `{Codec}.

Local Ltac slia := unfold sha1_Size in *; lia.

Lemma resolveDatSha1s_tiers db rom :
  resolveDatSha1s db rom
  = firstPresent [tier (sha1DB db) (Rom_Sha1 rom);
                  tier (md5DB db) (Rom_Md5 rom);
                  tier (crcDB db) (Rom_Crc rom)].
Proof.
  unfold resolveDatSha1s, tier; simpl.
  destruct (Rom_Sha1 rom) as [s|]; simpl.
  - destruct (Get (sha1DB db) s) as [[b|]|e]; simpl; [|clear s|done].
    + by destruct (Rom_Md5 rom), (Rom_Crc rom).
    + destruct (Rom_Md5 rom) as [m|]; simpl.
      * destruct (Get (md5DB db) m) as [[b|]|e]; simpl; try done.
        -- by destruct (Rom_Crc rom).
        -- destruct (Rom_Crc rom) as [c|]; [|done].
           by destruct (Get (crcDB db) c) as [[b|]|e].
      * destruct (Rom_Crc rom) as [c|]; [|done].
        by destruct (Get (crcDB db) c) as [[b|]|e].
  - destruct (Rom_Md5 rom) as [m|]; simpl.
    + destruct (Get (md5DB db) m) as [[b|]|e]; simpl; try done.
      * by destruct (Rom_Crc rom).
      * destruct (Rom_Crc rom) as [c|]; [|done].
        by destruct (Get (crcDB db) c) as [[b|]|e].
    + destruct (Rom_Crc rom) as [c|]; [|done].
      by destruct (Get (crcDB db) c) as [[b|]|e].
Qed.

(** The loop of [DatsForRom] dereferences the digests ahead, in order, and
    panics on a last chunk of less than 20 bytes. *)
Lemma datsLoop_chunks db n r pre rest acc :
  length rest = sha1_Size * n + r → r < sha1_Size →
  datsLoop db (pre ++ rest) (n + (if decide (r = 0) then 0 else 1)) (length pre) acc
  = (rest' <-? derefAll db (chunks n rest);
     if decide (r = 0) then Ok (acc ++ rest') else Err Panic).
Proof.
  revert pre rest acc. induction n as [|n IH]; intros pre rest acc Hlen Hr; simpl.
  - case_decide; simpl; [by rewrite app_nil_r|].
    rewrite slice_short by slia. done.
  - rewrite slice_at by slia.
    destruct (GetDat db (take sha1_Size rest)) as [dat|e]; simpl; [|done].
    replace (pre ++ rest) with ((pre ++ take sha1_Size rest) ++ drop sha1_Size rest)
      by (by rewrite <- (assoc_L (++)), take_drop).
    replace (length pre + sha1_Size) with (length (pre ++ take sha1_Size rest))
      by (rewrite length_app, length_take; slia).
    rewrite IH by (rewrite ?length_drop; slia).
    destruct (derefAll db (chunks n (drop sha1_Size rest))) as [l|e]; simpl; [|done].
    case_decide; [|done]. destruct dat; [|done]. by rewrite <- (assoc_L (++)).
Qed.

Lemma trips_split len :
  trips len = len / sha1_Size + (if decide (len `mod` sha1_Size = 0) then 0 else 1).
Proof.
  unfold trips, sha1_Size.
  pose proof (Nat.div_mod_eq len 20) as Hq.
  pose proof (Nat.mod_upper_bound len 20) as Hr.
  set (q := len / 20) in *. set (r := len `mod` 20) in *.
  replace (len + (20 - 1)) with (q * 20 + (r + 19)) by lia.
  rewrite Nat.div_add_l by lia.
  case_decide as Hz.
  - rewrite Hz. rewrite (Nat.div_small (0 + 19) 20) by lia. lia.
  - replace (r + 19) with (1 * 20 + (r - 1)) by lia.
    rewrite Nat.div_add_l by lia. rewrite (Nat.div_small (r - 1) 20) by lia. lia.
Qed.

Lemma DatsForRom_deref db rom b :
  resolveDatSha1s db rom = Ok (Some b) →
  DatsForRom db rom
  = (l <-? derefAll db (digests b);
     if decide (digest_aligned b) then Ok l else Err Panic).
Proof.
  intros Hres. unfold DatsForRom. rewrite Hres. simpl.
  rewrite trips_split.
  pose proof (datsLoop_chunks db (length b / sha1_Size) (length b `mod` sha1_Size)
                [] b []) as E.
  change ([] ++ b) with b in E. change (length (@nil byte)) with 0 in E.
  rewrite E.
  - unfold digests, digest_aligned.
    destruct (derefAll db (chunks (length b / sha1_Size) b)); simpl; [|done].
    by repeat case_decide.
  - apply Nat.div_mod_eq.
  - apply Nat.mod_upper_bound. done.
Qed.

Lemma derefAll_err db ds d e :
  d ∈ ds → GetDat db d = Err e → ∃ e', derefAll db ds = Err e'.
Proof.
  induction ds as [|x ds IH]; intros Hin Hd; [by apply elem_of_nil in Hin|].
  simpl. destruct (GetDat db x) as [dat|ex] eqn:Hx; simpl; [|eauto].
  apply elem_of_cons in Hin as [->|Hin]; [congruence|].
  destruct (IH Hin Hd) as [e' ->]. simpl. eauto.
Qed.

(** Every Dat of the result was decoded from the bytes stored in [dats]
    under one of the digests. *)
Lemma derefAll_elem db ds l dat :
  derefAll db ds = Ok l → dat ∈ l →
  ∃ d b, d ∈ ds ∧ Get (datsDB db) d = Ok (Some b) ∧ gobDecode b = Ok dat.
Proof.
  revert l. induction ds as [|x ds IH]; intros l Hrun Hin; simpl in Hrun.
  - inversion Hrun; subst. by apply elem_of_nil in Hin.
  - destruct (GetDat db x) as [o|e] eqn:Hx; simpl in Hrun; [|done].
    destruct (derefAll db ds) as [rest|e]; simpl in Hrun; [|done].
    inversion Hrun; subst; clear Hrun.
    assert (dat ∈ rest → ∃ d b, d ∈ x :: ds ∧ Get (datsDB db) d = Ok (Some b)
                                 ∧ gobDecode b = Ok dat) as Hrest.
    { intros Hr. destruct (IH rest eq_refl Hr) as (d & b & ? & ? & ?).
      exists d, b. split_and!; [by right|done|done]. }
    destruct o as [x'|]; [|by auto].
    apply elem_of_cons in Hin as [->|Hin]; [|by auto].
    unfold GetDat in Hx. destruct (Get (datsDB db) x) as [[b|]|e] eqn:Hg;
      simpl in Hx; try done.
    destruct (gobDecode b) as [dat'|e] eqn:Hdec; [|done].
    inversion Hx; subst. exists x, b. split_and!; [by left|done|done].
Qed.

(** Every Dat stored under one of the digests is in the result. *)
Lemma derefAll_in db ds l d dat :
  derefAll db ds = Ok l → d ∈ ds → GetDat db d = Ok (Some dat) → dat ∈ l.
Proof.
  revert l. induction ds as [|x ds IH]; intros l Hrun Hin Hd; simpl in Hrun.
  - by apply elem_of_nil in Hin.
  - destruct (GetDat db x) as [o|e] eqn:Hx; simpl in Hrun; [|done].
    destruct (derefAll db ds) as [rest|e]; simpl in Hrun; [|done].
    simplify_eq. apply elem_of_cons in Hin as [->|Hin].
    + rewrite Hd in Hx. simplify_eq. by left.
    + specialize (IH rest eq_refl Hin Hd). destruct o; [by right|done].
Qed.

End lookup.

Lemma GetDat_stored `{Codec} (db : kvStore) (d : bytes) : GetDat db d = storedDat db d.
Proof.
  unfold GetDat, storedDat. by destruct (Get (datsDB db) d) as [[bs|]|e].
Qed.

Lemma derefAll_stored `{Codec} (db : kvStore) (ds : list bytes) :
  derefAll db ds = storedDats db ds.
Proof.
  induction ds as [|d ds IH]; [done|]. simpl. rewrite GetDat_stored, IH.
  destruct (storedDat db d) as [o|e]; simpl; [|done].
  by destruct (storedDats db ds).
Qed.

(** C4. [DatsForRom] takes the Dat-SHA1s of a rom from one store only: from
    [sha1DB] when the rom has a SHA1 and the store holds a value under it,
    else from [md5DB] when the rom has an MD5 and that store holds a value,
    else from [crcDB] under the CRC; the values of different stores are never
    united, and a store after the winning one is not consulted. Without a
    value in any of them the result is empty. The value found is cut on its
    20-byte boundaries and each digest is dereferenced through the [dats]
    map: the result is the list of the Dats that the map holds under these
    digests, decoded, in the order of the digests, a digest without an entry
    being left out (a last chunk of less than 20 bytes is a panic, the value
    being a slice whose capacity is its length). So a
    Dat is in the result exactly when it is the decoding of the bytes that
    the [dats] map holds under one of the digests. *)
Theorem DatsForRom_first_tier_wins `{Codec} (db : kvStore) (rom : Rom) :
  resolveDatSha1s db rom
  = firstPresent [tier (sha1DB db) (Rom_Sha1 rom);
                  tier (md5DB db) (Rom_Md5 rom);
                  tier (crcDB db) (Rom_Crc rom)]
  ∧ DatsForRom db rom
    = match firstPresent [tier (sha1DB db) (Rom_Sha1 rom);
                          tier (md5DB db) (Rom_Md5 rom);
                          tier (crcDB db) (Rom_Crc rom)] with
      | Err e => Err e
      | Ok None => Ok []
      | Ok (Some b) =>
          l <-? storedDats db (digests b);
          if decide (digest_aligned b) then Ok l else Err Panic
      end
  ∧ (∀ l dat, DatsForRom db rom = Ok l → dat ∈ l →
      ∃ b d bs, resolveDatSha1s db rom = Ok (Some b) ∧ d ∈ digests b
                ∧ Get (datsDB db) d = Ok (Some bs) ∧ gobDecode bs = Ok dat)
  ∧ (∀ l b d bs dat, DatsForRom db rom = Ok l →
      resolveDatSha1s db rom = Ok (Some b) → d ∈ digests b →
      Get (datsDB db) d = Ok (Some bs) → gobDecode bs = Ok dat → dat ∈ l).
Proof.
  split; [apply resolveDatSha1s_tiers|].
  rewrite <- resolveDatSha1s_tiers.
  destruct (resolveDatSha1s db rom) as [[b|]|e] eqn:Hres.
  - pose proof (DatsForRom_deref db rom b Hres) as Hdr.
    split; [by rewrite Hdr, derefAll_stored|]. rewrite Hdr. split.
    + intros l dat Hl Hin.
      destruct (derefAll db (digests b)) as [l'|e] eqn:Hd; simpl in Hl; [|done].
      case_decide; [|done]. inversion Hl; subst.
      destruct (derefAll_elem db (digests b) l dat Hd Hin) as (d & bs & ? & ? & ?).
      by exists b, d, bs.
    + intros l b' d bs dat Hl [= <-] Hd Hget Hdec.
      destruct (derefAll db (digests b)) as [l'|e] eqn:Hderef; simpl in Hl; [|done].
      case_decide; [|done]. inversion Hl; subst.
      apply (derefAll_in db (digests b) l d dat Hderef Hd).
      unfold GetDat. rewrite Hget. simpl. by rewrite Hdec.
  - unfold DatsForRom. rewrite Hres. simpl. split; [done|]. split.
    + intros l dat Hl Hin. inversion Hl; subst. by apply elem_of_nil in Hin.
    + by intros l b d bs dat _ [=].
  - unfold DatsForRom. rewrite Hres. simpl. split; [done|]. split.
    + by intros l dat Hl.
    + by intros l b d bs dat Hl.
Qed.

(** C9, as amended. When the bytes stored under a Dat key fail to decode,
    [GetDat] returns the error of the decoder for that key, and [DatsForRom]
    fails as well for every rom whose Dat-SHA1s include that key: the failure
    is reported, the Dat is not passed over as absent. *)
Theorem decode_failure_is_reported `{Codec} (db : kvStore) (k bs : bytes) (e : error) :
  Get (datsDB db) k = Ok (Some bs) → gobDecode bs = Err e →
  GetDat db k = Err e
  ∧ ∀ rom b, resolveDatSha1s db rom = Ok (Some b) → k ∈ digests b →
      ∃ e', DatsForRom db rom = Err e'.
Proof.
  intros Hget Hdec.
  assert (GetDat db k = Err e) as Hk by (unfold GetDat; by rewrite Hget; simpl; rewrite Hdec).
  split; [done|]. intros rom b Hres Hin.
  rewrite (DatsForRom_deref db rom b Hres).
  destruct (derefAll_err db (digests b) k e Hin Hk) as [e' ->]. simpl. eauto.
Qed.

Lemma decode_failure_is_reported_witness :
  GetDat corruptDB (fixtures.d20 Byte.x07) = Err ErrDecode
  ∧ ∀ rom b, resolveDatSha1s corruptDB rom = Ok (Some b) →
      fixtures.d20 Byte.x07 ∈ digests b →
      ∃ e', DatsForRom corruptDB rom = Err e'.
Proof.
  apply (decode_failure_is_reported corruptDB (fixtures.d20 Byte.x07) [] ErrDecode);
    reflexivity.
Defined.

(** C9 as stated fails: with undecodable bytes under a key of [dats],
    [GetDat] returns an error for the key and not "no Dat", and [DatsForRom]
    returns the error for a rom that resolves to the key instead of a result
    without that Dat. *)
Lemma decode_failure_not_absent :
  Get (datsDB corruptDB) (fixtures.d20 Byte.x07) = Ok (Some [])
  ∧ gobDecode [] = Err ErrDecode
  ∧ GetDat corruptDB (fixtures.d20 Byte.x07) = Err ErrDecode
  ∧ GetDat corruptDB (fixtures.d20 Byte.x07) ≠ Ok None
  ∧ resolveDatSha1s corruptDB (romWithSha1 (fixtures.d20 Byte.x03))
    = Ok (Some (fixtures.d20 Byte.x07))
  ∧ DatsForRom corruptDB (romWithSha1 (fixtures.d20 Byte.x03)) = Err ErrDecode
  ∧ DatsForRom corruptDB (romWithSha1 (fixtures.d20 Byte.x03)) ≠ Ok [].
Proof.
  split_and!; try reflexivity; by vm_compute.
Qed.

(** ** Looking up blobs in the depot *)

Section blobs.
Context `{OS}.

Local Ltac slia := unfold sha1_Size in *; lia.

Lemma openMatching_skip fs rom rs sha1 :
  (∀ r, r ∈ rs → noMatch fs rom (blobPath r sha1)) →
  openMatching fs rom rs (EncodeToString sha1) = Ok None.
Proof.
  induction rs as [|r rs IH]; intros Hall; simpl; [done|].
  assert (noMatch fs rom (blobPath r sha1)) as Hr by (apply Hall; left).
  assert (openMatching fs rom rs (EncodeToString sha1) = Ok None) as Hrest
    by (apply IH; intros r' Hr'; apply Hall; by right).
  unfold blobPath in Hr.
  destruct Hr as [Hno|(hh & Hex & Hset & Hhh & Hm & Hc)].
  - rewrite Hno. simpl. done.
  - rewrite Hex. simpl. rewrite bool_decide_true by done.
    rewrite Hhh. simpl. rewrite !bool_decide_false by done. done.
Qed.

Lemma openMatching_hit fs rom rpre root rpost sha1 hh :
  (∀ r, r ∈ rpre → noMatch fs rom (blobPath r sha1)) →
  PathExists fs (blobPath root sha1) = Ok true →
  HashesForGZFile fs (blobPath root sha1) = Ok hh →
  md5Match rom hh ∨ crcMatch rom hh →
  openMatching fs rom (rpre ++ root :: rpost) (EncodeToString sha1)
  = openResult fs (blobPath root sha1).
Proof.
  intros Hall Hex Hhh Hm. induction rpre as [|r rpre IH]; simpl.
  - unfold blobPath in *. rewrite Hex. simpl.
    rewrite bool_decide_true by (unfold md5Match, crcMatch in Hm; naive_solver).
    rewrite Hhh. simpl.
    destruct (decide (md5Match rom hh)) as [Hy|Hn].
    + by rewrite bool_decide_true.
    + rewrite bool_decide_false by done.
      rewrite bool_decide_true; [done | by destruct Hm].
  - assert (noMatch fs rom (blobPath r sha1)) as Hr by (apply Hall; left).
    rewrite <- IH by (intros r' Hr'; apply Hall; by right).
    unfold blobPath in Hr.
    destruct Hr as [Hno|(hr & Hex' & Hset & Hhh' & Hm' & Hc')].
    + by rewrite Hno.
    + rewrite Hex'. simpl. rewrite bool_decide_true by done.
      rewrite Hhh'. simpl. by rewrite !bool_decide_false.
Qed.

Lemma openResult_some fs p : openResult fs p ≠ Ok None.
Proof. unfold openResult. by destruct (osOpen fs p). Qed.

Lemma openCandidates_hit fs depot rom n pre rest cpre c cpost rpre root rpost hh :
  length rest = sha1_Size * n →
  chunks n rest = cpre ++ c :: cpost →
  roots depot = rpre ++ root :: rpost →
  (∀ c' r, c' ∈ cpre → r ∈ roots depot → noMatch fs rom (blobPath r c')) →
  (∀ r, r ∈ rpre → noMatch fs rom (blobPath r c)) →
  PathExists fs (blobPath root c) = Ok true →
  HashesForGZFile fs (blobPath root c) = Ok hh →
  md5Match rom hh ∨ crcMatch rom hh →
  openCandidates fs depot rom (pre ++ rest) n (length pre)
  = openResult fs (blobPath root c).
Proof.
  intros Hlen Hch Hroots Hcs Hrs Hex Hhh Hm.
  revert pre rest cpre Hlen Hch Hcs.
  induction n as [|n IH]; intros pre rest cpre Hlen Hch Hcs.
  - simpl in Hch. by destruct cpre.
  - simpl. rewrite slice_at by slia.
    destruct cpre as [|c' cpre]; simpl in Hch; injection Hch as Hc Htl.
    + rewrite Hc, Hroots.
      rewrite (openMatching_hit fs rom rpre root rpost c hh) by done.
      simpl. pose proof (openResult_some fs (blobPath root c)).
      by destruct (openResult fs (blobPath root c)) as [[f|]|e].
    + rewrite Hc. rewrite openMatching_skip
        by (intros r Hr; apply Hcs; [by left | done]).
      simpl.
      replace (pre ++ rest) with ((pre ++ take sha1_Size rest) ++ drop sha1_Size rest)
        by (by rewrite <- (assoc_L (++)), take_drop).
      replace (length pre + sha1_Size) with (length (pre ++ take sha1_Size rest))
        by (rewrite length_app, length_take; slia).
      apply (IH _ _ cpre); [rewrite length_drop; slia | done |].
      intros c'' r Hc'' Hr. apply Hcs; [by right | done].
Qed.

(** [SHA1InDepot] answers with the first root that settles the question:
    [true] at the first root whose path exists, the error of the first
    failing probe, [false] when every probe says no. *)
Lemma SHA1InDepot_true depot fs sha1 rpre root rpost :
  roots depot = rpre ++ root :: rpost →
  (∀ r, r ∈ rpre → PathExists fs (blobPath r sha1) = Ok false) →
  PathExists fs (blobPath root sha1) = Ok true →
  SHA1InDepot depot fs (EncodeToString sha1) = Ok true.
Proof.
  unfold SHA1InDepot. intros -> Hpre Hex.
  induction rpre as [|r rpre IH]; simpl.
  - unfold blobPath in Hex. by rewrite Hex.
  - assert (PathExists fs (blobPath r sha1) = Ok false) as Hr by (apply Hpre; left).
    unfold blobPath in Hr. rewrite Hr. simpl.
    apply IH. intros r' Hr'. apply Hpre. by right.
Qed.

Lemma SHA1InDepot_false depot fs sha1 :
  (∀ r, r ∈ roots depot → PathExists fs (blobPath r sha1) = Ok false) →
  SHA1InDepot depot fs (EncodeToString sha1) = Ok false.
Proof.
  unfold SHA1InDepot. induction (roots depot) as [|r rs IH]; intros Hall; simpl; [done|].
  assert (PathExists fs (blobPath r sha1) = Ok false) as Hr by (apply Hall; left).
  unfold blobPath in Hr. rewrite Hr. simpl.
  apply IH. intros r' Hr'. apply Hall. by right.
Qed.

End blobs.

(** C5, as amended. For a rom whose SHA1 is a collision set, [OpenRomGZ]
    probes the candidates in order and, for each candidate, the roots in
    order. It returns (the result of opening) the first blob found whose
    trailer MD5 equals [rom.Md5] or whose trailer CRC equals [rom.Crc],
    provided that every probe before it found no file or a blob that agrees
    with neither hash. So a blob whose MD5 equals [rom.Md5] is returned when
    no blob probed before it agrees with [rom.Md5] or with [rom.Crc]; this
    is the case when it is the only blob with that MD5 and [rom.Crc] is
    absent. *)
Theorem OpenRomGZ_first_match `{OS} (depot : Depot) (fs : FS) (rom : Rom)
    (sha1 c : bytes) (cpre cpost : list bytes)
    (root : string) (rpre rpost : list string) (hh : Hashes) :
  Rom_Sha1 rom = Some sha1 → length sha1 ≠ sha1_Size → digest_aligned sha1 →
  digests sha1 = cpre ++ c :: cpost →
  roots depot = rpre ++ root :: rpost →
  (∀ c' r, c' ∈ cpre → r ∈ roots depot → noMatch fs rom (blobPath r c')) →
  (∀ r, r ∈ rpre → noMatch fs rom (blobPath r c)) →
  PathExists fs (blobPath root c) = Ok true →
  HashesForGZFile fs (blobPath root c) = Ok hh →
  md5Match rom hh ∨ crcMatch rom hh →
  OpenRomGZ depot fs rom = openResult fs (blobPath root c).
Proof.
  intros Hsha Hlen Hal Hds Hroots Hcs Hrs Hex Hhh Hm.
  unfold OpenRomGZ. rewrite Hsha. rewrite decide_False by done.
  rewrite trips_aligned by done.
  apply (openCandidates_hit fs depot rom _ [] sha1 cpre c cpost rpre root rpost hh);
    try done.
  by apply aligned_length.
Qed.

Lemma OpenRomGZ_first_match_witness :
  OpenRomGZ oneRoot (twoBlobs trailer1 trailer2)
    (collisionRom None (Some (fixtures.d16 Byte.xa0)))
  = openResult (twoBlobs trailer1 trailer2)
      (blobPath "/depot0" (fixtures.d20 Byte.x02)).
Proof.
  apply (OpenRomGZ_first_match oneRoot (twoBlobs trailer1 trailer2)
           (collisionRom None (Some (fixtures.d16 Byte.xa0)))
           (fixtures.d20 Byte.x01 ++ fixtures.d20 Byte.x02)
           (fixtures.d20 Byte.x02) [fixtures.d20 Byte.x01] []
           "/depot0" [] [] trailer2).
  - reflexivity.
  - vm_compute. lia.
  - reflexivity.
  - reflexivity.
  - reflexivity.
  - intros c' r Hc Hr.
    apply list_elem_of_singleton in Hc. apply list_elem_of_singleton in Hr. subst.
    right. exists trailer1. split_and!.
    + vm_compute. reflexivity.
    + right. discriminate.
    + vm_compute. reflexivity.
    + intros [_ Heq]. vm_compute in Heq. discriminate.
    + intros [Hcrc _]. by apply Hcrc.
  - intros r Hr. by apply elem_of_nil in Hr.
  - vm_compute. reflexivity.
  - vm_compute. reflexivity.
  - left. split; [discriminate | reflexivity].
Defined.

(** C5 as stated fails: the rom has the MD5 [d16 xa0] and the CRC [d4 xc0];
    of the two candidate blobs only the second has the trailer MD5 [d16 xa0],
    but the first has the trailer CRC [d4 xc0], is probed first and is the
    blob returned. *)
Lemma OpenRomGZ_returns_crc_match :
  HashesForGZFile (twoBlobs trailer1 trailer2)
    (blobPath "/depot0" (fixtures.d20 Byte.x01)) = Ok trailer1
  ∧ HashesForGZFile (twoBlobs trailer1 trailer2)
      (blobPath "/depot0" (fixtures.d20 Byte.x02)) = Ok trailer2
  ∧ Hashes_Md5 trailer1 ≠ fixtures.d16 Byte.xa0
  ∧ Hashes_Md5 trailer2 = fixtures.d16 Byte.xa0
  ∧ OpenRomGZ oneRoot (twoBlobs trailer1 trailer2)
      (collisionRom (Some (fixtures.d4 Byte.xc0)) (Some (fixtures.d16 Byte.xa0)))
    = Ok (Some (blobPath "/depot0" (fixtures.d20 Byte.x01), trailer1))
  ∧ OpenRomGZ oneRoot (twoBlobs trailer1 trailer2)
      (collisionRom (Some (fixtures.d4 Byte.xc0)) (Some (fixtures.d16 Byte.xa0)))
    ≠ openResult (twoBlobs trailer1 trailer2)
        (blobPath "/depot0" (fixtures.d20 Byte.x02)).
Proof.
  split_and!; try (vm_compute; reflexivity); vm_compute; discriminate.
Qed.

(** C8. [SHA1InDepot] returns a presence flag and an error, and nothing
    else: for a blob that is in the depot and has a trailer, the result is
    [true] without the MD5 and the CRC of the trailer. *)
Theorem SHA1InDepot_returns_flag_only :
  HashesForGZFile (twoBlobs trailer1 trailer2)
    (blobPath "/depot0" (fixtures.d20 Byte.x01)) = Ok trailer1
  ∧ SHA1InDepot oneRoot (twoBlobs trailer1 trailer2)
      (EncodeToString (fixtures.d20 Byte.x01)) = Ok true.
Proof.
  split; vm_compute; reflexivity.
Qed.

(** ** The archive worker and the resume observer *)

(** C6. With [only_needed] set, when the payload has been hashed and
    [DatsForRom] returns no Dat that is not artificial, [archive] returns 0
    and does nothing more: the only call recorded is the one to
    [DatsForRom]; there is no call to [IndexRom], [SHA1InDepot],
    [reserveRoot] or the blob writer; the depot (its sizes, its cursor, its
    index) and the file system are what they were. *)
Theorem archive_only_needed_skips `{Codec} `{OS} (w : archiveWorker) (wd : World)
    (ro : readerOpener) (name path : string) (size : Z)
    (r : File) (hashes : Hashes) (dats : list Dat) :
  ro (fs wd) = Ok r → forReader r = Ok hashes → closeFile r = None →
  md5_Size ≤ length (md5crcBuffer w) →
  DatsForRom (romDB (depot wd)) (hashedRom hashes name path size) = Ok dats →
  (∀ dat, dat ∈ dats → Dat_Artificial dat = true) →
  ∃ wd' w',
    archive true w wd ro name path size = (wd', w', Ok 0%Z)
    ∧ depot wd' = depot wd
    ∧ fs wd' = fs wd
    ∧ calls wd' = calls wd ++ [CallDatsForRom (hashedRom hashes name path size)].
Proof.
  intros Hro Hhash Hclose Hbuf Hdats Hart.
  unfold archive. rewrite Hro, Hhash, Hclose. simpl.
  rewrite decide_False by lia. simpl. rewrite Hdats.
  assert (existsb (λ dat, negb (Dat_Artificial dat)) dats = false) as ->.
  { clear Hdats. induction dats as [|dat dats IH]; [done|]. simpl.
    rewrite (Hart dat) by left. simpl. apply IH. intros d Hd. apply Hart. by right. }
  simpl. eexists _, _. split; [reflexivity|]. done.
Qed.

Lemma archive_only_needed_skips_witness :
  ∃ wd' w',
    archive true freshWorker freshWorld openSource "a" "/in/a" 12 = (wd', w', Ok 0%Z)
    ∧ depot wd' = depot freshWorld
    ∧ fs wd' = fs freshWorld
    ∧ calls wd' = calls freshWorld ++ [CallDatsForRom (hashedRom payload "a" "/in/a" 12)].
Proof.
  apply (archive_only_needed_skips freshWorker freshWorld openSource "a" "/in/a" 12
           ("/in/a", payload) payload []).
  - reflexivity.
  - reflexivity.
  - reflexivity.
  - vm_compute. lia.
  - reflexivity.
  - intros dat Hdat. by apply elem_of_nil in Hdat.
Defined.

Lemma string_app_assoc (a b c : string) : ((a ++ b) ++ c = a ++ (b ++ c))%string.
Proof. induction a as [|x a IH]; [done|]. exact (f_equal (String x) IH). Qed.

(** What [writeResumeLogEntry] writes when it writes: the two operands of
    [Fprint] one after the other, the format string first. *)
Lemma writeResumeLogEntry_log `{OS} (depot : Depot) (o o' : Observer) (c0 : string) :
  comps o !! 0 = Some c0 → c0 ≠ "" →
  writeResumeLogEntry depot o = Ok o' →
  ∃ least, sortStrings (comps o) !! 0 = Some least
           ∧ resumeLog o' = (resumeLog o ++ "%s" ++ newline ++ least)%string.
Proof.
  intros Hc0 Hne. unfold writeResumeLogEntry. rewrite Hc0.
  rewrite decide_True by done.
  destruct (sortStrings (comps o) !! 0) as [least|]; [|done].
  destruct (writeSizes depot (obs_fs o)) as [fs'|e]; simpl; [|done].
  intros [= <-]. exists least. split; [done|]. simpl.
  unfold Fprint. simpl. by rewrite !string_app_assoc.
Qed.

(** C7. With one worker whose last completed path is [/in/a], the tick of
    the observer writes the format string [%s], a newline and then the path
    with no newline after it, where the resume log should get the line
    [/in/a] followed by a newline. *)
Theorem resume_log_entry_is_not_a_line :
  ∃ o', runObserver oneRoot (newObserver 1 sourceFS) oneCompletion = Ok o'
        ∧ comps o' = ["/in/a"]
        ∧ resumeLog o' = ("%s" ++ newline ++ "/in/a")%string
        ∧ resumeLog o' ≠ ("/in/a" ++ newline)%string.
Proof.
  eexists. split; [vm_compute; reflexivity|].
  split; [reflexivity|]. split; [reflexivity|]. discriminate.
Qed.

(** The entry is written only when worker 0 has completed a path: with two
    workers of which only worker 1 has, a tick leaves the log empty. *)
Lemma resume_log_waits_for_worker_zero :
  ∃ o', runObserver oneRoot (newObserver 2 sourceFS) [Completed "/in/b" 1; Tick] = Ok o'
        ∧ comps o' = [""; "/in/b"]
        ∧ resumeLog o' = "".
Proof.
  eexists. split; [vm_compute; reflexivity|]. split; reflexivity.
Qed.

(** ** The index keeps the [dats] map authoritative *)

Section invariant.
Context `{Codec}.

Local Ltac slia := unfold sha1_Size in *; lia.

Lemma good_mono (D D' : bytes → Prop) v :
  (∀ d, D d → D' d) → good D v → good D' v.
Proof. intros Hsub [Hal Hin]. split; [done|]. intros d Hd. by apply Hsub, Hin. Qed.

Lemma storeGood_mono (D D' : bytes → Prop) st :
  (∀ d, D d → D' d) → storeGood D st → storeGood D' st.
Proof. intros Hsub Hst k v Hk. by apply (good_mono D D'), (Hst k). Qed.

Lemma opGood_mono (D D' : bytes → Prop) l :
  (∀ d, D d → D' d) → Forall (opGood D) l → Forall (opGood D') l.
Proof.
  intros Hsub Hl. eapply Forall_impl; [done|].
  intros [k v|k v|k]; simpl; [| |done]; by apply good_mono.
Qed.

Lemma good_nil D : good D [].
Proof. split; [done|]. intros d Hd. by apply elem_of_nil in Hd. Qed.

Lemma digests_single d : length d = sha1_Size → digests d = [d].
Proof.
  intros Hlen. unfold digests. rewrite Hlen. simpl.
  rewrite take_ge by slia. done.
Qed.

Lemma good_single (D : bytes → Prop) d : length d = sha1_Size → D d → good D d.
Proof.
  intros Hlen Hd. split; [unfold digest_aligned; by rewrite Hlen|].
  rewrite digests_single by done. by intros ? ->%list_elem_of_singleton.
Qed.

(** Union-append of good values is good. *)
Lemma appendUniqueSha1_good D cur v r :
  good D cur → good D v → appendUniqueSha1 cur v = Some r → good D r.
Proof.
  intros [Hc Hcd] [Hv Hvd] Hrun.
  destruct (appendUniqueSha1_fresh cur v Hc Hv) as (Heq & Hal & Hds).
  rewrite Heq in Hrun. inversion Hrun; subst. split; [done|].
  intros d. rewrite Hds, elem_of_app, fresh_elem. intros [?|[? _]]; auto.
Qed.

Lemma appendUniqueSha1_total cur v :
  digest_aligned cur → digest_aligned v → is_Some (appendUniqueSha1 cur v).
Proof.
  intros Hc Hv. destruct (appendUniqueSha1_fresh cur v Hc Hv) as (-> & _).
  eauto.
Qed.

Lemma applyOp_good D m op m' :
  (∀ k v, m !! k = Some v → good D v) → opGood D op →
  applyOp m op = Ok m' → ∀ k v, m' !! k = Some v → good D v.
Proof.
  intros Hm Hop Hrun k v.
  destruct op as [k0 v0|k0 v0|k0]; simpl in *.
  - inversion Hrun; subst. rewrite lookup_insert. case_decide; [|by apply Hm].
    by intros [= <-].
  - destruct (appendUniqueSha1 (default [] (m !! k0)) v0) as [r|] eqn:Happ; [|done].
    inversion Hrun; subst. rewrite lookup_insert. case_decide; [|by apply Hm].
    intros [= <-]. apply (appendUniqueSha1_good D (default [] (m !! k0)) v0 r); [|done|done].
    destruct (m !! k0) as [cur|] eqn:Hcur; simpl; [by apply (Hm k0)|apply good_nil].
  - inversion Hrun; subst. rewrite lookup_delete. case_decide; [done|by apply Hm].
Qed.

Lemma applyOps_good D l m m' :
  (∀ k v, m !! k = Some v → good D v) → Forall (opGood D) l →
  applyOps m l = Ok m' → ∀ k v, m' !! k = Some v → good D v.
Proof.
  revert m. induction l as [|op l IH]; intros m Hm Hl Hrun; simpl in Hrun.
  - by inversion Hrun; subst.
  - apply Forall_cons in Hl as [Hop Hl].
    destruct (applyOp m op) as [m1|e] eqn:Hop1; simpl in Hrun; [|done].
    apply (IH m1); [|done|done]. by apply (applyOp_good D m op).
Qed.

Lemma WriteBatch_good D st b st' :
  storeGood D st → Forall (opGood D) (ops b) → WriteBatch st b = Ok st' →
  storeGood D st' ∧ keySize st' = keySize st.
Proof.
  unfold WriteBatch, storeGood. intros Hst Hb Hrun.
  destruct (applyOps (data st) (ops b)) as [m'|e] eqn:Happ; simpl in Hrun; [|done].
  inversion Hrun; subst; simpl. split; [|done].
  by apply (applyOps_good D (ops b) (data st)).
Qed.

Lemma WriteBatch_keySize st b st' : WriteBatch st b = Ok st' → keySize st' = keySize st.
Proof.
  unfold WriteBatch. destruct (applyOps (data st) (ops b)); simpl; [|done].
  by intros [= <-].
Qed.

(** A batch of [Set]s cannot fail; it keeps the keys and adds its own. *)
Lemma applyOps_sets l m :
  Forall isSet l →
  ∃ m', applyOps m l = Ok m'
        ∧ (∀ d, is_Some (m !! d) → is_Some (m' !! d))
        ∧ (∀ k v, OpSet k v ∈ l → is_Some (m' !! k)).
Proof.
  revert m. induction l as [|op l IH]; intros m Hl; simpl.
  - exists m. split_and!; [done|done|]. intros k v Hin. by apply elem_of_nil in Hin.
  - apply Forall_cons in Hl as [Hop Hl]. destruct op as [k0 v0| |]; try done. simpl.
    destruct (IH (<[k0:=v0]> m) Hl) as (m' & -> & Hkeep & Hnew).
    exists m'. split_and!; [done| |].
    + intros d Hd. apply Hkeep. rewrite lookup_insert. case_decide; [eauto|done].
    + intros k v [[= -> ->]|Hin]%elem_of_cons; [|by apply (Hnew k v)].
      apply Hkeep. rewrite lookup_insert_eq. eauto.
Qed.

Lemma BatchAppend_inv b k v b' :
  BatchAppend b k v = Ok b' → b' = push b (OpAppend k v).
Proof. unfold BatchAppend. case_decide; [|done]. by intros [= <-]. Qed.

Lemma BatchSet_inv b k v b' :
  BatchSet b k v = Ok b' → b' = push b (OpSet k v).
Proof. unfold BatchSet. case_decide; [|done]. by intros [= <-]. Qed.

Lemma Get_good D st k o : storeGood D st → Get st k = Ok o → good D (arg o).
Proof.
  unfold Get. intros Hst. case_decide; [|done]. intros [= <-].
  destruct (data st !! k) as [v|] eqn:Hv; simpl; [by apply (Hst k)|apply good_nil].
Qed.

(** Taking the results of the calls on a batch apart. *)
Ltac step :=
  match goal with
  | H : res_bind ?r _ = Ok _ |- _ => destruct r eqn:?; simpl in H; [|done]
  | H : match ?x with _ => _ end = Ok _ |- _ => destruct x eqn:?; simpl in H; try done
  | H : Ok _ = Ok _ |- _ => inversion H; subst; clear H
  end.

Ltac appended :=
  repeat match goal with
         | E : BatchAppend _ _ _ = Ok _ |- _ => apply BatchAppend_inv in E; subst
         | E : BatchSet _ _ _ = Ok _ |- _ => apply BatchSet_inv in E; subst
         end.

Ltac solve_good :=
  unfold ready, batchGood, covered in *; simpl in *;
  rewrite ?Forall_app, ?Forall_cons, ?Forall_nil; simpl;
  repeat split; try assumption; try tauto; auto using good_single.

Lemma indexDatRom_ready db sb kvb r kvb' :
  length sb = sha1_Size → ready db sb kvb →
  indexDatRom sb kvb r = Ok kvb' → ready db sb kvb'.
Proof.
  intros Hlen [(Hk & Hd & Hc & Hm & Hs) Hcov] Hrun. unfold indexDatRom in Hrun.
  pose proof (good_single (covered db kvb) sb Hlen Hcov) as [Hg1 Hg2].
  repeat step; appended; solve_good.
Qed.

Lemma indexDatRoms_ready db sb roms kvb kvb' :
  length sb = sha1_Size → ready db sb kvb →
  indexDatRoms sb kvb roms = Ok kvb' → ready db sb kvb'.
Proof.
  intros Hlen. revert kvb. induction roms as [|r roms IH]; intros kvb Hr Hrun;
    simpl in Hrun.
  - by inversion Hrun; subst.
  - step. eapply IH; [|eassumption]. eapply indexDatRom_ready; eauto.
Qed.

Lemma indexDatGames_ready db sb games kvb kvb' :
  length sb = sha1_Size → ready db sb kvb →
  indexDatGames sb kvb games = Ok kvb' → ready db sb kvb'.
Proof.
  intros Hlen. revert kvb. induction games as [|g games IH]; intros kvb Hr Hrun;
    simpl in Hrun.
  - by inversion Hrun; subst.
  - step. eapply IH; [|eassumption]. eapply indexDatRoms_ready; eauto.
Qed.

Lemma covered_mono db kvb kvb' d :
  (∀ op, op ∈ ops (datsBatch kvb) → op ∈ ops (datsBatch kvb')) →
  covered db kvb d → covered db kvb' d.
Proof. intros Hsub [?|[v Hv]]; [by left|right]. exists v. by apply Hsub. Qed.

Lemma kvBatch_IndexDat_good db kvb dat sb kvb' :
  length sb = sha1_Size → keySize (datsDB db) = keySizeSha1 →
  batchGood db kvb →
  kvBatch_IndexDat db kvb dat (Some sb) = Ok kvb' → batchGood db kvb'.
Proof.
  intros Hlen Hks (Hk & Hd & Hc & Hm & Hs) Hrun. unfold kvBatch_IndexDat in Hrun.
  destruct (gobEncode (set_Generation dat (generation db))) as [buf|e];
    cbn [res_bind] in Hrun; [|done].
  unfold BatchSet in Hrun.
  rewrite decide_True in Hrun by (rewrite Hk, Hks; done).
  set (kvb1 := with_datsBatch kvb (push (datsBatch kvb) (OpSet sb buf))) in *.
  assert (∀ d, covered db kvb d → covered db kvb1 d) as Hmono.
  { intros d. apply covered_mono. intros op Hop. simpl. apply elem_of_app. by left. }
  assert (ready db sb (grow kvb1 (sha1_Size + length buf))) as Hready.
  { split.
    - unfold batchGood. simpl. split_and!; [done| | | |].
      + apply Forall_app. split; [done|]. by repeat constructor.
      + by apply (opGood_mono (covered db kvb)).
      + by apply (opGood_mono (covered db kvb)).
      + by apply (opGood_mono (covered db kvb)).
    - right. exists buf. simpl. apply elem_of_app. right. by left. }
  destruct (if Dat_Artificial (set_Generation dat (generation db)) then Ok false
            else match Exists (datsDB db) sb with
                 | Ok e => Ok e
                 | Err _ => Err (ErrIO "failed to lookup sha1 indexing dats")
                 end) as [[|]|e]; cbn [res_bind] in Hrun; [| |done].
  - inversion Hrun; subst. apply Hready.
  - by apply (indexDatGames_ready db sb _ _ _ Hlen Hready Hrun).
Qed.

Lemma appendIfAny_good D cur o r :
  good D cur → good D (arg o) →
  (if decide (0 < length (arg o))
   then match appendUniqueSha1 cur (arg o) with
        | Some r => Ok r
        | None => Err Panic
        end
   else Ok cur) = Ok r →
  good D r.
Proof.
  intros Hcur Ho. case_decide.
  - destruct (appendUniqueSha1 cur (arg o)) as [r'|] eqn:Happ; [|done].
    intros [= <-]. by apply (appendUniqueSha1_good D cur (arg o)).
  - by intros [= <-].
Qed.

Lemma indexRomKnown_good db kvb rom kvb' :
  indexInvariant db → batchGood db kvb →
  indexRomKnown db kvb rom = Ok kvb' → batchGood db kvb'.
Proof.
  intros (_ & Icrc & Imd5 & _) Hb Hrun. unfold indexRomKnown in Hrun.
  destruct (Get (sha1DB db) (arg (Rom_Sha1 rom))) as [ssd|e]; simpl in Hrun; [|done].
  case_decide; [|by inversion Hrun; subst].
  (* the digests reachable through the MD5 *)
  destruct (match Rom_Md5 rom with
            | Some m =>
                ss <-? Get (md5DB db) m;
                if decide (0 < length (arg ss))
                then match appendUniqueSha1 [] (arg ss) with
                     | Some r => Ok r
                     | None => Err Panic
                     end
                else Ok []
            | None => Ok []
            end) as [sha1s1|e] eqn:H1; simpl in Hrun; [|done].
  assert (good (inDats db) sha1s1) as Hg1.
  { destruct (Rom_Md5 rom) as [m|]; [|inversion H1; apply good_nil].
    destruct (Get (md5DB db) m) as [ss|e] eqn:Hget; simpl in H1; [|done].
    apply (appendIfAny_good (inDats db) [] ss); [apply good_nil| |done].
    by apply (Get_good _ (md5DB db) m). }
  (* and through the CRC *)
  destruct (match Rom_Crc rom with
            | Some c =>
                ss <-? Get (crcDB db) c;
                if decide (0 < length (arg ss))
                then match appendUniqueSha1 sha1s1 (arg ss) with
                     | Some r => Ok r
                     | None => Err Panic
                     end
                else Ok sha1s1
            | None => Ok sha1s1
            end) as [sha1s2|e] eqn:H2; simpl in Hrun; [|done].
  assert (good (inDats db) sha1s2) as Hg2.
  { destruct (Rom_Crc rom) as [c|]; [|by inversion H2; subst].
    destruct (Get (crcDB db) c) as [ss|e] eqn:Hget; simpl in H2; [|done].
    apply (appendIfAny_good (inDats db) sha1s1 ss); [done| |done].
    by apply (Get_good _ (crcDB db) c). }
  case_decide; [|by inversion Hrun; subst].
  destruct (BatchSet (sha1Batch kvb) (arg (Rom_Sha1 rom)) sha1s2) as [b|e] eqn:Hset;
    [|by inversion Hrun; subst].
  apply BatchSet_inv in Hset. inversion Hrun; subst.
  destruct Hb as (Hk & Hd & Hc & Hm & Hs).
  unfold batchGood. simpl. split_and!; try done.
  apply Forall_app. split; [done|]. apply Forall_singleton. simpl.
  apply (good_mono (inDats db)); [|done]. intros d Hd'. by left.
Qed.

Lemma kvBatch_IndexRom_good db kvb rom kvb' :
  indexInvariant db → batchGood db kvb →
  kvBatch_IndexRom db kvb rom = Ok kvb' → batchGood db kvb'.
Proof.
  intros Hinv Hb Hrun. unfold kvBatch_IndexRom in Hrun.
  destruct (match Rom_Sha1 rom with
            | Some rs =>
                kvb <-? match Rom_Crc rom with
                        | Some rc =>
                            b <-? BatchAppend (crcsha1Batch kvb) rc rs;
                            Ok (grow (with_crcsha1Batch kvb b) sha1_Size)
                        | None => Ok kvb
                        end;
                match Rom_Md5 rom with
                | Some rm =>
                    b <-? BatchAppend (md5sha1Batch kvb) rm rs;
                    Ok (grow (with_md5sha1Batch kvb b) sha1_Size)
                | None => Ok kvb
                end
            | None => Ok kvb
            end) as [kvb0|e] eqn:H0; simpl in Hrun; [|done].
  assert (batchGood db kvb0) as Hb0.
  { clear Hrun. destruct Hb as (Hk & Hd & Hc & Hm & Hs).
    repeat step; appended; solve_good. }
  destruct (DatsForRom db rom) as [dats|e]; simpl in Hrun; [|done].
  case_decide.
  - by apply (indexRomKnown_good db kvb0 rom).
  - destruct (gobEncode (artificialDat db rom)) as [buf|e]; simpl in Hrun; [|done].
    destruct Hinv as ((Hks & _) & _).
    apply (kvBatch_IndexDat_good db kvb0 (artificialDat db rom) (sha1Sum buf));
      [apply sha1Sum_length|done|done|done].
Qed.

Lemma WriteBatch_sets st b :
  Forall isSet (ops b) →
  ∃ st', WriteBatch st b = Ok st' ∧ keySize st' = keySize st
         ∧ (∀ d, is_Some (data st !! d) → is_Some (data st' !! d))
         ∧ (∀ k v, OpSet k v ∈ ops b → is_Some (data st' !! k)).
Proof.
  intros Hb. destruct (applyOps_sets (ops b) (data st) Hb) as (m' & Hrun & ? & ?).
  exists (mkStore (keySize st) m'). unfold WriteBatch. rewrite Hrun. done.
Qed.

(** Writing a good batch keeps the invariant, whether the write goes
    through or stops at a store. *)
Lemma Flush_invariant db kvb db' kvb' err :
  indexInvariant db → batchGood db kvb →
  Flush db kvb = (db', kvb', err) → indexInvariant db'.
Proof.
  intros (Hopen & Icrc & Imd5 & Isha1) (Hk & Hd & Hc & Hm & Hs) Hrun.
  unfold Flush in Hrun. case_decide; [by inversion Hrun; subst|].
  destruct (WriteBatch_sets (datsDB db) (datsBatch kvb) Hd)
    as (st1 & Hw1 & Hk1 & Hkeep & Hnew).
  rewrite Hw1 in Hrun. simpl in Hrun.
  set (D := λ d, is_Some (data st1 !! d)).
  assert (∀ d, covered db kvb d → D d) as Hcov.
  { intros d [Hin|[v Hv]]; [by apply Hkeep | by apply (Hnew d v)]. }
  assert (∀ d, inDats db d → D d) as Hin by (intros d Hd'; apply Hcov; by left).
  apply (storeGood_mono _ D _ Hin) in Icrc, Imd5, Isha1.
  apply (opGood_mono _ D _ Hcov) in Hc, Hm, Hs.
  destruct Hopen as (O1 & O2 & O3 & O4 & O5 & O6).
  destruct (WriteBatch (crcDB db) (crcBatch kvb)) as [st2|e2] eqn:Hw2;
    [destruct (WriteBatch_good D _ _ _ Icrc Hc Hw2) as [G2 K2]
    |inversion Hrun; subst; unfold indexInvariant, openedAsNew, inDats; simpl;
     split_and!; done || congruence].
  destruct (WriteBatch (md5DB db) (md5Batch kvb)) as [st3|e3] eqn:Hw3;
    [destruct (WriteBatch_good D _ _ _ Imd5 Hm Hw3) as [G3 K3]
    |inversion Hrun; subst; unfold indexInvariant, openedAsNew, inDats; simpl;
     split_and!; done || congruence].
  destruct (WriteBatch (sha1DB db) (sha1Batch kvb)) as [st4|e4] eqn:Hw4;
    [destruct (WriteBatch_good D _ _ _ Isha1 Hs Hw4) as [G4 K4]
    |inversion Hrun; subst; unfold indexInvariant, openedAsNew, inDats; simpl;
     split_and!; done || congruence].
  destruct (WriteBatch (crcsha1DB db) (crcsha1Batch kvb)) as [st5|e5] eqn:Hw5;
    [pose proof (WriteBatch_keySize _ _ _ Hw5) as K5
    |inversion Hrun; subst; unfold indexInvariant, openedAsNew, inDats; simpl;
     split_and!; done || congruence].
  destruct (WriteBatch (md5sha1DB db) (md5sha1Batch kvb)) as [st6|e6] eqn:Hw6;
    [pose proof (WriteBatch_keySize _ _ _ Hw6) as K6
    |inversion Hrun; subst; unfold indexInvariant, openedAsNew, inDats; simpl;
     split_and!; done || congruence].
  inversion Hrun; subst; unfold indexInvariant, openedAsNew, inDats; simpl;
    split_and!; done || congruence.
Qed.

Lemma StartBatch_good db : batchGood db (StartBatch db).
Proof. unfold batchGood, StartBatch. simpl. split_and!; by try constructor. Qed.

(** Both operations keep the invariant, whatever they return. *)
Lemma runIndexOp_invariant db op :
  indexInvariant db → wellFormedOp op → indexInvariant (runIndexOp db op).1.
Proof.
  intros Hinv Hop.
  destruct op as [rom|dat sb]; simpl; unfold kvStore_IndexRom, kvStore_IndexDat.
  - destruct (kvBatch_IndexRom db (StartBatch db) rom) as [batch|e] eqn:Hrun; [|done].
    unfold Close. destruct (Flush db batch) as [[db' kvb'] err] eqn:Hflush. simpl.
    apply (Flush_invariant db batch db' kvb' err); [done| |done].
    apply (kvBatch_IndexRom_good db (StartBatch db) rom); [done| |done].
    apply StartBatch_good.
  - destruct (kvBatch_IndexDat db (StartBatch db) dat (Some sb)) as [batch|e] eqn:Hrun;
      [|done].
    unfold Close. destruct (Flush db batch) as [[db' kvb'] err] eqn:Hflush. simpl.
    apply (Flush_invariant db batch db' kvb' err); [done| |done].
    destruct Hinv as ((Hks & _) & _).
    apply (kvBatch_IndexDat_good db (StartBatch db) dat sb); [done|done| |done].
    apply StartBatch_good.
Qed.

Lemma invariant_unionMapsInDats db : indexInvariant db → unionMapsInDats db.
Proof.
  intros (_ & Icrc & Imd5 & Isha1) st k v d Hst Hk Hd.
  repeat (apply elem_of_cons in Hst as [->|Hst]);
    [by apply (Icrc k v) | by apply (Imd5 k v) | by apply (Isha1 k v)
    | by apply elem_of_nil in Hst].
Qed.

End invariant.

Lemma emptyDB_invariant : indexInvariant fixtures.emptyDB.
Proof.
  unfold indexInvariant, openedAsNew, storeGood. simpl.
  split_and!; try done; intros k v Hk; by rewrite lookup_empty in Hk.
Qed.

(** Every index reached from the empty one by index operations has the
    invariant. *)
Lemma reachable_invariant `{Codec} (l : list IndexOp) :
  Forall wellFormedOp l → indexInvariant (runIndexOps fixtures.emptyDB l).
Proof.
  unfold runIndexOps. generalize fixtures.emptyDB, emptyDB_invariant.
  induction l as [|op l IH]; intros db Hinv Hl; simpl; [done|].
  apply Forall_cons in Hl as [Hop Hl].
  apply IH; [|done]. by apply runIndexOp_invariant.
Qed.

(** C3. The invariant of the index (the stores have the key sizes they are
    opened with; every value of the [crc], [md5] and [sha1] maps is a
    concatenation of 20-byte digests, each of them a key of the [dats] map)
    is kept by every completed index operation: after [IndexRom], or after
    [IndexDat] on a 20-byte Dat digest, followed by the flush of its batch,
    every Dat-SHA1 inside a value of a union-map is a key of [dats]. The
    empty index has the invariant. *)
Theorem index_operations_keep_dats_authoritative `{Codec}
    (db db' : kvStore) (op : IndexOp) :
  indexInvariant db → wellFormedOp op →
  runIndexOp db op = (db', None) →
  indexInvariant db' ∧ unionMapsInDats db'.
Proof.
  intros Hinv Hop Hrun.
  pose proof (runIndexOp_invariant db op Hinv Hop) as Hinv'.
  rewrite Hrun in Hinv'. simpl in Hinv'.
  split; [done | by apply invariant_unionMapsInDats].
Qed.

Lemma index_operations_keep_dats_authoritative_witness :
  indexInvariant (runIndexOp fixtures.emptyDB sampleOp).1
  ∧ unionMapsInDats (runIndexOp fixtures.emptyDB sampleOp).1.
Proof.
  apply (index_operations_keep_dats_authoritative fixtures.emptyDB
           (runIndexOp fixtures.emptyDB sampleOp).1 sampleOp).
  - apply emptyDB_invariant.
  - reflexivity.
  - vm_compute. reflexivity.
Defined.

(** ** More on the depot *)

Section depot_more.

Implicit Types (d : Depot) (i j size : Z).

Lemma index_is_Some {A} (l : list A) i :
  (0 ≤ i < Z.of_nat (length l))%Z → is_Some (index l i).
Proof.
  intros Hi. unfold index. rewrite decide_True by lia.
  apply lookup_lt_is_Some. lia.
Qed.

(** The loop of [reserveRoot] on arrays that cover the roots: it returns the
    first root from [i] on that fits, or fails for want of space when none
    does. *)
Lemma reserveLoop_first_fit n i d size :
  (0 ≤ i)%Z →
  (i + Z.of_nat n ≤ Z.of_nat (length (sizes d)))%Z →
  (i + Z.of_nat n ≤ Z.of_nat (length (maxSizes d)))%Z →
  length (roots d) ≤ length (sizes d) → length (roots d) ≤ length (maxSizes d) →
  match (reserveLoop n i d size).2 with
  | Ok k => (i ≤ k < i + Z.of_nat n)%Z ∧ fits d size k
            ∧ ∀ j, (i ≤ j < k)%Z → ¬ fits d size j
  | Err e => e = ErrOutOfSpace ∧ ∀ j, (i ≤ j < i + Z.of_nat n)%Z → ¬ fits d size j
  end.
Proof.
  revert i d. induction n as [|n IH]; intros i d Hi Hs Hm Hrs Hrm; simpl.
  - rewrite decide_True by done. simpl. split; [done|]. intros j Hj. lia.
  - destruct (index_is_Some (sizes d) i) as [s Hsi]; [lia|].
    destruct (index_is_Some (maxSizes d) i) as [m Hmi]; [lia|].
    rewrite Hsi, Hmi.
    assert (∀ j, (i ≤ j)%Z → ¬ (add64 s size < m)%Z →
                 (∀ j', (i + 1 ≤ j' < j)%Z → ¬ fits d size j') →
                 ∀ j', (i ≤ j' < j)%Z → ¬ fits d size j') as Hstep.
    { intros j Hj Hno Hrest j' Hj' Hfit.
      destruct (decide (j' = i)) as [->|Hne]; [|apply (Hrest j'); [lia|done]].
      destruct Hfit as (s' & m' & Hs' & Hm' & Hlt).
      rewrite Hsi in Hs'. rewrite Hmi in Hm'. simplify_eq. done. }
    case_decide as Hfit; simpl.
    + split; [lia|]. split; [by exists s, m|]. intros j Hj. lia.
    + case_decide as Hfull.
      * specialize (IH (i + 1)%Z (with_start d i)). simpl in IH.
        destruct (reserveLoop n (i + 1) (with_start d i) size) as [d' [k|e]]; simpl in *.
        -- destruct IH as (Hk & Hfk & Hmin); try lia.
           split; [lia|]. split; [exact Hfk|].
           apply (Hstep k); [lia|done|exact Hmin].
        -- destruct IH as (-> & Hnone); try lia. split; [done|].
           intros j Hj. apply (Hstep (i + Z.of_nat (S n))%Z); [lia|done| |lia].
           intros j' Hj'. apply Hnone. lia.
      * specialize (IH (i + 1)%Z d).
        destruct (reserveLoop n (i + 1) d size) as [d' [k|e]]; simpl in *.
        -- destruct IH as (Hk & Hfk & Hmin); try lia.
           split; [lia|]. split; [exact Hfk|].
           apply (Hstep k); [lia|done|exact Hmin].
        -- destruct IH as (-> & Hnone); try lia. split; [done|].
           intros j Hj. apply (Hstep (i + Z.of_nat (S n))%Z); [lia|done| |lia].
           intros j' Hj'. apply Hnone. lia.
Qed.

Lemma reserveLoop_wf n i d size :
  (0 ≤ i)%Z → (i + Z.of_nat n ≤ Z.of_nat (length (roots d)))%Z →
  depotWf d → depotWf (reserveLoop n i d size).1.
Proof.
  revert i d. induction n as [|n IH]; intros i d Hi Hn Hwf; simpl.
  - by case_decide.
  - destruct (index (sizes d) i) as [s|] eqn:Hsi; [|done].
    destruct (index (maxSizes d) i) as [m|]; [|done].
    destruct Hwf as (Hs & Hm & Hst).
    case_decide; simpl.
    + unfold depotWf. simpl. by rewrite length_insert.
    + case_decide.
      * apply IH; [lia | simpl; lia |]. unfold depotWf. simpl.
        by pose proof (index_bounds _ _ _ Hsi); split_and!; try done; lia.
      * apply IH; [lia | lia |]. by unfold depotWf.
Qed.

End depot_more.

(** X1. On a depot whose arrays have one entry per root, [reserveRoot] never
    panics and is first-fit: it returns the lowest root from the cursor on
    for which [sizes[i] + size < maxSizes[i]] holds, and it fails with the
    out-of-space error exactly when no root from the cursor on has room. The
    depot it leaves is again well formed. *)
Theorem reserveRoot_first_fit (d : Depot) (size : Z) :
  depotWf d →
  depotWf (reserveRoot d size).1
  ∧ match (reserveRoot d size).2 with
    | Ok i => (start d ≤ i < Z.of_nat (length (roots d)))%Z ∧ fits d size i
              ∧ ∀ j, (start d ≤ j < i)%Z → ¬ fits d size j
    | Err e => e = ErrOutOfSpace
               ∧ ∀ j, (start d ≤ j < Z.of_nat (length (roots d)))%Z → ¬ fits d size j
    end.
Proof.
  intros Hwf. pose proof Hwf as (Hs & Hm & Hst). unfold reserveRoot. split.
  - apply reserveLoop_wf; [lia|lia|done].
  - pose proof (reserveLoop_first_fit
                  (Z.to_nat (Z.of_nat (length (roots d)) - start d)) (start d) d size)
      as Hloop.
    destruct (reserveLoop _ (start d) d size) as [d' [k|e]]; simpl in *.
    + destruct Hloop as (Hk & Hf & Hmin); try lia. split; [lia|]. done.
    + destruct Hloop as (-> & Hnone); try lia. split; [done|].
      intros j Hj. apply Hnone. lia.
Qed.

Lemma reserveRoot_first_fit_witness :
  depotWf (reserveRoot (twoRoots 9 0 10 10) 3).1
  ∧ match (reserveRoot (twoRoots 9 0 10 10) 3).2 with
    | Ok i => (start (twoRoots 9 0 10 10) ≤ i
               < Z.of_nat (length (roots (twoRoots 9 0 10 10))))%Z
              ∧ fits (twoRoots 9 0 10 10) 3 i
              ∧ ∀ j, (start (twoRoots 9 0 10 10) ≤ j < i)%Z
                     → ¬ fits (twoRoots 9 0 10 10) 3 j
    | Err e => e = ErrOutOfSpace
               ∧ ∀ j, (start (twoRoots 9 0 10 10) ≤ j
                       < Z.of_nat (length (roots (twoRoots 9 0 10 10))))%Z
                      → ¬ fits (twoRoots 9 0 10 10) 3 j
    end.
Proof.
  apply (reserveRoot_first_fit (twoRoots 9 0 10 10) 3).
  unfold depotWf. simpl. lia.
Defined.

(** Sums of [int64] values may be taken before or after the wrap-around. *)
Lemma wrap64_add_wrap (a b : Z) : wrap64 (wrap64 a + wrap64 b) = wrap64 (a + b).
Proof.
  unfold wrap64.
  rewrite (Z.mod_eq (a + 2 ^ 63) (2 ^ 64)) by lia.
  rewrite (Z.mod_eq (b + 2 ^ 63) (2 ^ 64)) by lia.
  set (ka := ((a + 2 ^ 63) `div` 2 ^ 64)%Z). set (kb := ((b + 2 ^ 63) `div` 2 ^ 64)%Z).
  replace (a + 2 ^ 63 - 2 ^ 64 * ka - 2 ^ 63 + (b + 2 ^ 63 - 2 ^ 64 * kb - 2 ^ 63)
           + 2 ^ 63)%Z
    with (a + b + 2 ^ 63 + (- (ka + kb)) * 2 ^ 64)%Z by lia.
  by rewrite Z_mod_plus_full.
Qed.

(** Reserving and then adjusting adds the actual size. *)
Lemma reserve_then_adjust_aux (d d1 : Depot) (est actual i : Z) :
  reserveRoot d est = (d1, Ok i) →
  ∃ s d2,
    index (sizes d) i = Some s
    ∧ adjustSize d1 i (sub64 actual est) = Ok d2
    ∧ index (sizes d2) i = Some (wrap64 (s + actual))
    ∧ (∀ j, j ≠ i → index (sizes d2) j = index (sizes d) j)
    ∧ roots d2 = roots d ∧ maxSizes d2 = maxSizes d ∧ romDB d2 = romDB d.
Proof.
  unfold reserveRoot. intros Hrun.
  apply reserveLoop_ok in Hrun as (Hi & Hr & Hm & Hdb & s & m & Hs & Hmi & Hfit & Hsz).
  pose proof (index_bounds _ _ _ Hs) as Hb.
  assert (index (sizes d1) i = Some (add64 s est)) as H1
    by (rewrite Hsz; apply index_insert_eq; eauto).
  exists s. unfold adjustSize. rewrite H1. eexists. split; [done|]. split; [done|].
  simpl.
  assert (add64 (add64 s est) (sub64 actual est) = wrap64 (s + actual)) as Hsum.
  { unfold add64, sub64. rewrite wrap64_add_wrap. f_equal. lia. }
  split_and!; try done.
  - rewrite <- Hsum. apply index_insert_eq. eauto.
  - intros j Hne. rewrite index_insert_ne by (done || lia).
    rewrite Hsz. apply index_insert_ne; [done|lia].
Qed.

(** X2. A reservation of [est] bytes followed by [adjustSize(i, actual - est)]
    on the root reserved cannot panic and leaves that root with its old size
    plus [actual] (in the arithmetic of [int64]: the estimate cancels out
    whatever it was); the other sizes, the roots and the maxima are as
    before the reservation. *)
Theorem reserve_then_adjust (d d1 : Depot) (est actual i : Z) :
  reserveRoot d est = (d1, Ok i) →
  ∃ s d2,
    index (sizes d) i = Some s
    ∧ adjustSize d1 i (sub64 actual est) = Ok d2
    ∧ index (sizes d2) i = Some (wrap64 (s + actual))
    ∧ (int64_range (s + actual) → index (sizes d2) i = Some (s + actual)%Z)
    ∧ (∀ j, j ≠ i → index (sizes d2) j = index (sizes d) j)
    ∧ roots d2 = roots d ∧ maxSizes d2 = maxSizes d.
Proof.
  intros Hrun.
  destruct (reserve_then_adjust_aux d d1 est actual i Hrun)
    as (s & d2 & Hs & Hadj & Hnew & Hother & Hroots & Hmax & _).
  exists s, d2. split_and!; try done.
  intros Hrange. rewrite Hnew. by rewrite wrap64_in_range.
Qed.

Lemma reserve_then_adjust_witness :
  ∃ s d2,
    index (sizes (twoRoots 9 0 10 10)) 1 = Some s
    ∧ adjustSize (twoRoots 9 3 10 10) 1 (sub64 5 3) = Ok d2
    ∧ index (sizes d2) 1 = Some (wrap64 (s + 5))
    ∧ (int64_range (s + 5) → index (sizes d2) 1 = Some (s + 5)%Z)
    ∧ (∀ j, j ≠ 1%Z → index (sizes d2) j = index (sizes (twoRoots 9 0 10 10)) j)
    ∧ roots d2 = roots (twoRoots 9 0 10 10)
    ∧ maxSizes d2 = maxSizes (twoRoots 9 0 10 10).
Proof.
  apply (reserve_then_adjust (twoRoots 9 0 10 10) (twoRoots 9 3 10 10) 3 5 1).
  reflexivity.
Defined.

(** ** More on looking up blobs *)

Section blobs_more.
Context `{OS}.

Local Ltac slia := unfold sha1_Size in *; lia.

(** [SHA1InDepot] and the loop of [OpenRomGZ] for one digest make the same
    probes and stop at the same root. *)
Lemma openFirst_sha1InRoots fs rs sha1 :
  match sha1InRoots fs rs (EncodeToString sha1) with
  | Ok false => openFirst fs rs (EncodeToString sha1) = Ok None
  | Ok true =>
      ∃ rpre root rpost,
        rs = rpre ++ root :: rpost
        ∧ (∀ r, r ∈ rpre → PathExists fs (blobPath r sha1) = Ok false)
        ∧ PathExists fs (blobPath root sha1) = Ok true
        ∧ openFirst fs rs (EncodeToString sha1) = openResult fs (blobPath root sha1)
  | Err e => openFirst fs rs (EncodeToString sha1) = Err e
  end.
Proof.
  induction rs as [|r rs IH]; simpl; [done|].
  destruct (PathExists fs (pathFromSha1HexEncoding r (EncodeToString sha1) gzipSuffix))
    as [[|]|e] eqn:Hex; simpl; [| |done].
  - exists [], r, rs. split_and!; try done. intros r' Hr'. by apply elem_of_nil in Hr'.
  - destruct (sha1InRoots fs rs (EncodeToString sha1)) as [[|]|e]; [|done|done].
    destruct IH as (rpre & root & rpost & -> & Hpre & Hroot & Hopen).
    exists (r :: rpre), root, rpost. split_and!; try done.
    intros r' [->|Hr']%elem_of_cons; [done|by apply Hpre].
Qed.

Lemma openCandidates_at fs depot rom n pre rest cpre c cpost res :
  length rest = sha1_Size * n →
  chunks n rest = cpre ++ c :: cpost →
  (∀ c' r, c' ∈ cpre → r ∈ roots depot → noMatch fs rom (blobPath r c')) →
  openMatching fs rom (roots depot) (EncodeToString c) = res → res ≠ Ok None →
  openCandidates fs depot rom (pre ++ rest) n (length pre) = res.
Proof.
  intros Hlen Hch Hcs Hhit Hres. revert pre rest cpre Hlen Hch Hcs.
  induction n as [|n IH]; intros pre rest cpre Hlen Hch Hcs.
  - simpl in Hch. by destruct cpre.
  - simpl. rewrite slice_at by slia.
    destruct cpre as [|c' cpre]; simpl in Hch; injection Hch as Hc Htl.
    + rewrite Hc, Hhit. by destruct res as [[f|]|e].
    + rewrite Hc. rewrite openMatching_skip
        by (intros r Hr; apply Hcs; [by left | done]).
      simpl.
      replace (pre ++ rest) with ((pre ++ take sha1_Size rest) ++ drop sha1_Size rest)
        by (by rewrite <- (assoc_L (++)), take_drop).
      replace (length pre + sha1_Size) with (length (pre ++ take sha1_Size rest))
        by (rewrite length_app, length_take; slia).
      apply (IH _ _ cpre); [rewrite length_drop; slia | done |].
      intros c'' r Hc'' Hr. apply Hcs; [by right | done].
Qed.

Lemma openCandidates_none fs depot rom n pre rest :
  length rest = sha1_Size * n →
  (∀ c r, c ∈ chunks n rest → r ∈ roots depot → noMatch fs rom (blobPath r c)) →
  openCandidates fs depot rom (pre ++ rest) n (length pre) = Ok None.
Proof.
  revert pre rest. induction n as [|n IH]; intros pre rest Hlen Hcs; [done|].
  simpl. rewrite slice_at by slia.
  rewrite openMatching_skip by (intros r Hr; apply Hcs; [by left | done]).
  simpl.
  replace (pre ++ rest) with ((pre ++ take sha1_Size rest) ++ drop sha1_Size rest)
    by (by rewrite <- (assoc_L (++)), take_drop).
  replace (length pre + sha1_Size) with (length (pre ++ take sha1_Size rest))
    by (rewrite length_app, length_take; slia).
  apply IH; [rewrite length_drop; slia|].
  intros c r Hc Hr. apply Hcs; [by right | done].
Qed.

(** Without a hash to compare, the loop over the roots opens the first file
    it finds. *)
Lemma openMatching_no_hashes fs rom rpre root rpost sha1 :
  Rom_Crc rom = None → Rom_Md5 rom = None →
  (∀ r, r ∈ rpre → PathExists fs (blobPath r sha1) = Ok false) →
  PathExists fs (blobPath root sha1) = Ok true →
  openMatching fs rom (rpre ++ root :: rpost) (EncodeToString sha1)
  = openResult fs (blobPath root sha1).
Proof.
  intros Hcrc Hmd5 Hpre Hex. induction rpre as [|r rpre IH]; simpl.
  - unfold blobPath in Hex. rewrite Hex. simpl.
    rewrite bool_decide_false; [done|]. rewrite Hcrc, Hmd5. tauto.
  - assert (PathExists fs (blobPath r sha1) = Ok false) as Hr by (apply Hpre; left).
    unfold blobPath in Hr. rewrite Hr. simpl.
    apply IH. intros r' Hr'. apply Hpre. by right.
Qed.

End blobs_more.

(** X3. For a rom with a single 20-byte SHA1, [OpenRomGZ] and [SHA1InDepot]
    agree: when [SHA1InDepot] says no, [OpenRomGZ] returns nothing; when it
    says yes, [OpenRomGZ] returns what opening the blob under the first root
    that has it returns; when it fails, [OpenRomGZ] fails with the same
    error. *)
Theorem OpenRomGZ_agrees_with_SHA1InDepot `{OS} (depot : Depot) (fs : FS) (rom : Rom)
    (sha1 : bytes) :
  Rom_Sha1 rom = Some sha1 → length sha1 = sha1_Size →
  match SHA1InDepot depot fs (EncodeToString sha1) with
  | Ok false => OpenRomGZ depot fs rom = Ok None
  | Ok true =>
      ∃ rpre root rpost,
        roots depot = rpre ++ root :: rpost
        ∧ (∀ r, r ∈ rpre → PathExists fs (blobPath r sha1) = Ok false)
        ∧ PathExists fs (blobPath root sha1) = Ok true
        ∧ OpenRomGZ depot fs rom = openResult fs (blobPath root sha1)
  | Err e => OpenRomGZ depot fs rom = Err e
  end.
Proof.
  intros Hsha Hlen. unfold OpenRomGZ, SHA1InDepot. rewrite Hsha.
  rewrite decide_True by done. apply openFirst_sha1InRoots.
Qed.

Lemma OpenRomGZ_agrees_with_SHA1InDepot_witness :
  match SHA1InDepot oneRoot (twoBlobs trailer1 trailer2)
          (EncodeToString (fixtures.d20 Byte.x02)) with
  | Ok false =>
      OpenRomGZ oneRoot (twoBlobs trailer1 trailer2)
        (romWithSha1 (fixtures.d20 Byte.x02)) = Ok None
  | Ok true =>
      ∃ rpre root rpost,
        roots oneRoot = rpre ++ root :: rpost
        ∧ (∀ r, r ∈ rpre →
             PathExists (twoBlobs trailer1 trailer2)
               (blobPath r (fixtures.d20 Byte.x02)) = Ok false)
        ∧ PathExists (twoBlobs trailer1 trailer2)
            (blobPath root (fixtures.d20 Byte.x02)) = Ok true
        ∧ OpenRomGZ oneRoot (twoBlobs trailer1 trailer2)
            (romWithSha1 (fixtures.d20 Byte.x02))
          = openResult (twoBlobs trailer1 trailer2)
              (blobPath root (fixtures.d20 Byte.x02))
  | Err e =>
      OpenRomGZ oneRoot (twoBlobs trailer1 trailer2)
        (romWithSha1 (fixtures.d20 Byte.x02)) = Err e
  end.
Proof.
  apply (OpenRomGZ_agrees_with_SHA1InDepot oneRoot (twoBlobs trailer1 trailer2)
           (romWithSha1 (fixtures.d20 Byte.x02)) (fixtures.d20 Byte.x02));
    reflexivity.
Defined.

(** X4. When none of the paths that [OpenRomGZ] probes for a rom exists (for
    every digest of its SHA1 field, under every root), [OpenRomGZ] returns
    neither a blob nor an error, whether the SHA1 is a single digest or a
    collision set. *)
Theorem OpenRomGZ_absent `{OS} (depot : Depot) (fs : FS) (rom : Rom) (sha1 : bytes) :
  Rom_Sha1 rom = Some sha1 → digest_aligned sha1 →
  (∀ c r, c ∈ digests sha1 → r ∈ roots depot →
          PathExists fs (blobPath r c) = Ok false) →
  OpenRomGZ depot fs rom = Ok None.
Proof.
  intros Hsha Hal Hno. unfold OpenRomGZ. rewrite Hsha. case_decide as Hlen.
  - pose proof (openFirst_sha1InRoots fs (roots depot) sha1) as Hfirst.
    pose proof (SHA1InDepot_false depot fs sha1) as Hfalse.
    unfold SHA1InDepot in Hfalse. rewrite Hfalse in Hfirst; [done|].
    intros r Hr. apply Hno; [|done]. rewrite digests_single by done. by left.
  - rewrite trips_aligned by done.
    apply (openCandidates_none fs depot rom _ [] sha1); [by apply aligned_length|].
    intros c r Hc Hr. left. by apply Hno.
Qed.

Lemma OpenRomGZ_absent_witness :
  OpenRomGZ oneRoot (twoBlobs trailer1 trailer2)
    (romWithSha1 (fixtures.d20 Byte.x03 ++ fixtures.d20 Byte.x04)) = Ok None.
Proof.
  apply (OpenRomGZ_absent oneRoot (twoBlobs trailer1 trailer2)
           (romWithSha1 (fixtures.d20 Byte.x03 ++ fixtures.d20 Byte.x04))
           (fixtures.d20 Byte.x03 ++ fixtures.d20 Byte.x04)).
  - reflexivity.
  - reflexivity.
  - intros c r Hc Hr. apply list_elem_of_singleton in Hr. subst r.
    change (digests (fixtures.d20 Byte.x03 ++ fixtures.d20 Byte.x04))
      with [fixtures.d20 Byte.x03; fixtures.d20 Byte.x04] in Hc.
    apply elem_of_cons in Hc as [->|Hc]; [vm_compute; reflexivity|].
    apply list_elem_of_singleton in Hc. subst c. vm_compute. reflexivity.
Defined.

(** X5. For a rom whose SHA1 is a collision set and that has neither an MD5
    nor a CRC, [OpenRomGZ] returns what opening the first file found
    returns, candidates in order and roots in order for each candidate; the
    trailer of the blob is not read. *)
Theorem OpenRomGZ_collision_without_hashes `{OS} (depot : Depot) (fs : FS) (rom : Rom)
    (sha1 c : bytes) (cpre cpost : list bytes)
    (root : string) (rpre rpost : list string) :
  Rom_Sha1 rom = Some sha1 → length sha1 ≠ sha1_Size → digest_aligned sha1 →
  Rom_Crc rom = None → Rom_Md5 rom = None →
  digests sha1 = cpre ++ c :: cpost →
  roots depot = rpre ++ root :: rpost →
  (∀ c' r, c' ∈ cpre → r ∈ roots depot → PathExists fs (blobPath r c') = Ok false) →
  (∀ r, r ∈ rpre → PathExists fs (blobPath r c) = Ok false) →
  PathExists fs (blobPath root c) = Ok true →
  OpenRomGZ depot fs rom = openResult fs (blobPath root c).
Proof.
  intros Hsha Hlen Hal Hcrc Hmd5 Hds Hroots Hcs Hrs Hex.
  unfold OpenRomGZ. rewrite Hsha. rewrite decide_False by done.
  rewrite trips_aligned by done.
  pose proof (openMatching_no_hashes fs rom rpre root rpost c Hcrc Hmd5 Hrs Hex) as Hm.
  rewrite <- Hroots in Hm.
  apply (openCandidates_at fs depot rom _ [] sha1 cpre c cpost);
    [by apply aligned_length | done | | done | apply openResult_some].
  intros c' r Hc' Hr. left. by apply Hcs.
Qed.

Lemma OpenRomGZ_collision_without_hashes_witness :
  OpenRomGZ oneRoot (twoBlobs trailer1 trailer2) (collisionRom None None)
  = openResult (twoBlobs trailer1 trailer2)
      (blobPath "/depot0" (fixtures.d20 Byte.x01)).
Proof.
  apply (OpenRomGZ_collision_without_hashes oneRoot (twoBlobs trailer1 trailer2)
           (collisionRom None None)
           (fixtures.d20 Byte.x01 ++ fixtures.d20 Byte.x02)
           (fixtures.d20 Byte.x01) [] [fixtures.d20 Byte.x02] "/depot0" [] []).
  - reflexivity.
  - vm_compute. lia.
  - reflexivity.
  - reflexivity.
  - reflexivity.
  - reflexivity.
  - reflexivity.
  - intros c' r Hc. by apply elem_of_nil in Hc.
  - intros r Hr. by apply elem_of_nil in Hr.
  - vm_compute. reflexivity.
Defined.

(** ** More on the archive worker *)

(** X6. When the payload has been hashed, [IndexRom] succeeds and the blob
    of its SHA1 is already in the depot, [archive] returns 0 after two
    calls, [IndexRom] and [SHA1InDepot]: no root is reserved and nothing is
    written; the sizes of the depot and the file system are what they were,
    the index is the one [IndexRom] has left. *)
Theorem archive_skips_known_blob `{Codec} `{OS} (w : archiveWorker) (wd : World)
    (ro : readerOpener) (name path : string) (size : Z)
    (r : File) (hashes : Hashes) (db' : kvStore) :
  ro (fs wd) = Ok r → forReader r = Ok hashes → closeFile r = None →
  md5_Size ≤ length (md5crcBuffer w) →
  kvStore_IndexRom (romDB (depot wd)) (hashedRom hashes name path size) = (db', None) →
  SHA1InDepot (depot wd) (fs wd) (EncodeToString (Hashes_Sha1 hashes)) = Ok true →
  ∃ wd' w',
    archive false w wd ro name path size = (wd', w', Ok 0%Z)
    ∧ depot wd' = with_romDB (depot wd) db'
    ∧ fs wd' = fs wd
    ∧ calls wd' = calls wd ++ [CallIndexRom (hashedRom hashes name path size);
                               CallSHA1InDepot (EncodeToString (Hashes_Sha1 hashes))].
Proof.
  intros Hro Hhash Hclose Hbuf Hidx Hin.
  unfold archive. rewrite Hro, Hhash, Hclose. simpl.
  rewrite decide_False by lia. simpl. rewrite Hidx. simpl.
  unfold SHA1InDepot in *. simpl. rewrite Hin.
  eexists _, _. split; [reflexivity|]. simpl. by rewrite <- (assoc_L (++)).
Qed.

Lemma archive_skips_known_blob_witness :
  ∃ wd' w',
    archive false freshWorker knownWorld openSource "a" "/in/a" 12 = (wd', w', Ok 0%Z)
    ∧ depot wd' = with_romDB (depot knownWorld) sourceIndexed
    ∧ fs wd' = fs knownWorld
    ∧ calls wd' = calls knownWorld
                  ++ [CallIndexRom sourceRom;
                      CallSHA1InDepot (EncodeToString (Hashes_Sha1 payload))].
Proof.
  apply (archive_skips_known_blob freshWorker knownWorld openSource "a" "/in/a" 12
           ("/in/a", payload) payload sourceIndexed).
  - reflexivity.
  - reflexivity.
  - reflexivity.
  - vm_compute. lia.
  - vm_compute. reflexivity.
  - vm_compute. reflexivity.
Defined.

(** The root that [reserveRoot] returns is one of the roots. *)
Lemma reserveRoot_root (d d' : Depot) (size i : Z) :
  reserveRoot d size = (d', Ok i) →
  roots d' = roots d ∧ romDB d' = romDB d ∧ is_Some (index (roots d) i)
  ∧ ∃ s, index (sizes d) i = Some s ∧ index (sizes d') i = Some (add64 s size)
         ∧ ∀ j, j ≠ i → index (sizes d') j = index (sizes d) j.
Proof.
  unfold reserveRoot. intros Hrun.
  apply reserveLoop_ok in Hrun as (Hi & Hr & Hm & Hdb & s & m & Hs & Hmi & Hfit & Hsz).
  pose proof (index_bounds _ _ _ Hs) as Hb.
  split_and!; try done.
  - apply index_is_Some. lia.
  - exists s. split_and!; [done| |].
    + rewrite Hsz. apply index_insert_eq. eauto.
    + intros j Hne. rewrite Hsz. apply index_insert_ne; [done|lia].
Qed.

(** X7. When the payload has been hashed, [IndexRom] succeeds, the blob is
    in no root, a root is reserved for the estimate [size / 5] and the blob
    writer succeeds, [archive] returns the compressed size; the blob is
    written under the reserved root at the path of the SHA1 of the payload,
    and the size of that root has grown by the compressed size (in the
    arithmetic of [int64]), the other sizes being as before. *)
Theorem archive_stores_new_blob `{Codec} `{OS} (w : archiveWorker) (wd : World)
    (ro : readerOpener) (name path : string) (size : Z)
    (r : File) (hashes : Hashes) (db' : kvStore) (d1 : Depot) (root : Z)
    (rootPath : string) (fs' : FS) (compressedSize : Z) :
  ro (fs wd) = Ok r → forReader r = Ok hashes → closeFile r = None →
  md5_Size ≤ length (md5crcBuffer w) →
  kvStore_IndexRom (romDB (depot wd)) (hashedRom hashes name path size) = (db', None) →
  SHA1InDepot (depot wd) (fs wd) (EncodeToString (Hashes_Sha1 hashes)) = Ok false →
  reserveRoot (with_romDB (depot wd) db') (size ÷ 5)%Z = (d1, Ok root) →
  index (roots (depot wd)) root = Some rootPath →
  archiveGZ (fs wd) (blobPath rootPath (Hashes_Sha1 hashes)) r
    (filledBuffer (md5crcBuffer w) hashes) = (fs', Ok compressedSize) →
  ∃ wd' w' s,
    archive false w wd ro name path size = (wd', w', Ok compressedSize)
    ∧ fs wd' = fs'
    ∧ romDB (depot wd') = db'
    ∧ index (sizes (depot wd)) root = Some s
    ∧ index (sizes (depot wd')) root = Some (wrap64 (s + compressedSize))
    ∧ (∀ j, j ≠ root → index (sizes (depot wd')) j = index (sizes (depot wd)) j).
Proof.
  intros Hro Hhash Hclose Hbuf Hidx Hin Hres Hroot Hwrite.
  destruct (reserve_then_adjust_aux (with_romDB (depot wd) db') d1 (size ÷ 5)%Z
              compressedSize root Hres)
    as (s & d2 & Hs & Hadj & Hnew & Hother & Hroots & Hmax & Hdb).
  destruct (reserveRoot_root _ _ _ _ Hres) as (Hr1 & _).
  unfold archive. rewrite Hro, Hhash, Hclose. simpl.
  rewrite decide_False by lia. simpl. rewrite Hidx. simpl.
  unfold SHA1InDepot in *. simpl. rewrite Hin. rewrite Hres. simpl.
  rewrite Hr1. simpl. rewrite Hroot. rewrite Hro.
  unfold blobPath, filledBuffer in Hwrite. rewrite Hwrite. simpl.
  rewrite Hadj. eexists _, _, s. split; [reflexivity|]. simpl.
  split_and!; try done.
Qed.

Lemma archive_stores_new_blob_witness :
  ∃ wd' w' s,
    archive false freshWorker freshWorld openSource "a" "/in/a" 12 = (wd', w', Ok 1%Z)
    ∧ fs wd' = <[blobPath "/depot0" (Hashes_Sha1 payload) := payload]> sourceFS
    ∧ romDB (depot wd') = sourceIndexed
    ∧ index (sizes (depot freshWorld)) 0 = Some s
    ∧ index (sizes (depot wd')) 0 = Some (wrap64 (s + 1))
    ∧ (∀ j, j ≠ 0%Z → index (sizes (depot wd')) j = index (sizes (depot freshWorld)) j).
Proof.
  apply (archive_stores_new_blob freshWorker freshWorld openSource "a" "/in/a" 12
           ("/in/a", payload) payload sourceIndexed
           (with_sizes (with_romDB oneRoot sourceIndexed) [2%Z]) 0 "/depot0").
  - reflexivity.
  - reflexivity.
  - reflexivity.
  - vm_compute. lia.
  - vm_compute. reflexivity.
  - vm_compute. reflexivity.
  - vm_compute. reflexivity.
  - reflexivity.
  - reflexivity.
Defined.

(** X8. When the blob writer fails after a root has been reserved, [archive]
    returns the error of the writer and does not give the reservation back:
    the size of the reserved root stays increased by the estimate
    [size / 5], and the writer is the last call made ([adjustSize] is not
    called). *)
Theorem archive_failed_write_keeps_reservation `{Codec} `{OS} (w : archiveWorker)
    (wd : World) (ro : readerOpener) (name path : string) (size : Z)
    (r : File) (hashes : Hashes) (db' : kvStore) (d1 : Depot) (root : Z)
    (rootPath : string) (fs' : FS) (e : error) :
  ro (fs wd) = Ok r → forReader r = Ok hashes → closeFile r = None →
  md5_Size ≤ length (md5crcBuffer w) →
  kvStore_IndexRom (romDB (depot wd)) (hashedRom hashes name path size) = (db', None) →
  SHA1InDepot (depot wd) (fs wd) (EncodeToString (Hashes_Sha1 hashes)) = Ok false →
  reserveRoot (with_romDB (depot wd) db') (size ÷ 5)%Z = (d1, Ok root) →
  index (roots (depot wd)) root = Some rootPath →
  archiveGZ (fs wd) (blobPath rootPath (Hashes_Sha1 hashes)) r
    (filledBuffer (md5crcBuffer w) hashes) = (fs', Err e) →
  ∃ wd' w' s,
    archive false w wd ro name path size = (wd', w', Err e)
    ∧ fs wd' = fs'
    ∧ index (sizes (depot wd)) root = Some s
    ∧ index (sizes (depot wd')) root = Some (add64 s (size ÷ 5))
    ∧ (∀ j, j ≠ root → index (sizes (depot wd')) j = index (sizes (depot wd)) j)
    ∧ calls wd' = calls wd
                  ++ [CallIndexRom (hashedRom hashes name path size);
                      CallSHA1InDepot (EncodeToString (Hashes_Sha1 hashes));
                      CallReserveRoot (size ÷ 5);
                      CallArchiveGZ (blobPath rootPath (Hashes_Sha1 hashes))].
Proof.
  intros Hro Hhash Hclose Hbuf Hidx Hin Hres Hroot Hwrite.
  destruct (reserveRoot_root _ _ _ _ Hres) as (Hr1 & _ & _ & s & Hs & Hs1 & Hother).
  unfold archive. rewrite Hro, Hhash, Hclose. simpl.
  rewrite decide_False by lia. simpl. rewrite Hidx. simpl.
  unfold SHA1InDepot in *. simpl. rewrite Hin. rewrite Hres. simpl.
  rewrite Hr1. simpl. rewrite Hroot. rewrite Hro.
  unfold blobPath, filledBuffer in Hwrite. rewrite Hwrite. simpl.
  eexists _, _, s. split; [reflexivity|]. simpl.
  split_and!; try done.
  by rewrite <- !(assoc_L (++)).
Qed.

Lemma archive_failed_write_keeps_reservation_witness :
  ∃ wd' w' s,
    archive (os := fixtures.fullDiskOS) false freshWorker fullDiskWorld
      openSourceOnFullDisk "a" "/in/a" 12
    = (wd', w', Err (ErrIO "no space left on device"))
    ∧ fs wd' = sourceFS
    ∧ index (sizes (depot fullDiskWorld)) 0 = Some s
    ∧ index (sizes (depot wd')) 0 = Some (add64 s (12 ÷ 5))
    ∧ (∀ j, j ≠ 0%Z → index (sizes (depot wd')) j = index (sizes (depot fullDiskWorld)) j)
    ∧ calls wd' = calls fullDiskWorld
                  ++ [CallIndexRom sourceRom;
                      CallSHA1InDepot (EncodeToString (Hashes_Sha1 payload));
                      CallReserveRoot (12 ÷ 5);
                      CallArchiveGZ (blobPath "/depot0" (Hashes_Sha1 payload))].
Proof.
  apply (@archive_failed_write_keeps_reservation fixtures.toyCodec fixtures.fullDiskOS
           freshWorker fullDiskWorld openSourceOnFullDisk "a" "/in/a" 12
           ("/in/a", payload) payload sourceIndexed
           (with_sizes (with_romDB oneRoot sourceIndexed) [2%Z]) 0 "/depot0").
  - reflexivity.
  - reflexivity.
  - reflexivity.
  - vm_compute. lia.
  - vm_compute. reflexivity.
  - vm_compute. reflexivity.
  - vm_compute. reflexivity.
  - reflexivity.
  - reflexivity.
Defined.

(** ** More on the resume log *)

Lemma sortStrings_perm (l : list string) : sortStrings l ≡ₚ l.
Proof. apply merge_sort_Permutation. Qed.

Lemma sortStrings_sorted (l : list string) : StronglySorted String.le (sortStrings l).
Proof. apply (StronglySorted_merge_sort String.le). Qed.

(** The first string of a sorted list is a least string of the list. *)
Lemma sortStrings_head (l : list string) (x : string) :
  x ∈ l →
  ∃ least, sortStrings l !! 0 = Some least ∧ least ∈ l
           ∧ ∀ y, y ∈ l → String.le least y.
Proof.
  intros Hx. pose proof (sortStrings_perm l) as Hp.
  pose proof (sortStrings_sorted l) as Hs.
  destruct (sortStrings l) as [|least rest] eqn:Hsort.
  { symmetry in Hp. apply Permutation_nil_r in Hp. subst l. by apply elem_of_nil in Hx. }
  exists least. split; [done|]. split.
  - rewrite <- Hp. by left.
  - intros y Hy. rewrite <- Hp in Hy. apply elem_of_cons in Hy as [->|Hy]; [done|].
    apply StronglySorted_inv in Hs as [_ Hall].
    rewrite Forall_forall in Hall. by apply Hall.
Qed.

Lemma string_le_empty (s : string) : String.le s "" → s = "".
Proof. destruct s; [done|]. intros Hle. by vm_compute in Hle. Qed.

Lemma writeSizesFrom_total `{OS} (rs : list string) (szs : list Z) (k : nat) (fs : FS) :
  k + length rs ≤ length szs → ∃ fs', writeSizesFrom fs rs szs k = Ok fs'.
Proof.
  revert k fs. induction rs as [|root rs IH]; intros k fs Hlen; simpl in *.
  - by eexists.
  - destruct (lookup_lt_is_Some_2 szs k) as [s Hs]; [lia|]. rewrite Hs.
    apply IH. lia.
Qed.

(** X9. When worker 0 has completed a path and the depot has a size for
    every root, [writeResumeLogEntry] succeeds and sorts the array [comps]
    in place: the array afterwards is a sorted permutation of the one
    before (the paths no longer sit at the index of their worker), its first
    entry is a least entry of the array before, and that entry is what goes
    to the log after the format string. If some worker has not completed a
    path yet, the entry logged is the empty string. *)
Theorem writeResumeLogEntry_sorts_in_place `{OS} (depot : Depot) (o : Observer)
    (c0 : string) :
  comps o !! 0 = Some c0 → c0 ≠ "" →
  length (roots depot) ≤ length (sizes depot) →
  ∃ o' least,
    writeResumeLogEntry depot o = Ok o'
    ∧ comps o' ≡ₚ comps o
    ∧ StronglySorted String.le (comps o')
    ∧ comps o' !! 0 = Some least
    ∧ (∀ c, c ∈ comps o → String.le least c)
    ∧ resumeLog o' = (resumeLog o ++ "%s" ++ newline ++ least)%string
    ∧ ("" ∈ comps o → least = "").
Proof.
  intros Hc0 Hne Hlen.
  destruct (sortStrings_head (comps o) c0) as (least & Hhead & Hin & Hleast).
  { by eapply list_elem_of_lookup_2. }
  destruct (writeSizesFrom_total (roots depot) (sizes depot) 0 (obs_fs o)) as [fs' Hfs];
    [simpl; lia|].
  unfold writeResumeLogEntry. rewrite Hc0, decide_True by done.
  rewrite Hhead. unfold writeSizes. rewrite Hfs. simpl.
  eexists _, least. split; [reflexivity|]. simpl.
  split_and!.
  - apply sortStrings_perm.
  - apply sortStrings_sorted.
  - done.
  - done.
  - unfold Fprint. simpl. by rewrite ?string_app_assoc.
  - intros Hempty. apply string_le_empty. by apply Hleast.
Qed.

Lemma writeResumeLogEntry_sorts_in_place_witness :
  ∃ o' least,
    writeResumeLogEntry oneRoot (mkObserver ["/in/b"; ""; "/in/a"] "" sourceFS) = Ok o'
    ∧ comps o' ≡ₚ ["/in/b"; ""; "/in/a"]
    ∧ StronglySorted String.le (comps o')
    ∧ comps o' !! 0 = Some least
    ∧ (∀ c, c ∈ ["/in/b"; ""; "/in/a"] → String.le least c)
    ∧ resumeLog o' = ("" ++ "%s" ++ newline ++ least)%string
    ∧ ("" ∈ ["/in/b"; ""; "/in/a"] → least = "").
Proof.
  apply (writeResumeLogEntry_sorts_in_place oneRoot
           (mkObserver ["/in/b"; ""; "/in/a"] "" sourceFS) "/in/b").
  - reflexivity.
  - discriminate.
  - simpl. lia.
Defined.

(** *** The resume point *)

Lemma string_length_app (a b : string) :
  String.length (a ++ b) = String.length a + String.length b.
Proof. induction a as [|x a IH]; [done|]. exact (f_equal S IH). Qed.

(** Every string that [ReadString] yields in the loop and that the loop
    counts has a byte. *)
Lemma readStrings_nonempty (acc s l : string) :
  l ∈ readStrings acc s → 0 < String.length l.
Proof.
  revert acc. induction s as [|c s IH]; intros acc; simpl.
  - case_decide as Hacc; [by intros ?%elem_of_nil|].
    intros ->%list_elem_of_singleton. destruct acc; [done|simpl; lia].
  - case_decide.
    + intros [->|Hin]%elem_of_cons; [|by eapply IH].
      rewrite string_length_app. simpl. lia.
    + apply IH.
Qed.

(** The ring after the lines are put into it holds the last elements of the
    ring followed by the lines. *)
Lemma ringPutAll_last (rng : list (option string)) (ls : list string) :
  rng ≠ [] → ringPutAll rng ls = Some (drop (length ls) (rng ++ (Some <$> ls))).
Proof.
  revert rng. induction ls as [|l ls IH]; intros rng Hne; simpl.
  - by rewrite app_nil_r.
  - destruct rng as [|x rest]; [done|]. simpl.
    rewrite IH by (by destruct rest). by rewrite <- (assoc_L (++)).
Qed.

(** [Do] over a ring whose elements are all set copies them to the head of
    [lines]. *)
Lemma ringDo_copies (xs pre : list string) (m : nat) :
  (∀ x, x ∈ xs → 0 < String.length x) → length xs ≤ m →
  ringDo (Some <$> xs) (pre ++ replicate m "") (length pre)
  = Some (pre ++ xs ++ replicate (m - length xs) "").
Proof.
  revert pre m. induction xs as [|x xs IH]; intros pre m Hpos Hlen; simpl in *.
  - by rewrite Nat.sub_0_r.
  - rewrite decide_True by (apply Hpos; by left).
    rewrite decide_True by (rewrite length_app, length_replicate; lia).
    destruct m as [|m]; [lia|]. simpl.
    rewrite insert_app_r_alt by lia. rewrite Nat.sub_diag. simpl.
    replace (pre ++ x :: replicate m "") with ((pre ++ [x]) ++ replicate m "")
      by (by rewrite <- (assoc_L (++))).
    replace (S (length pre)) with (length (pre ++ [x]))
      by (rewrite length_app; simpl; lia).
    rewrite IH; [|intros y Hy; apply Hpos; by right|lia].
    by rewrite <- (assoc_L (++)).
Qed.

(** The three cases of [extractResumePoint] on a log that has a line: as
    many lines as workers, more lines, fewer lines. *)
Lemma extractResumePoint_exact (content : string) (numWorkers : Z) :
  readStrings "" (lastBytes content) ≠ [] →
  Z.of_nat (length (readStrings "" (lastBytes content))) = numWorkers →
  ∃ least,
    extractResumePoint (Ok content) numWorkers = Ok least
    ∧ least ∈ readStrings "" (lastBytes content)
    ∧ ∀ l, l ∈ readStrings "" (lastBytes content) → String.le least l.
Proof.
  intros Hne Hlen. unfold extractResumePoint. simpl.
  set (ls := readStrings "" (lastBytes content)) in *.
  assert (length ls ≠ 0) as Hn by (by destruct ls).
  unfold ringNew. rewrite <- Hlen, Nat2Z.id.
  rewrite ringPutAll_last by (by destruct ls).
  rewrite drop_app_length' by (by rewrite length_replicate).
  rewrite decide_False by done.
  pose proof (ringDo_copies ls [] (length ls)) as Hdo. simpl in Hdo.
  rewrite Hdo; [|intros x Hx; by eapply readStrings_nonempty|lia].
  rewrite Nat.sub_diag, app_nil_r.
  destruct ls as [|l0 ls'] eqn:Hls; [done|].
  destruct (sortStrings_head (l0 :: ls') l0) as (least & -> & Hin & Hleast); [by left|].
  by exists least.
Qed.

Lemma extractResumePoint_longer (content : string) (numWorkers : Z) :
  (0 < numWorkers < Z.of_nat (length (readStrings "" (lastBytes content))))%Z →
  extractResumePoint (Ok content) numWorkers = Ok "".
Proof.
  intros Hlen.
  unfold extractResumePoint. simpl.
  set (ls := readStrings "" (lastBytes content)) in *.
  unfold ringNew.
  rewrite ringPutAll_last by (destruct (Z.to_nat numWorkers) eqn:?; [lia|done]).
  rewrite decide_False by lia.
  set (n := Z.to_nat numWorkers).
  assert (drop (length ls) (replicate n None ++ (Some <$> ls))
          = Some <$> drop (length ls - n) ls) as ->.
  { rewrite drop_app_ge by (rewrite length_replicate; lia).
    by rewrite length_replicate, fmap_drop. }
  pose proof (ringDo_copies (drop (length ls - n) ls) [] (length ls)) as Hdo.
  simpl in Hdo. rewrite Hdo.
  - rewrite length_drop.
    destruct (sortStrings_head
                (drop (length ls - n) ls
                 ++ replicate (length ls - (length ls - (length ls - n))) "") "")
      as (least & -> & _ & Hleast).
    { apply elem_of_app. right. apply elem_of_replicate. split; [done|]. subst n. lia. }
    f_equal. apply string_le_empty, Hleast.
    apply elem_of_app. right. apply elem_of_replicate. split; [done|]. subst n. lia.
  - intros x Hx. apply (readStrings_nonempty "" (lastBytes content)).
    apply list_elem_of_lookup in Hx as [i Hi]. rewrite lookup_drop in Hi.
    by eapply list_elem_of_lookup_2.
  - rewrite length_drop. lia.
Qed.

Lemma extractResumePoint_shorter (content : string) (numWorkers : Z) :
  readStrings "" (lastBytes content) ≠ [] →
  (Z.of_nat (length (readStrings "" (lastBytes content))) < numWorkers
   ∨ numWorkers ≤ 0)%Z →
  extractResumePoint (Ok content) numWorkers = Err Panic.
Proof.
  intros Hne Hlen. unfold extractResumePoint. simpl.
  set (ls := readStrings "" (lastBytes content)) in *.
  unfold ringNew. destruct Hlen as [Hlen|Hlen].
  - rewrite ringPutAll_last by (destruct (Z.to_nat numWorkers) eqn:?; [lia|done]).
    rewrite decide_False by (by destruct ls).
    rewrite drop_app_le by (rewrite length_replicate; lia).
    rewrite drop_replicate.
    destruct (Z.to_nat numWorkers - length ls) eqn:Hd; [lia|]. done.
  - replace (Z.to_nat numWorkers) with 0 by lia. simpl.
    destruct ls; [done|]. done.
Qed.

(** X10. When the tail of the resume log has as many lines as there are
    workers, [extractResumePoint] returns the least of these lines, as
    [ReadString] has read it (with its newline). *)
Theorem extractResumePoint_least_line (content : string) (numWorkers : Z) :
  readStrings "" (lastBytes content) ≠ [] →
  Z.of_nat (length (readStrings "" (lastBytes content))) = numWorkers →
  ∃ least,
    extractResumePoint (Ok content) numWorkers = Ok least
    ∧ least ∈ readStrings "" (lastBytes content)
    ∧ ∀ l, l ∈ readStrings "" (lastBytes content) → String.le least l.
Proof. apply extractResumePoint_exact. Qed.

Lemma extractResumePoint_least_line_witness :
  ∃ least,
    extractResumePoint (Ok ("/in/b" ++ newline ++ "/in/a" ++ newline)%string) 2 = Ok least
    ∧ least ∈ readStrings "" (lastBytes ("/in/b" ++ newline ++ "/in/a" ++ newline)%string)
    ∧ ∀ l, l ∈ readStrings "" (lastBytes ("/in/b" ++ newline ++ "/in/a" ++ newline)%string)
           → String.le least l.
Proof.
  apply (extractResumePoint_least_line ("/in/b" ++ newline ++ "/in/a" ++ newline)%string 2).
  - vm_compute. discriminate.
  - vm_compute. reflexivity.
Defined.

(** X11. When the tail of the resume log has more lines than there are
    workers, [extractResumePoint] returns the empty string: the array that
    is sorted has one entry per line read, those beyond the ring stay empty
    and sort first. With that resume point [Accept] accepts every path. *)
Theorem extractResumePoint_more_lines (content : string) (numWorkers : Z) :
  (0 < numWorkers < Z.of_nat (length (readStrings "" (lastBytes content))))%Z →
  extractResumePoint (Ok content) numWorkers = Ok ""
  ∧ ∀ resumePoint path,
      extractResumePoint (Ok content) numWorkers = Ok resumePoint →
      Accept resumePoint path = true.
Proof.
  intros Hlen. pose proof (extractResumePoint_longer content numWorkers Hlen) as Hempty.
  split; [done|]. intros rp path. rewrite Hempty. by intros [= <-].
Qed.

Lemma extractResumePoint_more_lines_witness :
  extractResumePoint (Ok ("/in/b" ++ newline ++ "/in/a" ++ newline)%string) 1 = Ok ""
  ∧ ∀ resumePoint path,
      extractResumePoint (Ok ("/in/b" ++ newline ++ "/in/a" ++ newline)%string) 1
      = Ok resumePoint →
      Accept resumePoint path = true.
Proof.
  apply (extractResumePoint_more_lines ("/in/b" ++ newline ++ "/in/a" ++ newline)%string 1).
  vm_compute. split; reflexivity.
Defined.

(** X12. When the tail of the resume log has a line but fewer lines than
    there are workers, or when the number of workers is not positive,
    [extractResumePoint] panics: the ring has an element that was never
    set, or there is no ring to put the first line into. *)
Theorem extractResumePoint_fewer_lines (content : string) (numWorkers : Z) :
  readStrings "" (lastBytes content) ≠ [] →
  (Z.of_nat (length (readStrings "" (lastBytes content))) < numWorkers
   ∨ numWorkers ≤ 0)%Z →
  extractResumePoint (Ok content) numWorkers = Err Panic.
Proof. apply extractResumePoint_shorter. Qed.

Lemma extractResumePoint_fewer_lines_witness :
  extractResumePoint (Ok ("/in/a" ++ newline)%string) 2 = Err Panic.
Proof.
  apply (extractResumePoint_fewer_lines ("/in/a" ++ newline)%string 2).
  - vm_compute. discriminate.
  - left. vm_compute. reflexivity.
Defined.

(** ** Paths *)

Lemma string_of_list_ascii_app (a b : list ascii) :
  string_of_list_ascii (a ++ b)
  = (string_of_list_ascii a ++ string_of_list_ascii b)%string.
Proof. induction a as [|x a IH]; [done|]. exact (f_equal (String x) IH). Qed.

Lemma list_ascii_of_string_app (a b : string) :
  list_ascii_of_string (a ++ b) = list_ascii_of_string a ++ list_ascii_of_string b.
Proof. induction a as [|x a IH]; [done|]. exact (f_equal (cons x) IH). Qed.

Lemma substring_app_l (a b : string) : substring 0 (String.length a) (a ++ b) = a.
Proof.
  induction a as [|x a IH].
  - by destruct b.
  - exact (f_equal (String x) IH).
Qed.

(** What the loop of [Ext] returns is a suffix of the path. *)
Lemma extScan_suffix (rest suffix : list ascii) :
  ∃ pre, rev rest ++ suffix = pre ++ extScan rest suffix.
Proof.
  revert suffix. induction rest as [|c rest IH]; intros suffix; simpl.
  - exists suffix. by rewrite app_nil_r.
  - case_decide; [eexists; by rewrite app_nil_r|].
    case_decide.
    + exists (rev rest). by rewrite <- (assoc_L (++)).
    + destruct (IH (c :: suffix)) as [pre Hpre]. exists pre.
      by rewrite <- (assoc_L (++)).
Qed.

Lemma Ext_suffix (path : string) : ∃ stem, path = (stem ++ Ext path)%string.
Proof.
  destruct (extScan_suffix (rev (list_ascii_of_string path)) []) as [pre Hpre].
  rewrite rev_involutive, app_nil_r in Hpre.
  exists (string_of_list_ascii pre). unfold Ext.
  rewrite <- string_of_list_ascii_app, <- Hpre.
  by rewrite string_of_list_ascii_of_string.
Qed.

Lemma stripExt_stem (path : string) : path = (stripExt path ++ Ext path)%string.
Proof.
  destruct (Ext_suffix path) as [stem Hstem]. unfold stripExt.
  remember (Ext path) as e eqn:He. clear He. subst path.
  rewrite string_length_app.
  replace (String.length stem + String.length e - String.length e)
    with (String.length stem) by lia.
  by rewrite substring_app_l.
Qed.

Lemma Ext_gz (stem : string) : Ext (stem ++ gzipSuffix) = gzipSuffix.
Proof.
  unfold Ext. rewrite list_ascii_of_string_app, rev_app_distr. reflexivity.
Qed.

(** X13. [stripExt] and [filepath.Ext] split a path in two: the path is
    [stripExt(path)] followed by [Ext(path)], for every path. *)
Theorem stripExt_then_Ext (path : string) :
  (stripExt path ++ Ext path)%string = path
  ∧ String.length (stripExt path) + String.length (Ext path) = String.length path.
Proof.
  pose proof (stripExt_stem path) as Hp. split; [done|].
  rewrite <- string_length_app. by rewrite <- Hp.
Qed.

(** X14. The purge accepts exactly the paths that end in [.gz]: whatever
    stands before the suffix, a directory separator or nothing at all. *)
Theorem purgeAccept_gz (path : string) :
  purgeAccept path = true ↔ ∃ stem, path = (stem ++ ".gz")%string.
Proof.
  unfold purgeAccept. rewrite bool_decide_eq_true. split.
  - intros Hext. exists (stripExt path).
    pose proof (stripExt_stem path) as Hp. by rewrite Hext in Hp.
  - intros [stem ->]. apply Ext_gz.
Qed.

(** ** Purging *)

Lemma purgeScan_realDat (g : Z) (dats : list Dat) (rd : option Dat) :
  (purgeScan g dats rd).1 = false →
  (purgeScan g dats rd).2
  = from_option Some rd (last (filter (λ d, Dat_Artificial d = false) dats)).
Proof.
  revert rd. induction dats as [|dat dats IH]; intros rd; simpl; [done|].
  destruct (negb (Dat_Artificial dat) && bool_decide (Dat_Generation dat = g)) eqn:Hc;
    [done|].
  intros Hu. rewrite IH by done. rewrite filter_cons.
  destruct (Dat_Artificial dat) eqn:Ha; simpl.
  - done.
  - rewrite last_cons. by destruct (last (filter _ dats)).
Qed.

(** X15. The scan of the purge over the Dats of a blob finds the blob used
    exactly when one of the Dats is not artificial and has the generation
    asked for; when the blob is not used, [realDat] is the last Dat of the
    list that is not artificial, or [nil] when all are artificial. *)
Theorem purgeScan_used_iff_current (g : Z) (dats : list Dat) :
  ((purgeScan g dats None).1 = true
   ↔ ∃ dat, dat ∈ dats ∧ Dat_Artificial dat = false ∧ Dat_Generation dat = g)
  ∧ ((purgeScan g dats None).1 = false →
     (purgeScan g dats None).2 = last (filter (λ d, Dat_Artificial d = false) dats)).
Proof.
  split.
  - generalize (@None Dat) as rd.
    induction dats as [|dat dats IH]; intros rd; simpl.
    + split; [done|]. intros (dat & Hin & _). by apply elem_of_nil in Hin.
    + destruct (negb (Dat_Artificial dat) && bool_decide (Dat_Generation dat = g)) eqn:Hc.
      * split; [|done]. intros _. exists dat.
        apply andb_true_iff in Hc as [Ha Hg]. apply bool_decide_eq_true in Hg.
        apply negb_true_iff in Ha. split; [by left|done].
      * rewrite IH. split.
        -- intros (d & Hin & Hd). exists d. split; [by right|done].
        -- intros (d & Hin & Ha & Hg). apply elem_of_cons in Hin as [->|Hin].
           ++ rewrite Ha in Hc. simpl in Hc. apply bool_decide_eq_false in Hc. done.
           ++ by exists d.
  - intros Hu. rewrite purgeScan_realDat by done.
    by destruct (last (filter _ dats)).
Qed.

Lemma findRoot_none (rs : list string) (inpath : string) (k : Z) :
  (∀ r, r ∈ rs → String.prefix r inpath = false) → findRoot rs inpath k = (-1)%Z.
Proof.
  revert k. induction rs as [|r rs IH]; intros k Hnone; simpl; [done|].
  rewrite (Hnone r) by left. apply IH. intros r' Hr'. apply Hnone. by right.
Qed.

Lemma findRoot_first (rs : list string) (inpath : string) (k : Z) (i : nat) (root : string) :
  rs !! i = Some root → String.prefix root inpath = true →
  (∀ j r, j < i → rs !! j = Some r → String.prefix r inpath = false) →
  findRoot rs inpath k = (k + Z.of_nat i)%Z.
Proof.
  revert k i. induction rs as [|r rs IH]; intros k i Hi Hp Hmin; [done|].
  destruct i as [|i]; simpl in *.
  - simplify_eq. rewrite Hp. lia.
  - rewrite (Hmin 0 r) by (done || lia).
    rewrite (IH (k + 1)%Z i); [lia|done|done|].
    intros j r' Hj Hr'. apply (Hmin (S j)); [lia|done].
Qed.

(** X16. The accounting at the end of a purge cannot panic on a depot that
    has a size for every root. It takes [size] off the first root whose
    path is a string prefix of the path of the blob, and off no other; when
    no root is a prefix of the path, the sizes stay as they are. *)
Theorem purgeAccount_first_prefix (d : Depot) (inpath : string) (size : Z) :
  length (roots d) ≤ length (sizes d) →
  ∃ d', purgeAccount d inpath size = Ok d'
    ∧ roots d' = roots d ∧ maxSizes d' = maxSizes d
    ∧ start d' = start d ∧ romDB d' = romDB d
    ∧ (∀ i root, roots d !! i = Some root → String.prefix root inpath = true →
         (∀ j r, j < i → roots d !! j = Some r → String.prefix r inpath = false) →
         ∃ s, sizes d !! i = Some s
              ∧ sizes d' = <[i := add64 s (sub64 0 size)]> (sizes d))
    ∧ ((∀ r, r ∈ roots d → String.prefix r inpath = false) → sizes d' = sizes d).
Proof.
  intros Hlen. unfold purgeAccount.
  destruct (list_find (λ r, String.prefix r inpath = true) (roots d)) as [[i root]|] eqn:Hf.
  - apply list_find_Some in Hf as (Hi & Hp & Hmin).
    assert (∀ j r, j < i → roots d !! j = Some r → String.prefix r inpath = false) as Hmin'.
    { intros j r Hj Hr. apply not_true_iff_false. by eapply Hmin. }
    rewrite (findRoot_first _ _ 0 i root Hi Hp Hmin').
    rewrite decide_True by lia.
    pose proof (lookup_lt_Some _ _ _ Hi) as Hlt.
    destruct (lookup_lt_is_Some_2 (sizes d) i) as [s Hs]; [lia|].
    unfold adjustSize, index. rewrite decide_True by lia.
    replace (Z.to_nat (0 + Z.of_nat i)) with i by lia. rewrite Hs.
    eexists. split; [reflexivity|]. simpl. split_and!; try done.
    + intros i' root' Hi' Hp' Hmin''.
      assert (i' = i) as ->.
      { destruct (lt_eq_lt_dec i' i) as [[Hlt'| ->]|Hgt]; [|done|].
        - rewrite (Hmin' i' root') in Hp' by done. done.
        - rewrite (Hmin'' i root) in Hp by done. done. }
      by exists s.
    + intros Hnone. rewrite (Hnone root) in Hp; [done|].
      by eapply list_elem_of_lookup_2.
  - apply list_find_None in Hf. rewrite Forall_forall in Hf.
    assert (∀ r, r ∈ roots d → String.prefix r inpath = false) as Hnone.
    { intros r Hr. apply not_true_iff_false. by apply Hf. }
    rewrite findRoot_none by done. rewrite decide_False by lia.
    eexists. split; [reflexivity|]. split_and!; try done.
    intros i root Hi Hp _. rewrite (Hnone root) in Hp; [done|].
    by eapply list_elem_of_lookup_2.
Qed.

Lemma purgeAccount_first_prefix_witness :
  ∃ d', purgeAccount (twoRoots 10 20 100 100) "/depot1/ab/cd/ef/01/x.gz" 5 = Ok d'
    ∧ roots d' = roots (twoRoots 10 20 100 100)
    ∧ maxSizes d' = maxSizes (twoRoots 10 20 100 100)
    ∧ start d' = start (twoRoots 10 20 100 100)
    ∧ romDB d' = romDB (twoRoots 10 20 100 100)
    ∧ (∀ i root, roots (twoRoots 10 20 100 100) !! i = Some root →
         String.prefix root "/depot1/ab/cd/ef/01/x.gz" = true →
         (∀ j r, j < i → roots (twoRoots 10 20 100 100) !! j = Some r →
                 String.prefix r "/depot1/ab/cd/ef/01/x.gz" = false) →
         ∃ s, sizes (twoRoots 10 20 100 100) !! i = Some s
              ∧ sizes d' = <[i := add64 s (sub64 0 5)]> (sizes (twoRoots 10 20 100 100)))
    ∧ ((∀ r, r ∈ roots (twoRoots 10 20 100 100) →
             String.prefix r "/depot1/ab/cd/ef/01/x.gz" = false) →
       sizes d' = sizes (twoRoots 10 20 100 100)).
Proof.
  apply (purgeAccount_first_prefix (twoRoots 10 20 100 100) "/depot1/ab/cd/ef/01/x.gz" 5).
  simpl. lia.
Defined.

(** ** Building the depot *)

Lemma establishSizes_all (est : string → Res Z) (rs : list string) :
  (∀ r, r ∈ rs → ∃ s, est r = Ok s) →
  ∃ szs, establishSizes est rs = Ok szs ∧ Forall2 (λ r s, est r = Ok s) rs szs.
Proof.
  induction rs as [|r rs IH]; intros Hall; simpl.
  - exists []. by split.
  - destruct (Hall r) as [s Hs]; [by left|]. rewrite Hs. simpl.
    destruct IH as (szs & -> & Hszs); [intros r' Hr'; apply Hall; by right|].
    simpl. exists (s :: szs). split; [done|]. by constructor.
Qed.

Lemma copyInto_roots (rts : list string) :
  copyInto (replicate (length rts) EmptyString) rts = rts.
Proof.
  unfold copyInto. rewrite length_replicate, firstn_all, drop_replicate.
  by rewrite Nat.sub_diag, app_nil_r.
Qed.

(** X17. When [establishSize] succeeds on every root, [NewDepot] returns a
    depot with these roots in their order, one size per root, the one
    established for it, and one maximum per root: the entry of [maxSize] at
    the index of the root, or 0 when [maxSize] is too short (entries of
    [maxSize] beyond the roots are dropped). The cursor is at the first
    root. *)
Theorem NewDepot_one_entry_per_root (est : string → Res Z) (rts : list string)
    (maxSize : list Z) (db : kvStore) :
  (∀ r, r ∈ rts → ∃ s, est r = Ok s) →
  ∃ d, NewDepot est rts maxSize db = Ok d
    ∧ roots d = rts ∧ romDB d = db ∧ start d = 0%Z ∧ depotWf d
    ∧ Forall2 (λ r s, est r = Ok s) rts (sizes d)
    ∧ (∀ k, k < length rts → maxSizes d !! k = Some (default 0%Z (maxSize !! k))).
Proof.
  intros Hall. unfold NewDepot. rewrite copyInto_roots.
  destruct (establishSizes_all est rts Hall) as (szs & -> & Hszs). simpl.
  eexists. split; [reflexivity|]. simpl.
  assert (length (copyInto (replicate (length rts) 0%Z) maxSize) = length rts) as Hlen.
  { unfold copyInto. rewrite length_app, length_take, length_drop, !length_replicate. lia. }
  split_and!; try done.
  - unfold depotWf. simpl. split_and!; [|done|lia|lia].
    symmetry. by eapply Forall2_length.
  - intros k Hk. unfold copyInto. rewrite length_replicate, drop_replicate.
    destruct (decide (k < length maxSize)) as [Hlt|Hge].
    + rewrite lookup_app_l by (rewrite length_take; lia).
      rewrite lookup_take, decide_True by lia.
      destruct (lookup_lt_is_Some_2 maxSize k Hlt) as [m ->]. done.
    + rewrite lookup_app_r by (rewrite length_take; lia).
      rewrite length_take, lookup_replicate_2 by lia.
      by rewrite lookup_ge_None_2 by lia.
Qed.

Lemma NewDepot_one_entry_per_root_witness :
  ∃ d, NewDepot fixtures.toyEstablishSize ["/depot0"; "/depot1"] [1000%Z] fixtures.emptyDB
       = Ok d
    ∧ roots d = ["/depot0"; "/depot1"] ∧ romDB d = fixtures.emptyDB ∧ start d = 0%Z
    ∧ depotWf d
    ∧ Forall2 (λ r s, fixtures.toyEstablishSize r = Ok s) ["/depot0"; "/depot1"] (sizes d)
    ∧ (∀ k, k < length ["/depot0"; "/depot1"] →
            maxSizes d !! k = Some (default 0%Z ([1000%Z] !! k))).
Proof.
  apply (NewDepot_one_entry_per_root fixtures.toyEstablishSize ["/depot0"; "/depot1"]
           [1000%Z] fixtures.emptyDB).
  intros r _. by exists 0%Z.
Defined.

(** X18. [NewDepot] fails with the error of the first root whose size
    cannot be established; the roots after it are not looked at. *)
Theorem NewDepot_first_failure (est : string → Res Z) (pre post : list string)
    (r : string) (e : error) (maxSize : list Z) (db : kvStore) :
  (∀ x, x ∈ pre → ∃ s, est x = Ok s) → est r = Err e →
  NewDepot est (pre ++ r :: post) maxSize db = Err e.
Proof.
  intros Hpre He. unfold NewDepot. rewrite copyInto_roots.
  assert (establishSizes est (pre ++ r :: post) = Err e) as ->; [|done].
  induction pre as [|x pre IH]; simpl.
  - by rewrite He.
  - destruct (Hpre x) as [s ->]; [by left|]. simpl.
    rewrite IH; [done|]. intros y Hy. apply Hpre. by right.
Qed.

Lemma NewDepot_first_failure_witness :
  NewDepot (λ root, if decide (root = "/depot1") then Err (ErrIO "no such directory")
                    else Ok 0%Z)
    (["/depot0"] ++ "/depot1" :: ["/depot2"]) [] fixtures.emptyDB
  = Err (ErrIO "no such directory").
Proof.
  apply NewDepot_first_failure.
  - intros x ->%list_elem_of_singleton. by exists 0%Z.
  - reflexivity.
Defined.

(** ** Rebuilding games *)

Section rebuild_more.
Context {os : OS} {rb : Rebuilder}.

(** The fix game after the missing roms [ms] are added one by one. *)
Lemma addMissing_fold (game g : Game) (ms : list Rom) :
  foldl (λ fg r, Some (addMissing game fg r)) (Some g) ms
  = Some (mkGame (Game_Name g) (Game_Description g) (Game_Roms g ++ ms)).
Proof.
  revert g. induction ms as [|m ms IH]; intros g; simpl.
  - rewrite app_nil_r. by destruct g.
  - rewrite IH. simpl. by rewrite <- (assoc_L (++)).
Qed.

Lemma buildRoms_result (depot : Depot) (fs : FS) (game : Game) (roms : list Rom)
    (fixGame fixGame' : option Game) (foundRom foundRom' : bool) :
  buildRoms depot fs game roms fixGame foundRom = Ok (fixGame', foundRom') →
  foundRom' = foundRom || existsb (λ r, negb (isMissing depot fs r)) roms
  ∧ fixGame' = foldl (λ fg r, Some (addMissing game fg r)) fixGame
                 (filter (λ r, isMissing depot fs r = true) roms).
Proof.
  revert fixGame foundRom.
  induction roms as [|rom roms IH]; intros fixGame foundRom; simpl.
  - intros [= <- <-]. by rewrite orb_false_r.
  - rewrite filter_cons. cbn [buildRoms existsb].
    destruct (isMissing depot fs rom) eqn:Hm; intros Hrun.
    + rewrite decide_True by done.
      assert (buildRoms depot fs game roms (Some (addMissing game fixGame rom)) foundRom
              = Ok (fixGame', foundRom')) as Hrest.
      { unfold isMissing in Hm. destruct (Rom_Sha1 rom); [|done].
        destruct (OpenRomGZ depot fs rom) as [[f|]|e]; simpl in *; done. }
      apply IH in Hrest as [-> ->]. done.
    + rewrite decide_False by done.
      assert (buildRoms depot fs game roms fixGame true = Ok (fixGame', foundRom'))
        as Hrest.
      { unfold isMissing in Hm. destruct (Rom_Sha1 rom); [|done].
        destruct (OpenRomGZ depot fs rom) as [[f|]|e]; simpl in *; try done.
        by destruct (addRom f (Rom_Name rom)). }
      apply IH in Hrest as [-> ->]. simpl. by rewrite orb_true_r.
Qed.

Lemma buildGame_result (depot : Depot) (fs : FS) (game : Game) (gamePath : string)
    (fixGame : option Game) (foundRom : bool) :
  buildGame depot fs game gamePath = Ok (fixGame, foundRom) →
  foundRom = existsb (λ r, negb (isMissing depot fs r)) (Game_Roms game)
  ∧ fixGame = match missingRoms depot fs game with
              | [] => None
              | ms => Some (mkGame (Game_Name game) (Game_Description game) ms)
              end.
Proof.
  unfold buildGame. destruct (createGame gamePath); [done|].
  intros Hrun. apply buildRoms_result in Hrun as [-> ->]. split; [done|].
  unfold missingRoms.
  destruct (filter _ (Game_Roms game)) as [|m ms]; [done|].
  simpl. by rewrite addMissing_fold.
Qed.

Lemma missingRoms_nil (depot : Depot) (fs : FS) (game : Game) :
  missingRoms depot fs game = []
  ↔ ∀ rom, rom ∈ Game_Roms game → isMissing depot fs rom = false.
Proof.
  unfold missingRoms. split.
  - intros Hnil rom Hin. apply not_true_iff_false. intros Hm.
    assert (rom ∈ filter (λ r, isMissing depot fs r = true) (Game_Roms game)) as Hf
      by (by apply list_elem_of_filter).
    rewrite Hnil in Hf. by apply elem_of_nil in Hf.
  - intros Hall. destruct (filter _ (Game_Roms game)) as [|m ms] eqn:Hf; [done|].
    assert (m ∈ filter (λ r, isMissing depot fs r = true) (Game_Roms game)) as Hm
      by (rewrite Hf; left).
    apply list_elem_of_filter in Hm as [Hm Hin]. by rewrite (Hall m Hin) in Hm.
Qed.

Lemma buildGames_result (depot : Depot) (fs : FS) (dat : Dat) (datPath : string)
    (games : list Game) (fixDat fixDat' : option Dat) :
  buildGames depot fs dat datPath games fixDat = Ok fixDat' →
  (fixDat' = None
   ↔ fixDat = None
     ∧ ∀ game rom, game ∈ games → rom ∈ Game_Roms game → isMissing depot fs rom = false).
Proof.
  revert fixDat. induction games as [|game games IH]; intros fixDat; simpl.
  - intros [= <-]. split; [intros ->; split; [done|]|by intros [-> _]].
    intros game rom Hg. by apply elem_of_nil in Hg.
  - destruct (buildGame depot fs game _) as [[fixGame foundRom]|e] eqn:Hgame; [|done].
    simpl. apply buildGame_result in Hgame as [_ ->].
    intros Hrun.
    assert (buildGames depot fs dat datPath games
              match match missingRoms depot fs game with
                    | [] => None
                    | ms => Some (mkGame (Game_Name game) (Game_Description game) ms)
                    end with
              | Some fixGame => Some (addFixGame dat fixDat fixGame)
              | None => fixDat
              end = Ok fixDat') as Hrest.
    { destruct foundRom; [done|]. by destruct (removeGame _). }
    clear Hrun. apply IH in Hrest. rewrite Hrest. clear Hrest.
    pose proof (missingRoms_nil depot fs game) as Hnil.
    destruct (missingRoms depot fs game) as [|m ms].
    + split.
      * intros [-> Hall]. split; [done|]. intros g rom [->|Hg]%elem_of_cons Hrom.
        -- by apply Hnil.
        -- by eapply Hall.
      * intros [-> Hall]. split; [done|]. intros g rom Hg. apply Hall. by right.
    + split; [by intros [? _]|].
      intros [_ Hall]. assert (m :: ms = []) as Habs; [|done].
      apply Hnil. intros rom. apply Hall. by left.
Qed.

End rebuild_more.

(** X19. When [buildGame] returns without an error, the fix game it returns
    lists the missing roms of the game (those without a SHA1 and those
    [OpenRomGZ] finds no blob for) in the order of the game, under the name
    and the description of the game; it is [nil] when no rom is missing.
    [foundRom] tells whether some rom was not missing. *)
Theorem buildGame_fix_game_lists_missing `{Rebuilder} (depot : Depot) (fs : FS)
    (game : Game) (gamePath : string) (fixGame : option Game) (foundRom : bool) :
  buildGame depot fs game gamePath = Ok (fixGame, foundRom) →
  (foundRom = true ↔ ∃ rom, rom ∈ Game_Roms game ∧ isMissing depot fs rom = false)
  ∧ (missingRoms depot fs game = [] → fixGame = None)
  ∧ (missingRoms depot fs game ≠ [] →
     fixGame = Some (mkGame (Game_Name game) (Game_Description game)
                       (missingRoms depot fs game))).
Proof.
  intros Hrun. apply buildGame_result in Hrun as [-> ->]. split_and!.
  - rewrite existsb_exists. split.
    + intros (rom & Hin & Hm). exists rom. split; [by apply list_elem_of_In|].
      by apply negb_true_iff.
    + intros (rom & Hin & Hm). exists rom. split; [by apply list_elem_of_In|].
      by apply negb_true_iff.
  - by intros ->.
  - intros Hne. by destruct (missingRoms depot fs game).
Qed.

Lemma buildGame_fix_game_lists_missing_witness :
  (true = true ↔ ∃ rom, rom ∈ Game_Roms halfGame ∧ isMissing oneRoot knownFS rom = false)
  ∧ (missingRoms oneRoot knownFS halfGame = [] → Some (mkGame "game" "" [absentRom]) = None)
  ∧ (missingRoms oneRoot knownFS halfGame ≠ [] →
     Some (mkGame "game" "" [absentRom])
     = Some (mkGame (Game_Name halfGame) (Game_Description halfGame)
               (missingRoms oneRoot knownFS halfGame))).
Proof.
  apply (buildGame_fix_game_lists_missing oneRoot knownFS halfGame "/out/game.zip").
  vm_compute. reflexivity.
Defined.

(** X20. When [BuildDat] returns without an error, it returns [true]
    exactly when no rom of any game of the Dat is missing, that is when no
    fix Dat had to be written. *)
Theorem BuildDat_complete_iff_nothing_missing `{Rebuilder} (depot : Depot) (fs : FS)
    (dat : Dat) (outpath : string) (complete : bool) :
  BuildDat depot fs dat outpath = Ok complete →
  (complete = true
   ↔ ∀ game rom, game ∈ Dat_Games dat → rom ∈ Game_Roms game →
                 isMissing depot fs rom = false).
Proof.
  unfold BuildDat. destruct (mkdirDat _); [done|].
  destruct (buildGames depot fs dat _ (Dat_Games dat) None) as [fixDat|e] eqn:Hgames;
    [|done].
  apply buildGames_result in Hgames. simpl.
  destruct fixDat as [fd|].
  - destruct (writeFixDat _ fd); [done|]. intros [= <-].
    split; [done|]. intros Hall.
    assert (Some fd = None) as Habs by (apply Hgames; by split). done.
  - intros [= <-]. split; [|done]. intros _. by apply Hgames.
Qed.

Lemma BuildDat_complete_iff_nothing_missing_witness :
  false = true
  ↔ ∀ game rom, game ∈ Dat_Games (mkDat "dat" "" "" 0 false [halfGame]) →
                rom ∈ Game_Roms game → isMissing oneRoot knownFS rom = false.
Proof.
  apply (BuildDat_complete_iff_nothing_missing oneRoot knownFS
           (mkDat "dat" "" "" 0 false [halfGame]) "/out").
  vm_compute. reflexivity.
Defined.

(** ** Round trips through the index *)

Section round_trips.
Context `{Codec}.

Local Ltac slia := unfold sha1_Size in *; lia.

Local Ltac step :=
  match goal with
  | H : res_bind ?r _ = Ok _ |- _ => destruct r eqn:?; simpl in H; [|done]
  | H : match ?x with _ => _ end = Ok _ |- _ => destruct x eqn:?; simpl in H; try done
  | H : Ok _ = Ok _ |- _ => inversion H; subst; clear H
  end.

Local Tactic Notation "bind_inv" hyp(H) "as" ident(x) ident(E) :=
  match type of H with
  | res_bind ?r _ = Ok _ => destruct r as [x|] eqn:E; cbn [res_bind] in H; [|done]
  end.

(** The inner loop that ends without finding the digest has read every
    chunk: the value is a concatenation of 20-byte digests. *)
Lemma findSha1_false_length n j dst c :
  findSha1 n j dst c = Some false → n = 0 ∨ j + sha1_Size * n ≤ length dst.
Proof.
  revert j. induction n as [|n IH]; intros j; simpl; [by left|].
  unfold slice. case_decide as Hs; [|done]. case_decide; [done|].
  intros Hrun. right. destruct (IH _ Hrun) as [->|Hle]; slia.
Qed.

Lemma findSha1_false_aligned dst c :
  findSha1 (trips (length dst)) 0 dst c = Some false → digest_aligned dst.
Proof.
  intros Hrun. apply findSha1_false_length in Hrun.
  unfold digest_aligned, trips, sha1_Size in *.
  pose proof (Nat.div_mod_eq (length dst + (20 - 1)) 20) as Hq.
  pose proof (Nat.mod_upper_bound (length dst + (20 - 1)) 20) as Hr.
  set (q := (length dst + (20 - 1)) / 20) in *.
  assert (length dst = q * 20) as -> by (destruct Hrun; lia).
  apply Nat.Div0.mod_mul.
Qed.

(** The inner loop that finds the digest has read a chunk. *)
Lemma findSha1_true_length n j dst c :
  findSha1 n j dst c = Some true → sha1_Size ≤ length dst.
Proof.
  revert j. induction n as [|n IH]; intros j; simpl; [done|].
  unfold slice. case_decide as Hs; [|done]. case_decide; [slia|]. apply IH.
Qed.

(** Appending one digest: it is found in the result, and the first digest
    of the result is the first digest there was, or the one appended. *)
Lemma appendUniqueSha1_one cur v r :
  length v = sha1_Size → appendUniqueSha1 cur v = Some r →
  holds r v ∧ take sha1_Size r = take sha1_Size (cur ++ v)
  ∧ sha1_Size ≤ length r.
Proof.
  intros Hlen. unfold appendUniqueSha1, holds.
  replace (trips (length v)) with 1 by (rewrite Hlen; done).
  simpl. unfold slice. rewrite decide_True by slia. simpl.
  rewrite drop_0, take_ge by slia.
  destruct (findSha1 (trips (length cur)) 0 cur v) as [[|]|] eqn:Hfind; [| |done].
  - intros [= <-]. pose proof (findSha1_true_length _ _ _ _ Hfind) as Hcur.
    split_and!; [done| |done]. by rewrite take_app_le by done.
  - intros [= <-]. pose proof (findSha1_false_aligned _ _ Hfind) as Hal.
    split_and!; [|done|rewrite length_app; slia].
    rewrite findSha1_digests by (by apply aligned_app).
    rewrite bool_decide_true; [done|].
    rewrite digests_app by done. apply elem_of_app. right. by left.
Qed.

(** Appending a digest that the value holds leaves the value as it is. *)
Lemma appendUniqueSha1_held r v :
  length v = sha1_Size → holds r v → appendUniqueSha1 r v = Some r.
Proof.
  intros Hlen Hheld. unfold appendUniqueSha1, holds in *.
  replace (trips (length v)) with 1 by (rewrite Hlen; done).
  simpl. unfold slice. rewrite decide_True by slia. simpl.
  rewrite drop_0, take_ge by slia.
  by rewrite Hheld.
Qed.

(** A batch of appends of the digest [v] keeps a value that holds [v]. *)
Lemma applyOps_keeps_held l m m' k v r :
  length v = sha1_Size → Forall (appendsOf v) l →
  applyOps m l = Ok m' → m !! k = Some r → holds r v → m' !! k = Some r.
Proof.
  intros Hlen Hl. revert m. induction Hl as [|op l [k' ->] Hl IH]; intros m; simpl.
  - by intros [= <-].
  - destruct (appendUniqueSha1 (default [] (m !! k')) v) as [r'|] eqn:Happ; simpl; [|done].
    intros Hrun Hk Hheld. apply (IH _ Hrun); [|done].
    destruct (decide (k' = k)) as [->|Hne].
    + rewrite Hk in Happ. simpl in Happ.
      rewrite appendUniqueSha1_held in Happ by done. simplify_eq.
      by rewrite lookup_insert_eq.
    + by rewrite lookup_insert_ne.
Qed.

(** After a batch of appends of the digest [v], a key of one of the appends
    has a value that holds [v]; its first digest is the first digest there
    was under the key, or [v]. *)
Lemma applyOps_appended l m m' k v :
  length v = sha1_Size → Forall (appendsOf v) l → OpAppend k v ∈ l →
  applyOps m l = Ok m' →
  ∃ r, m' !! k = Some r ∧ holds r v
       ∧ take sha1_Size r = take sha1_Size (default [] (m !! k) ++ v)
       ∧ sha1_Size ≤ length r.
Proof.
  intros Hlen Hl. revert m. induction Hl as [|op l [k' ->] Hl IH]; intros m Hin; simpl.
  - by apply elem_of_nil in Hin.
  - destruct (appendUniqueSha1 (default [] (m !! k')) v) as [r'|] eqn:Happ; simpl; [|done].
    intros Hrun. destruct (decide (k' = k)) as [->|Hne].
    + destruct (appendUniqueSha1_one _ _ _ Hlen Happ) as (Hheld & Htake & Hlen').
      exists r'. split_and!; [|done|done|done].
      apply (applyOps_keeps_held l (<[k:=r']> m) m' k v r'); try done.
      by rewrite lookup_insert_eq.
    + apply elem_of_cons in Hin as [[= ? ]|Hin]; [done|].
      destruct (IH _ Hin Hrun) as (r & Hr & Hheld & Htake & Hlen').
      exists r. rewrite lookup_insert_ne in Htake by done. done.
Qed.

(** What a successful [Flush] of a batch whose counter is not 0 has
    written. *)
Lemma Flush_written db kvb db' kvb' :
  size kvb ≠ 0%Z → Flush db kvb = (db', kvb', None) →
  WriteBatch (datsDB db) (datsBatch kvb) = Ok (datsDB db')
  ∧ WriteBatch (crcDB db) (crcBatch kvb) = Ok (crcDB db')
  ∧ WriteBatch (md5DB db) (md5Batch kvb) = Ok (md5DB db')
  ∧ WriteBatch (sha1DB db) (sha1Batch kvb) = Ok (sha1DB db')
  ∧ WriteBatch (crcsha1DB db) (crcsha1Batch kvb) = Ok (crcsha1DB db')
  ∧ WriteBatch (md5sha1DB db) (md5sha1Batch kvb) = Ok (md5sha1DB db')
  ∧ generation db' = generation db.
Proof.
  intros Hsize. unfold Flush. rewrite decide_False by done.
  destruct (WriteBatch (datsDB db) (datsBatch kvb)) as [st1|]; [|done]. simpl.
  destruct (WriteBatch (crcDB db) (crcBatch kvb)) as [st2|]; [|done]. simpl.
  destruct (WriteBatch (md5DB db) (md5Batch kvb)) as [st3|]; [|done]. simpl.
  destruct (WriteBatch (sha1DB db) (sha1Batch kvb)) as [st4|]; [|done]. simpl.
  destruct (WriteBatch (crcsha1DB db) (crcsha1Batch kvb)) as [st5|]; [|done]. simpl.
  destruct (WriteBatch (md5sha1DB db) (md5sha1Batch kvb)) as [st6|]; [|done]. simpl.
  intros [= <- <-]. done.
Qed.

Lemma Close_written db kvb db' :
  size kvb ≠ 0%Z → Close db kvb = (db', None) →
  WriteBatch (datsDB db) (datsBatch kvb) = Ok (datsDB db')
  ∧ WriteBatch (crcDB db) (crcBatch kvb) = Ok (crcDB db')
  ∧ WriteBatch (md5DB db) (md5Batch kvb) = Ok (md5DB db')
  ∧ WriteBatch (sha1DB db) (sha1Batch kvb) = Ok (sha1DB db')
  ∧ WriteBatch (crcsha1DB db) (crcsha1Batch kvb) = Ok (crcsha1DB db')
  ∧ WriteBatch (md5sha1DB db) (md5sha1Batch kvb) = Ok (md5sha1DB db')
  ∧ generation db' = generation db.
Proof.
  intros Hsize. unfold Close.
  destruct (Flush db kvb) as [[db1 kvb1] err] eqn:Hflush.
  intros [= -> ->]. by eapply Flush_written.
Qed.

Lemma WriteBatch_data st b st' :
  WriteBatch st b = Ok st' →
  applyOps (data st) (ops b) = Ok (data st') ∧ keySize st' = keySize st.
Proof.
  unfold WriteBatch. destruct (applyOps (data st) (ops b)); simpl; [|done].
  by intros [= <-].
Qed.

(** What [IndexDat] queues for one rom on the batches of the [dats], [sha1]
    and [md5sha1] maps. *)
Lemma indexDatRom_queued sb kvb r kvb' :
  indexDatRom sb kvb r = Ok kvb' →
  datsBatch kvb' = datsBatch kvb
  ∧ batchKeySize (sha1Batch kvb') = batchKeySize (sha1Batch kvb)
  ∧ ops (sha1Batch kvb')
    = ops (sha1Batch kvb)
      ++ match Rom_Sha1 r with Some rs => [OpAppend rs sb] | None => [] end
  ∧ (∀ rs, Rom_Sha1 r = Some rs → length rs = batchKeySize (sha1Batch kvb))
  ∧ batchKeySize (md5sha1Batch kvb') = batchKeySize (md5sha1Batch kvb)
  ∧ ops (md5sha1Batch kvb')
    = ops (md5sha1Batch kvb)
      ++ match Rom_Md5 r, Rom_Sha1 r with
         | Some rm, Some rs => [OpAppend rm rs]
         | _, _ => []
         end
  ∧ (∀ rm rs, Rom_Md5 r = Some rm → Rom_Sha1 r = Some rs →
              length rm = batchKeySize (md5sha1Batch kvb)).
Proof.
  unfold indexDatRom, BatchAppend. intros Hrun.
  destruct (Rom_Sha1 r) as [rs|], (Rom_Md5 r) as [rm|], (Rom_Crc r) as [rc|];
    simpl in Hrun;
    repeat (case_decide; simpl in Hrun; [|done]);
    simplify_eq; simpl; rewrite ?app_nil_r;
    split_and!; try done; intros; by simplify_eq.
Qed.

Lemma indexDatRoms_queued sb roms kvb kvb' :
  indexDatRoms sb kvb roms = Ok kvb' →
  datsBatch kvb' = datsBatch kvb
  ∧ batchKeySize (sha1Batch kvb') = batchKeySize (sha1Batch kvb)
  ∧ ∃ added, ops (sha1Batch kvb') = ops (sha1Batch kvb) ++ added
             ∧ Forall (appendsOf sb) added
             ∧ ∀ r rs, r ∈ roms → Rom_Sha1 r = Some rs →
                 OpAppend rs sb ∈ added
                 ∧ length rs = batchKeySize (sha1Batch kvb).
Proof.
  revert kvb. induction roms as [|r roms IH]; intros kvb Hrun; simpl in Hrun.
  - simplify_eq. split_and!; try done. exists []. rewrite app_nil_r.
    split_and!; [done|done|]. intros r rs Hr. by apply elem_of_nil in Hr.
  - step. apply indexDatRom_queued in Heqr0 as (Hd & Hk & Hops & Hlen & _).
    apply IH in Hrun as (Hd' & Hk' & added & Hops' & Hall & Hin).
    split_and!; [congruence|congruence|].
    exists (match Rom_Sha1 r with Some rs => [OpAppend rs sb] | None => [] end ++ added).
    split_and!.
    + rewrite Hops', Hops. by rewrite <- (assoc_L (++)).
    + apply Forall_app. split; [|done].
      destruct (Rom_Sha1 r); [|done]. constructor; [by eexists|done].
    + intros r' rs [->|Hr']%elem_of_cons Hrs.
      * rewrite Hrs. split; [|by apply Hlen]. apply elem_of_app. left. by left.
      * destruct (Hin r' rs Hr' Hrs) as [Ha Hl]. split; [|congruence].
        apply elem_of_app. by right.
Qed.

Lemma indexDatGames_queued sb games kvb kvb' :
  indexDatGames sb kvb games = Ok kvb' →
  datsBatch kvb' = datsBatch kvb
  ∧ batchKeySize (sha1Batch kvb') = batchKeySize (sha1Batch kvb)
  ∧ ∃ added, ops (sha1Batch kvb') = ops (sha1Batch kvb) ++ added
             ∧ Forall (appendsOf sb) added
             ∧ ∀ g r rs, g ∈ games → r ∈ Game_Roms g → Rom_Sha1 r = Some rs →
                 OpAppend rs sb ∈ added
                 ∧ length rs = batchKeySize (sha1Batch kvb).
Proof.
  revert kvb. induction games as [|g games IH]; intros kvb Hrun; simpl in Hrun.
  - simplify_eq. split_and!; try done. exists []. rewrite app_nil_r.
    split_and!; [done|done|]. intros g r rs Hg. by apply elem_of_nil in Hg.
  - step. apply indexDatRoms_queued in Heqr as (Hd & Hk & added1 & Hops & Hall1 & Hin1).
    apply IH in Hrun as (Hd' & Hk' & added & Hops' & Hall & Hin).
    split_and!; [congruence|congruence|].
    exists (added1 ++ added). split_and!.
    + rewrite Hops', Hops. by rewrite <- (assoc_L (++)).
    + by apply Forall_app.
    + intros g' r rs [->|Hg']%elem_of_cons Hr Hrs.
      * destruct (Hin1 r rs Hr Hrs) as [Ha Hl]. split; [|done].
        apply elem_of_app. by left.
      * destruct (Hin g' r rs Hg' Hr Hrs) as [Ha Hl]. split; [|congruence].
        apply elem_of_app. by right.
Qed.

Lemma StartBatch_fresh db : freshFor db (StartBatch db).
Proof. by split. Qed.

(** [IndexDat] on a fresh batch queues one [Set] on the batch of the [dats]
    map: the encoding of the Dat under its digest. *)
Lemma kvBatch_IndexDat_dats db dat sb buf kvb0 kvb :
  freshFor db kvb0 →
  length sb = keySize (datsDB db) →
  gobEncode (set_Generation dat (generation db)) = Ok buf →
  kvBatch_IndexDat db kvb0 dat (Some sb) = Ok kvb →
  ops (datsBatch kvb) = [OpSet sb buf].
Proof.
  intros [Hfd _] Hlen Henc. unfold kvBatch_IndexDat. rewrite Henc. cbn [res_bind].
  unfold BatchSet. rewrite Hfd. rewrite decide_True by done.
  destruct (if Dat_Artificial (set_Generation dat (generation db)) then Ok false
            else match Exists (datsDB db) sb with
                 | Ok e => Ok e
                 | Err _ => Err (ErrIO "failed to lookup sha1 indexing dats")
                 end) as [[|]|e]; cbn [res_bind]; [| |done].
  - by intros [= <-].
  - intros Hrun. apply indexDatGames_queued in Hrun as (-> & _). done.
Qed.

(** What a successful [IndexDat] and write leave in the [dats] map. *)
Lemma IndexDat_stored db db' dat sb buf kvb0 kvb :
  freshFor db kvb0 →
  length sb = keySize (datsDB db) →
  gobEncode (set_Generation dat (generation db)) = Ok buf →
  kvBatch_IndexDat db kvb0 dat (Some sb) = Ok kvb →
  size kvb ≠ 0%Z →
  Close db kvb = (db', None) →
  Get (datsDB db') sb = Ok (Some buf)
  ∧ ∀ k, k ≠ sb → data (datsDB db') !! k = data (datsDB db) !! k.
Proof.
  intros Hfresh0 Hlen Henc Hbatch Hsize Hclose.
  pose proof (kvBatch_IndexDat_dats db dat sb buf kvb0 kvb Hfresh0 Hlen Henc Hbatch)
    as Hops.
  destruct (Close_written db kvb db' Hsize Hclose) as (Hw & _).
  apply WriteBatch_data in Hw as [Hdata Hks]. rewrite Hops in Hdata.
  simpl in Hdata. injection Hdata as Hdata. split.
  - unfold Get. rewrite decide_True by congruence.
    by rewrite <- Hdata, lookup_insert_eq.
  - intros k Hk. by rewrite <- Hdata, lookup_insert_ne.
Qed.

(** What a successful [IndexDat] of a Dat that is not in the index yet, or
    is artificial, and write leave in the [sha1] map for a rom of the Dat. *)
Lemma IndexDat_linked db db' dat sb buf kvb0 kvb game rom rs :
  freshFor db kvb0 →
  length sb = sha1_Size → length sb = keySize (datsDB db) →
  gobEncode (set_Generation dat (generation db)) = Ok buf →
  Dat_Artificial dat = true ∨ data (datsDB db) !! sb = None →
  game ∈ Dat_Games dat → rom ∈ Game_Roms game → Rom_Sha1 rom = Some rs →
  kvBatch_IndexDat db kvb0 dat (Some sb) = Ok kvb →
  size kvb ≠ 0%Z →
  Close db kvb = (db', None) →
  ∃ r, Get (sha1DB db') rs = Ok (Some r) ∧ holds r sb.
Proof.
  intros [_ Hfs] Hlen Hks Henc Hfresh Hgame Hrom Hrs Hbatch Hsize Hclose.
  unfold kvBatch_IndexDat in Hbatch. rewrite Henc in Hbatch. cbn [res_bind] in Hbatch.
  assert ((if Dat_Artificial (set_Generation dat (generation db)) then Ok false
           else match Exists (datsDB db) sb with
                | Ok e => Ok e
                | Err _ => Err (ErrIO "failed to lookup sha1 indexing dats")
                end) = Ok false) as Hex.
  { simpl. destruct Hfresh as [->|Hnone]; [done|].
    destruct (Dat_Artificial dat); [done|].
    unfold Exists. rewrite decide_True by done. rewrite Hnone.
    rewrite bool_decide_false; [done|]. by intros [? ?]. }
  rewrite Hex in Hbatch. cbn [res_bind] in Hbatch.
  apply indexDatGames_queued in Hbatch as (_ & Hk & added & Hops & Hall & Hin).
  destruct (Hin game rom rs Hgame Hrom Hrs) as [Hadded Hrslen].
  assert (ops (sha1Batch kvb) = added) as Hops'.
  { rewrite Hops. destruct (BatchSet _ sb buf); simpl; by rewrite Hfs. }
  assert (length rs = keySize (sha1DB db)) as Hrskey.
  { rewrite Hrslen. destruct (BatchSet _ sb buf); simpl; by rewrite Hfs. }
  destruct (Close_written db kvb db' Hsize Hclose) as (_ & _ & _ & Hw & _).
  apply WriteBatch_data in Hw as [Hdata Hks']. rewrite Hops' in Hdata.
  destruct (applyOps_appended added _ _ rs sb Hlen Hall Hadded Hdata)
    as (r & Hr & Hheld & _).
  exists r. split; [|done]. unfold Get. rewrite decide_True by congruence.
  by rewrite Hr.
Qed.

(** A rom with a SHA1 under which the [sha1] map has a value is resolved
    through that value. *)
Lemma resolveDatSha1s_sha1 db rom rs r :
  Rom_Sha1 rom = Some rs → Get (sha1DB db) rs = Ok (Some r) →
  resolveDatSha1s db rom = Ok (Some r).
Proof.
  intros Hrs Hget. unfold resolveDatSha1s. rewrite Hrs, Hget. simpl.
  by destruct (Rom_Md5 rom), (Rom_Crc rom).
Qed.

(** What [IndexRom] queues on the batch of the [md5sha1] map for a rom
    with an MD5 and a SHA1: appends of the SHA1 under the MD5, at least
    one. *)
Lemma kvBatch_IndexRom_md5sha1 db rom rs rm kvb :
  Rom_Sha1 rom = Some rs → Rom_Md5 rom = Some rm →
  kvBatch_IndexRom db (StartBatch db) rom = Ok kvb →
  length rm = keySize (md5sha1DB db)
  ∧ OpAppend rm rs ∈ ops (md5sha1Batch kvb)
  ∧ Forall (appendsOf rs) (ops (md5sha1Batch kvb)).
Proof.
  intros Hrs Hrm. unfold kvBatch_IndexRom. rewrite Hrs, Hrm.
  intros Hrun. bind_inv Hrun as k Hfirst.
  assert (length rm = keySize (md5sha1DB db)
          ∧ ops (md5sha1Batch k) = [OpAppend rm rs]) as [Hlen Hops].
  { unfold BatchAppend in Hfirst. destruct (Rom_Crc rom); simpl in Hfirst;
      repeat (case_decide; simpl in Hfirst; [|done]); by simplify_eq. }
  clear Hfirst.
  assert (∀ l, l = ops (md5sha1Batch k) ∨ l = ops (md5sha1Batch k) ++ [OpAppend rm rs] →
               OpAppend rm rs ∈ l ∧ Forall (appendsOf rs) l) as Hok.
  { intros l [->| ->]; rewrite Hops; split.
    - by left.
    - constructor; [by eexists|done].
    - by left.
    - repeat constructor; by eexists. }
  split; [done|]. apply Hok. clear Hok Hops.
  bind_inv Hrun as dats Hdats. case_decide.
  - left. unfold indexRomKnown in Hrun.
    bind_inv Hrun as ssd Hssd. case_decide; [|by simplify_eq].
    bind_inv Hrun as s1 Hs1. bind_inv Hrun as s2 Hs2.
    case_decide; [|by simplify_eq].
    unfold BatchSet in Hrun. case_decide; by simplify_eq.
  - right. bind_inv Hrun as buf Hbuf. unfold kvBatch_IndexDat in Hrun.
    bind_inv Hrun as buf' Hbuf'. simpl in Hrun.
    bind_inv Hrun as k1 Hroms. bind_inv Hroms as k2 Hrom. simplify_eq.
    apply indexDatRom_queued in Hrom as (_ & _ & _ & _ & _ & Hops & _).
    rewrite Hrs, Hrm in Hops. rewrite Hops. simpl.
    by destruct (BatchSet (datsBatch k) (sha1Sum buf) buf').
Qed.

End round_trips.

(** X21. Indexing a Dat and reading it back: when [IndexDat] has filled a
    fresh batch whose counter is not 0 and the batch is written without an
    error, the [dats] map holds under the digest of the Dat the encoding of
    the Dat stamped with the generation of the index, whatever was there
    before, [GetDat] on the digest returns its decoding, and the other keys
    of the [dats] map are as before. *)
Theorem IndexDat_then_GetDat `{Codec} (db db' : kvStore) (dat : Dat) (sb buf : bytes)
    (kvb : kvBatch) :
  length sb = keySize (datsDB db) →
  gobEncode (set_Generation dat (generation db)) = Ok buf →
  kvBatch_IndexDat db (StartBatch db) dat (Some sb) = Ok kvb →
  size kvb ≠ 0%Z →
  Close db kvb = (db', None) →
  kvStore_IndexDat db dat (Some sb) = (db', None)
  ∧ Get (datsDB db') sb = Ok (Some buf)
  ∧ GetDat db' sb = match gobDecode buf with
                    | Ok d => Ok (Some d)
                    | Err e => Err e
                    end
  ∧ ∀ k, k ≠ sb → data (datsDB db') !! k = data (datsDB db) !! k.
Proof.
  intros Hlen Henc Hbatch Hsize Hclose.
  destruct (IndexDat_stored db db' dat sb buf _ kvb (StartBatch_fresh db) Hlen Henc
              Hbatch Hsize Hclose) as [Hget Hother].
  split_and!; [|done| |done].
  - unfold kvStore_IndexDat. by rewrite Hbatch.
  - unfold GetDat. by rewrite Hget.
Qed.

Lemma IndexDat_then_GetDat_witness :
  kvStore_IndexDat fixtures.emptyDB sampleDat (Some sampleDigest) = (sampleIndexed, None)
  ∧ Get (datsDB sampleIndexed) sampleDigest = Ok (Some sampleBuf)
  ∧ GetDat sampleIndexed sampleDigest = match gobDecode sampleBuf with
                                        | Ok d => Ok (Some d)
                                        | Err e => Err e
                                        end
  ∧ ∀ k, k ≠ sampleDigest →
         data (datsDB sampleIndexed) !! k = data (datsDB fixtures.emptyDB) !! k.
Proof.
  eapply (IndexDat_then_GetDat fixtures.emptyDB sampleIndexed sampleDat sampleDigest
            sampleBuf).
  - reflexivity.
  - reflexivity.
  - vm_compute. reflexivity.
  - vm_compute. discriminate.
  - vm_compute. reflexivity.
Defined.

(** X22. Indexing a Dat and asking for the Dats of one of its roms: when
    the Dat is artificial or its digest is not in the [dats] map yet,
    [IndexDat] has filled a fresh batch whose counter is not 0 and the batch
    is written without an error, then [DatsForRom] on a rom with the SHA1
    of a rom of the Dat, when it returns without an error, returns the Dat
    as decoded from the [dats] map among its results. *)
Theorem IndexDat_then_DatsForRom `{Codec} (db db' : kvStore) (dat dat' : Dat)
    (sb buf : bytes) (kvb : kvBatch) (game : Game) (rom rom' : Rom) (rs : bytes)
    (dats : list Dat) :
  length sb = sha1_Size → length sb = keySize (datsDB db) →
  gobEncode (set_Generation dat (generation db)) = Ok buf →
  gobDecode buf = Ok dat' →
  Dat_Artificial dat = true ∨ data (datsDB db) !! sb = None →
  game ∈ Dat_Games dat → rom ∈ Game_Roms game → Rom_Sha1 rom = Some rs →
  kvBatch_IndexDat db (StartBatch db) dat (Some sb) = Ok kvb →
  size kvb ≠ 0%Z →
  Close db kvb = (db', None) →
  Rom_Sha1 rom' = Some rs →
  DatsForRom db' rom' = Ok dats →
  dat' ∈ dats.
Proof.
  intros Hlen Hks Henc Hdec Hfresh Hgame Hrom Hrs Hbatch Hsize Hclose Hrs' Hdats.
  destruct (IndexDat_stored db db' dat sb buf _ kvb (StartBatch_fresh db) Hks Henc
              Hbatch Hsize Hclose) as [Hget _].
  destruct (IndexDat_linked db db' dat sb buf _ kvb game rom rs (StartBatch_fresh db)
              Hlen Hks Henc Hfresh Hgame Hrom Hrs Hbatch Hsize Hclose)
    as (r & Hr & Hheld).
  pose proof (resolveDatSha1s_sha1 db' rom' rs r Hrs' Hr) as Hres.
  rewrite (DatsForRom_deref db' rom' r Hres) in Hdats.
  destruct (derefAll db' (digests r)) as [l|e] eqn:Hderef; simpl in Hdats; [|done].
  case_decide as Hal; [|done]. simplify_eq.
  apply (derefAll_in db' (digests r) dats sb dat' Hderef).
  - unfold holds in Hheld. rewrite findSha1_digests in Hheld by done.
    simplify_eq. by apply bool_decide_eq_true in Hheld.
  - unfold GetDat. rewrite Hget. simpl. by rewrite Hdec.
Qed.

Lemma IndexDat_then_DatsForRom_witness : sampleDecoded ∈ [sampleDecoded].
Proof.
  eapply (IndexDat_then_DatsForRom fixtures.emptyDB sampleIndexed sampleDat sampleDecoded
            sampleDigest sampleBuf _ (mkGame "game" "" [sampleRom]) sampleRom sampleRom
            (fixtures.d20 Byte.x0e) [sampleDecoded]).
  - reflexivity.
  - reflexivity.
  - reflexivity.
  - reflexivity.
  - by right.
  - by left.
  - by left.
  - reflexivity.
  - vm_compute. reflexivity.
  - vm_compute. discriminate.
  - vm_compute. reflexivity.
  - reflexivity.
  - vm_compute. reflexivity.
Defined.

(** X23. Indexing a rom and completing a rom by its MD5: when [IndexRom]
    of a rom with a 20-byte SHA1 and an MD5 has filled a fresh batch whose
    counter is not 0 and the batch is written without an error,
    [CompleteRom] on the rom without its SHA1 sets the SHA1 to the first 20
    bytes of what the [md5sha1] map held under the MD5 followed by the SHA1
    of the rom: the SHA1 of the rom when the MD5 was not in the map, the
    SHA1 that was indexed first otherwise. *)
Theorem IndexRom_then_CompleteRom `{Codec} (db db' : kvStore) (rom : Rom)
    (rs rm : bytes) (kvb : kvBatch) :
  Rom_Sha1 rom = Some rs → length rs = sha1_Size → Rom_Md5 rom = Some rm →
  kvBatch_IndexRom db (StartBatch db) rom = Ok kvb →
  size kvb ≠ 0%Z →
  Close db kvb = (db', None) →
  kvStore_IndexRom db rom = (db', None)
  ∧ CompleteRom db' (without_Sha1 rom)
    = Ok (with_Sha1 rom (take sha1_Size (default [] (data (md5sha1DB db) !! rm) ++ rs)))
  ∧ (data (md5sha1DB db) !! rm = None →
     CompleteRom db' (without_Sha1 rom) = Ok (with_Sha1 rom rs)).
Proof.
  intros Hrs Hlen Hrm Hbatch Hsize Hclose.
  destruct (kvBatch_IndexRom_md5sha1 db rom rs rm kvb Hrs Hrm Hbatch)
    as (Hkey & Hin & Hall).
  destruct (Close_written db kvb db' Hsize Hclose) as (_ & _ & _ & _ & _ & Hw & _).
  apply WriteBatch_data in Hw as [Hdata Hks].
  destruct (applyOps_appended _ _ _ rm rs Hlen Hall Hin Hdata)
    as (r & Hr & _ & Htake & Hrlen).
  assert (CompleteRom db' (without_Sha1 rom)
          = Ok (with_Sha1 rom (take sha1_Size (default [] (data (md5sha1DB db) !! rm) ++ rs))))
    as Hcomplete.
  { unfold CompleteRom. simpl. rewrite Hrm. unfold Get.
    rewrite decide_True by congruence. rewrite Hr. simpl.
    rewrite decide_True by done. by rewrite Htake. }
  split_and!.
  - unfold kvStore_IndexRom. by rewrite Hbatch.
  - done.
  - intros Hnone. rewrite Hcomplete, Hnone. simpl.
    by rewrite take_ge by (unfold sha1_Size in *; lia).
Qed.

Lemma IndexRom_then_CompleteRom_witness :
  kvStore_IndexRom fixtures.emptyDB sourceRom = (sourceIndexed, None)
  ∧ CompleteRom sourceIndexed (without_Sha1 sourceRom)
    = Ok (with_Sha1 sourceRom
            (take sha1_Size
               (default [] (data (md5sha1DB fixtures.emptyDB) !! fixtures.d16 Byte.x0d)
                ++ fixtures.d20 Byte.x0e)))
  ∧ (data (md5sha1DB fixtures.emptyDB) !! fixtures.d16 Byte.x0d = None →
     CompleteRom sourceIndexed (without_Sha1 sourceRom)
     = Ok (with_Sha1 sourceRom (fixtures.d20 Byte.x0e))).
Proof.
  eapply (IndexRom_then_CompleteRom fixtures.emptyDB sourceIndexed sourceRom
            (fixtures.d20 Byte.x0e) (fixtures.d16 Byte.x0d)).
  - reflexivity.
  - reflexivity.
  - reflexivity.
  - vm_compute. reflexivity.
  - vm_compute. discriminate.
  - vm_compute. reflexivity.
Defined.

(** ** More on the index *)

(** X24. [dbSha1Append] and [appendUniqueSha1] agree: for a 20-byte digest
    and a key of the size of the store and of the batch, [dbSha1Append]
    panics when [appendUniqueSha1] of the value under the key and the
    digest does, leaves the batch as it is when that is the value under the
    key, and queues a [Set] of it under the key otherwise. *)
Theorem dbSha1Append_agrees_with_appendUniqueSha1 (st : KVStore) (batch : KVBatch)
    (key sha1Bytes : bytes) :
  length key = keySize st → length key = batchKeySize batch →
  length sha1Bytes = sha1_Size →
  dbSha1Append st batch (Some key) sha1Bytes
  = match appendUniqueSha1 (arg (data st !! key)) sha1Bytes with
    | None => Err Panic
    | Some r =>
        Ok (if decide (r = arg (data st !! key)) then batch
            else push batch (OpSet key r))
    end.
Proof.
  intros Hks Hbs Hlen. unfold dbSha1Append, Get, BatchSet, appendUniqueSha1.
  rewrite !decide_True by done.
  replace (trips (length sha1Bytes)) with 1 by (rewrite Hlen; done).
  simpl. unfold slice at 1. rewrite decide_True by (unfold sha1_Size in *; lia).
  simpl. rewrite drop_0, take_ge by (unfold sha1_Size in *; lia).
  destruct (findSha1 _ 0 (arg (data st !! key)) sha1Bytes) as [[|]|]; [| |done].
  - by rewrite decide_True.
  - rewrite decide_False; [done|]. intros Heq.
    apply (f_equal length) in Heq. rewrite length_app in Heq.
    unfold sha1_Size in *. lia.
Qed.

Lemma dbSha1Append_agrees_with_appendUniqueSha1_witness :
  dbSha1Append (mkStore 4 {[ fixtures.d4 Byte.x0c := fixtures.d20 Byte.x01 ]})
    (mkBatch 4 []) (Some (fixtures.d4 Byte.x0c)) (fixtures.d20 Byte.x02)
  = match appendUniqueSha1
            (arg ((data (mkStore 4 {[ fixtures.d4 Byte.x0c := fixtures.d20 Byte.x01 ]}))
                  !! fixtures.d4 Byte.x0c))
            (fixtures.d20 Byte.x02) with
    | None => Err Panic
    | Some r =>
        Ok (if decide (r = arg ((data (mkStore 4 {[ fixtures.d4 Byte.x0c
                                                    := fixtures.d20 Byte.x01 ]}))
                                !! fixtures.d4 Byte.x0c))
            then mkBatch 4 []
            else push (mkBatch 4 []) (OpSet (fixtures.d4 Byte.x0c) r))
    end.
Proof.
  apply (dbSha1Append_agrees_with_appendUniqueSha1
           (mkStore 4 {[ fixtures.d4 Byte.x0c := fixtures.d20 Byte.x01 ]})
           (mkBatch 4 []) (fixtures.d4 Byte.x0c) (fixtures.d20 Byte.x02)).
  - reflexivity.
  - reflexivity.
  - reflexivity.
Defined.

Lemma add64_one_ne (g : Z) : add64 g 1 ≠ g.
Proof.
  unfold add64, wrap64. intros Heq.
  pose proof (Z.mod_pos_bound (g + 1 + 2 ^ 63) (2 ^ 64) ltac:(lia)) as Hb.
  pose proof (Z.div_mod (g + 1 + 2 ^ 63) (2 ^ 64) ltac:(lia)) as Hd.
  set (q := ((g + 1 + 2 ^ 63) `div` 2 ^ 64)%Z) in *.
  set (r := ((g + 1 + 2 ^ 63) `mod` 2 ^ 64)%Z) in *.
  assert (2 ^ 64 * q = 1)%Z as Habs by lia.
  assert (q = 0 ∨ q < 0 ∨ 0 < q)%Z as [->|[Hq|Hq]] by lia; lia.
Qed.

(** X25. [OrphanDats] moves the index to the next generation, whether the
    generation file is written or not, and touches none of the six stores
    nor the path of the index. Dats stamped with the generation before are
    then stale: the scan of the purge at the new generation finds no blob
    used by them. *)
Theorem OrphanDats_makes_dats_stale (WriteGenerationFile : string → Z → option error)
    (db : kvStore) (dats : list Dat) :
  (∀ dat, dat ∈ dats → Dat_Generation dat = generation db) →
  Generation (OrphanDats WriteGenerationFile db).1 = add64 (generation db) 1
  ∧ datsDB (OrphanDats WriteGenerationFile db).1 = datsDB db
  ∧ crcDB (OrphanDats WriteGenerationFile db).1 = crcDB db
  ∧ md5DB (OrphanDats WriteGenerationFile db).1 = md5DB db
  ∧ sha1DB (OrphanDats WriteGenerationFile db).1 = sha1DB db
  ∧ crcsha1DB (OrphanDats WriteGenerationFile db).1 = crcsha1DB db
  ∧ md5sha1DB (OrphanDats WriteGenerationFile db).1 = md5sha1DB db
  ∧ path (OrphanDats WriteGenerationFile db).1 = path db
  ∧ (purgeScan (Generation (OrphanDats WriteGenerationFile db).1) dats None).1 = false.
Proof.
  intros Hgen. split_and!; try done. simpl. unfold Generation. simpl.
  generalize (@None Dat) as rd.
  induction dats as [|dat dats IH]; intros rd; simpl; [done|].
  rewrite (Hgen dat) by left.
  rewrite bool_decide_false by (intros Heq; by apply (add64_one_ne (generation db))).
  rewrite andb_false_r. apply IH. intros d Hd. apply Hgen. by right.
Qed.

Lemma OrphanDats_makes_dats_stale_witness :
  Generation (OrphanDats (λ _ _, Some (ErrIO "read-only file system")) fixtures.emptyDB).1
  = add64 (generation fixtures.emptyDB) 1
  ∧ datsDB (OrphanDats (λ _ _, Some (ErrIO "read-only file system")) fixtures.emptyDB).1
    = datsDB fixtures.emptyDB
  ∧ crcDB (OrphanDats (λ _ _, Some (ErrIO "read-only file system")) fixtures.emptyDB).1
    = crcDB fixtures.emptyDB
  ∧ md5DB (OrphanDats (λ _ _, Some (ErrIO "read-only file system")) fixtures.emptyDB).1
    = md5DB fixtures.emptyDB
  ∧ sha1DB (OrphanDats (λ _ _, Some (ErrIO "read-only file system")) fixtures.emptyDB).1
    = sha1DB fixtures.emptyDB
  ∧ crcsha1DB (OrphanDats (λ _ _, Some (ErrIO "read-only file system")) fixtures.emptyDB).1
    = crcsha1DB fixtures.emptyDB
  ∧ md5sha1DB (OrphanDats (λ _ _, Some (ErrIO "read-only file system")) fixtures.emptyDB).1
    = md5sha1DB fixtures.emptyDB
  ∧ path (OrphanDats (λ _ _, Some (ErrIO "read-only file system")) fixtures.emptyDB).1
    = path fixtures.emptyDB
  ∧ (purgeScan
       (Generation
          (OrphanDats (λ _ _, Some (ErrIO "read-only file system")) fixtures.emptyDB).1)
       [sampleDat] None).1 = false.
Proof.
  apply (OrphanDats_makes_dats_stale (λ _ _, Some (ErrIO "read-only file system"))
           fixtures.emptyDB [sampleDat]).
  intros dat ->%list_elem_of_singleton. reflexivity.
Defined.

Section index_rom.
Context `{Codec}.

Local Tactic Notation "bind_inv" hyp(H) "as" ident(x) ident(E) :=
  match type of H with
  | res_bind ?r _ = Ok _ => destruct r as [x|] eqn:E; cbn [res_bind] in H; [|done]
  end.

(** The head of [IndexRom], which links the CRC and the MD5 of the rom to
    its SHA1, queues nothing for the [dats], [crc], [md5] and [sha1]
    maps. *)
Lemma IndexRom_head_queued db rom k :
  match Rom_Sha1 rom with
  | Some rs =>
      kvb <-? match Rom_Crc rom with
              | Some rc =>
                  b <-? BatchAppend (crcsha1Batch (StartBatch db)) rc rs;
                  Ok (grow (with_crcsha1Batch (StartBatch db) b) sha1_Size)
              | None => Ok (StartBatch db)
              end;
      match Rom_Md5 rom with
      | Some rm =>
          b <-? BatchAppend (md5sha1Batch kvb) rm rs;
          Ok (grow (with_md5sha1Batch kvb b) sha1_Size)
      | None => Ok kvb
      end
  | None => Ok (StartBatch db)
  end = Ok k →
  datsBatch k = StoreStartBatch (datsDB db)
  ∧ crcBatch k = StoreStartBatch (crcDB db)
  ∧ md5Batch k = StoreStartBatch (md5DB db)
  ∧ sha1Batch k = StoreStartBatch (sha1DB db).
Proof.
  unfold BatchAppend.
  destruct (Rom_Sha1 rom), (Rom_Crc rom), (Rom_Md5 rom); simpl;
    repeat (case_decide; simpl; [|done]); by intros [= <-].
Qed.

Lemma WriteBatch_nothing st b : ops b = [] → WriteBatch st b = Ok st.
Proof. intros Hops. unfold WriteBatch. rewrite Hops. by destruct st. Qed.

(** A flush writes nothing to a store for which nothing is queued. *)
Lemma Flush_untouched db kvb db' kvb' err :
  ops (datsBatch kvb) = [] → ops (crcBatch kvb) = [] → ops (md5Batch kvb) = [] →
  Flush db kvb = (db', kvb', err) →
  datsDB db' = datsDB db ∧ crcDB db' = crcDB db ∧ md5DB db' = md5DB db.
Proof.
  intros Hd Hc Hm. unfold Flush. case_decide; [by intros [= <- <- <-]|].
  rewrite (WriteBatch_nothing _ _ Hd). simpl.
  rewrite (WriteBatch_nothing _ _ Hc). simpl.
  rewrite (WriteBatch_nothing _ _ Hm). simpl.
  destruct (WriteBatch (sha1DB db) (sha1Batch kvb)); [|by intros [= <- <- <-]]. simpl.
  destruct (WriteBatch (crcsha1DB db) (crcsha1Batch kvb)); [|by intros [= <- <- <-]]. simpl.
  destruct (WriteBatch (md5sha1DB db) (md5sha1Batch kvb)); by intros [= <- <- <-].
Qed.

(** A Dat stored under a digest that the value of the [sha1] map under the
    SHA1 of a rom holds is among the Dats of the rom. *)
Lemma linked_then_DatsForRom db rom rs r sb buf dat dats :
  Get (datsDB db) sb = Ok (Some buf) → gobDecode buf = Ok dat →
  Get (sha1DB db) rs = Ok (Some r) → holds r sb →
  Rom_Sha1 rom = Some rs →
  DatsForRom db rom = Ok dats → dat ∈ dats.
Proof.
  intros Hget Hdec Hr Hheld Hrs Hdats.
  pose proof (resolveDatSha1s_sha1 db rom rs r Hrs Hr) as Hres.
  rewrite (DatsForRom_deref db rom r Hres) in Hdats.
  destruct (derefAll db (digests r)) as [l|e] eqn:Hderef; simpl in Hdats; [|done].
  case_decide as Hal; [|done]. simplify_eq.
  apply (derefAll_in db (digests r) dats sb dat Hderef).
  - unfold holds in Hheld. rewrite findSha1_digests in Hheld by done.
    simplify_eq. by apply bool_decide_eq_true in Hheld.
  - unfold GetDat. rewrite Hget. simpl. by rewrite Hdec.
Qed.

End index_rom.

(** X26. [IndexRom] of a rom that some Dat of the index lists makes no
    artificial Dat: whatever it returns, the [dats], the [crc] and the [md5]
    map are what they were (only the [sha1] map and the two maps from a CRC
    or an MD5 to SHA1s can change). *)
Theorem IndexRom_of_known_rom_adds_no_dat `{Codec} (db : kvStore) (rom : Rom)
    (dats : list Dat) :
  DatsForRom db rom = Ok dats → dats ≠ [] →
  datsDB (kvStore_IndexRom db rom).1 = datsDB db
  ∧ crcDB (kvStore_IndexRom db rom).1 = crcDB db
  ∧ md5DB (kvStore_IndexRom db rom).1 = md5DB db.
Proof.
  intros Hdats Hne. unfold kvStore_IndexRom.
  destruct (kvBatch_IndexRom db (StartBatch db) rom) as [kvb|e] eqn:Hbatch; [|done].
  unfold kvBatch_IndexRom in Hbatch.
  match type of Hbatch with
  | res_bind ?r _ = Ok _ => destruct r as [k|] eqn:Hhead; cbn [res_bind] in Hbatch; [|done]
  end.
  apply IndexRom_head_queued in Hhead as (Hd & Hc & Hm & Hs).
  rewrite Hdats in Hbatch. cbn [res_bind] in Hbatch.
  rewrite decide_True in Hbatch by (destruct dats; [done|simpl; lia]).
  assert (datsBatch kvb = datsBatch k ∧ crcBatch kvb = crcBatch k
          ∧ md5Batch kvb = md5Batch k) as (Hd' & Hc' & Hm').
  { unfold indexRomKnown in Hbatch.
    destruct (Get (sha1DB db) (arg (Rom_Sha1 rom))) as [ssd|]; cbn [res_bind] in Hbatch;
      [|done].
    case_decide; [|by simplify_eq].
    match type of Hbatch with
    | res_bind ?r _ = Ok _ => destruct r as [s1|]; cbn [res_bind] in Hbatch; [|done]
    end.
    match type of Hbatch with
    | res_bind ?r _ = Ok _ => destruct r as [s2|]; cbn [res_bind] in Hbatch; [|done]
    end.
    case_decide; [|by simplify_eq].
    destruct (BatchSet (sha1Batch k) (arg (Rom_Sha1 rom)) s2); by simplify_eq. }
  unfold Close. destruct (Flush db kvb) as [[db' kvb'] err] eqn:Hflush. simpl.
  apply Flush_untouched in Hflush; [done| | |].
  - by rewrite Hd', Hd.
  - by rewrite Hc', Hc.
  - by rewrite Hm', Hm.
Qed.

Lemma IndexRom_of_known_rom_adds_no_dat_witness :
  datsDB (kvStore_IndexRom sampleIndexed sampleRom).1 = datsDB sampleIndexed
  ∧ crcDB (kvStore_IndexRom sampleIndexed sampleRom).1 = crcDB sampleIndexed
  ∧ md5DB (kvStore_IndexRom sampleIndexed sampleRom).1 = md5DB sampleIndexed.
Proof.
  apply (IndexRom_of_known_rom_adds_no_dat sampleIndexed sampleRom [sampleDecoded]).
  - vm_compute. reflexivity.
  - discriminate.
Defined.

(** X27. Indexing a rom that no Dat lists and asking for its Dats: when
    [DatsForRom] finds nothing for a rom with a SHA1, [IndexRom] has filled
    a fresh batch whose counter is not 0 and the batch is written without an
    error, the [dats] map holds the encoding of the artificial Dat of the
    rom under the SHA1 of that encoding, and [DatsForRom] on the rom, when
    it returns without an error, returns that Dat as decoded among its
    results. *)
Theorem IndexRom_then_DatsForRom `{Codec} (db db' : kvStore) (rom : Rom) (rs buf : bytes)
    (dat' : Dat) (kvb : kvBatch) (dats : list Dat) :
  keySize (datsDB db) = sha1_Size →
  Rom_Sha1 rom = Some rs →
  DatsForRom db rom = Ok [] →
  gobEncode (artificialDat db rom) = Ok buf →
  gobDecode buf = Ok dat' →
  kvBatch_IndexRom db (StartBatch db) rom = Ok kvb →
  size kvb ≠ 0%Z →
  Close db kvb = (db', None) →
  DatsForRom db' rom = Ok dats →
  kvStore_IndexRom db rom = (db', None)
  ∧ GetDat db' (sha1Sum buf) = Ok (Some dat')
  ∧ dat' ∈ dats.
Proof.
  intros Hks Hrs Hnone Henc Hdec Hbatch Hsize Hclose Hdats.
  assert (kvStore_IndexRom db rom = (db', None)) as Hindex
    by (unfold kvStore_IndexRom; by rewrite Hbatch).
  unfold kvBatch_IndexRom in Hbatch.
  match type of Hbatch with
  | res_bind ?r _ = Ok _ => destruct r as [k|] eqn:Hhead; cbn [res_bind] in Hbatch; [|done]
  end.
  apply IndexRom_head_queued in Hhead as (Hd & _ & _ & Hs).
  rewrite Hnone in Hbatch. cbn [res_bind] in Hbatch.
  rewrite decide_False in Hbatch by (simpl; lia).
  rewrite Henc in Hbatch. cbn [res_bind] in Hbatch.
  assert (freshFor db k) as Hfresh by (by split).
  assert (length (sha1Sum buf) = sha1_Size) as Hlen by apply sha1Sum_length.
  assert (length (sha1Sum buf) = keySize (datsDB db)) as Hlen' by congruence.
  destruct (IndexDat_stored db db' (artificialDat db rom) (sha1Sum buf) buf k kvb
              Hfresh Hlen' Henc Hbatch Hsize Hclose) as [Hget _].
  destruct (IndexDat_linked db db' (artificialDat db rom) (sha1Sum buf) buf k kvb
              (mkGame "" "" [rom]) rom rs Hfresh Hlen Hlen' Henc) as (r & Hr & Hheld);
    [by left|by left|by left|done|done|done|done|].
  split_and!; [done| |].
  - unfold GetDat. rewrite Hget. simpl. by rewrite Hdec.
  - by eapply linked_then_DatsForRom.
Qed.

Lemma IndexRom_then_DatsForRom_witness :
  kvStore_IndexRom fixtures.emptyDB sourceRom = (sourceIndexed, None)
  ∧ GetDat sourceIndexed
      (sha1Sum (Byte.x01 :: list_byte_of_string "Artificial Dat for a"))
    = Ok (Some (mkDat "Artificial Dat for a" "" "" 0 true []))
  ∧ mkDat "Artificial Dat for a" "" "" 0 true []
    ∈ [mkDat "Artificial Dat for a" "" "" 0 true []].
Proof.
  eapply (IndexRom_then_DatsForRom fixtures.emptyDB sourceIndexed sourceRom
            (fixtures.d20 Byte.x0e) (Byte.x01 :: list_byte_of_string "Artificial Dat for a")).
  - reflexivity.
  - reflexivity.
  - reflexivity.
  - reflexivity.
  - reflexivity.
  - vm_compute. reflexivity.
  - vm_compute. discriminate.
  - vm_compute. reflexivity.
  - vm_compute. reflexivity.
Defined.

(** ** Resuming from the log that the observer writes *)

Lemma substring_all (s : string) : substring 0 (String.length s) s = s.
Proof. induction s as [|c s IH]; [done|]. exact (f_equal (String c) IH). Qed.

Lemma lastBytes_short (content : string) :
  (Z.of_nat (String.length content) ≤ 10240)%Z → lastBytes content = content.
Proof.
  intros Hlen. unfold lastBytes.
  replace (Nat.min (Z.to_nat 10240) (String.length content))
    with (String.length content) by lia.
  rewrite Nat.sub_diag. apply substring_all.
Qed.

Lemma readStrings_format (rest : string) :
  readStrings "" (formatLine ++ rest) = formatLine :: readStrings "" rest.
Proof. reflexivity. Qed.

Lemma string_le_ltb_trans (a b c : string) :
  String.le a b → String.ltb b c = true → String.ltb a c = true.
Proof.
  intros Hab Hbc.
  assert (String.le b c) as Hbc'.
  { unfold String.le, String.leb. unfold String.ltb in Hbc.
    by destruct (String.compare b c). }
  assert (String.le a c) as Hac by (by etrans).
  unfold String.ltb. destruct (String.compare a c) eqn:Hcmp; [|done|].
  - apply String.compare_eq_iff in Hcmp as ->.
    assert (b = c) as -> by (by apply (anti_symm String.le)).
    unfold String.ltb in Hbc.
    pose proof (String.compare_antisym c c) as Hcc.
    by destruct (String.compare c c).
  - unfold String.le, String.leb in Hac. by rewrite Hcmp in Hac.
Qed.

(** A resume point is empty or below every line of the tail of the log. *)
Lemma extractResumePoint_bound (content : string) (numWorkers : Z) (rp l : string) :
  extractResumePoint (Ok content) numWorkers = Ok rp →
  l ∈ readStrings "" (lastBytes content) →
  rp = "" ∨ String.le rp l.
Proof.
  intros Hrun Hl.
  assert (readStrings "" (lastBytes content) ≠ []) as Hne
    by (intros Hnil; rewrite Hnil in Hl; by apply elem_of_nil in Hl).
  destruct (Z.lt_trichotomy (Z.of_nat (length (readStrings "" (lastBytes content))))
              numWorkers) as [Hlt|[Heq|Hgt]].
  - rewrite extractResumePoint_shorter in Hrun by (done || by left). done.
  - destruct (extractResumePoint_exact content numWorkers Hne Heq)
      as (least & Hleast & _ & Hmin).
    rewrite Hleast in Hrun. simplify_eq. right. by apply Hmin.
  - destruct (decide (numWorkers ≤ 0)%Z) as [Hle|Hpos].
    + rewrite extractResumePoint_shorter in Hrun by (done || by right). done.
    + rewrite extractResumePoint_longer in Hrun by lia. simplify_eq. by left.
Qed.

Lemma runObserver_format `{OS} (depot : Depot) (evs : list ObserverEvent)
    (o o' : Observer) :
  startsWithFormat (resumeLog o) →
  runObserver depot o evs = Ok o' → startsWithFormat (resumeLog o').
Proof.
  revert o. induction evs as [|ev evs IH]; intros o Hfmt; simpl.
  - by intros [= <-].
  - destruct (observerStep depot o ev) as [o1|] eqn:Hstep; simpl; [|done].
    apply IH. clear IH.
    assert (∀ o1, writeResumeLogEntry depot o = Ok o1 → startsWithFormat (resumeLog o1))
      as Hwrite.
    { clear Hstep o1. intros o1. unfold writeResumeLogEntry.
      destruct (comps o !! 0) as [c0|]; [|done].
      case_decide; [|by intros [= <-]].
      destruct (sortStrings (comps o) !! 0) as [least|]; [|done].
      destruct (writeSizes depot (obs_fs o)) as [fs'|]; simpl; [|done].
      intros [= <-]. simpl. right. destruct Hfmt as [->|[rest ->]].
      - by exists least.
      - exists (rest ++ formatLine ++ least)%string.
        unfold Fprint. simpl. by rewrite !string_app_assoc. }
    destruct ev as [path workerIndex|]; simpl in Hstep; [|by apply Hwrite].
    case_decide; [by apply Hwrite|].
    destruct (index (comps o) workerIndex); [|done]. by simplify_eq.
Qed.

(** X28. Resuming from the log that the observer has written skips no
    absolute path: whatever the workers have completed and whenever the
    observer has written, when the log (of at most 10240 bytes) is read
    back by [extractResumePoint] for any number of workers and a resume
    point comes out, [Accept] accepts every path that begins with a
    slash. The first line of the log is the format string of the [Fprint]
    call, which sorts before every such path. *)
Theorem resume_from_written_log_skips_nothing `{OS} (depot : Depot) (n : nat) (fs : FS)
    (evs : list ObserverEvent) (o : Observer) (numWorkers : Z) (resumePoint rel : string) :
  runObserver depot (newObserver n fs) evs = Ok o →
  (Z.of_nat (String.length (resumeLog o)) ≤ 10240)%Z →
  extractResumePoint (Ok (resumeLog o)) numWorkers = Ok resumePoint →
  Accept resumePoint ("/" ++ rel) = true.
Proof.
  intros Hrun Hlen Hpoint.
  assert (startsWithFormat (resumeLog o)) as [Hempty|[rest Hrest]].
  { eapply runObserver_format; [|done]. by left. }
  - rewrite Hempty in Hpoint. done.
  - destruct (extractResumePoint_bound _ _ _ formatLine Hpoint) as [->|Hle].
    + rewrite lastBytes_short by done. rewrite Hrest, readStrings_format. by left.
    + done.
    + unfold Accept. case_decide; [|done].
      by apply (string_le_ltb_trans _ formatLine).
Qed.

Lemma resume_from_written_log_skips_nothing_witness :
  Accept formatLine ("/" ++ "in/a") = true.
Proof.
  apply (resume_from_written_log_skips_nothing oneRoot 1 sourceFS oneCompletion
           (mkObserver ["/in/a"] ("%s" ++ newline ++ "/in/a") sourceFS) 2 formatLine "in/a").
  - vm_compute. reflexivity.
  - vm_compute. discriminate.
  - vm_compute. reflexivity.
Defined.
